(** * ExpensePartner: the settlement core

    A shallow embedding of the expense validator
    ([lib/utils/expense-validation]) and of the balance calculator
    ([lib/utils/balance-calculator]) together with the properties their
    specification states about them, and of the two places expenses come
    from: [rowToExpense] of [lib/services/expense.service] and the custom
    split of [components/add-expense-drawer].

    The TypeScript sources compute on JavaScript [number]s, that is on
    IEEE-754 binary64 values.  They are modelled by [spec_float], the
    executable specification of binary64 arithmetic of the standard library
    (rounding to nearest, ties to even), so that every definition below can
    be evaluated and gives, bit for bit, the value the program computes.
    The objects they use as maps from user ids to numbers are modelled with
    what they inherit from [Object.prototype] and with the order in which
    [Object.entries] lists their properties. *)

From Stdlib Require Import ZArith Bool List String Ascii Lia Permutation.
From Stdlib Require Import Reals Lra.
From Stdlib Require Import Floats.SpecFloat.
From stdpp Require Import gmap strings list fin_maps.

#[local] Set Warnings "-clear-no-such-hyp".

Local Open Scope string_scope.
Local Open Scope Z_scope.

(** ** JavaScript numbers *)

Definition number : Type := spec_float.

Definition prec : Z := 53.
Definition emax : Z := 1024.

(** An integer literal, or an integer converted to a number (an array
    length, an array index). *)
Definition of_Z (z : Z) : number := binary_normalize prec emax z 0 false.

Definition zero : number := S754_zero false.
Definition one : number := of_Z 1.
Definition hundred : number := of_Z 100.

Definition fadd : number -> number -> number := SFadd prec emax.
Definition fsub : number -> number -> number := SFsub prec emax.
Definition fmul : number -> number -> number := SFmul prec emax.
Definition fdiv : number -> number -> number := SFdiv prec emax.

(** A decimal literal with two decimals, [dec 5999] for [59.99]: the double
    nearest to [c/100], which the correctly rounded quotient of the two
    exactly representable integers is. *)
Definition dec (c : Z) : number := fdiv (of_Z c) hundred.

(** [a === b], [a < b], [a <= b], [a > b] on numbers. *)
Definition feq : number -> number -> bool := SFeqb.
Definition flt : number -> number -> bool := SFltb.
Definition fle : number -> number -> bool := SFleb.
Definition fgt (a b : number) : bool := SFltb b a.

Definition Number_isFinite (x : number) : bool :=
  match x with
  | S754_zero _ | S754_finite _ _ _ => true
  | S754_infinity _ | S754_nan => false
  end.

Definition Math_abs : number -> number := SFabs.

(** The signed integer [m] of a finite number [(-1)^s * m * 2^e]. *)
Definition signed (s : bool) (m : positive) : Z :=
  if s then Z.neg m else Z.pos m.

(** [Math.floor]: the greatest integer not above [x]; integers, infinities
    and NaN are returned unchanged, and a value in [(-0, 1)] keeps the sign
    of its zero. *)
Definition Math_floor (x : number) : number :=
  match x with
  | S754_finite s m (Z.neg k) =>
      let n := Z.shiftr (signed s m) (Z.pos k) in
      if Z.eqb n 0 then S754_zero s else of_Z n
  | _ => x
  end.

(** [Math.round]: the integer nearest to [x], the larger one when [x] lies
    half way between two integers, computed as the floor of the exact
    [x + 1/2]; a result of zero keeps the sign of [x]. *)
Definition Math_round (x : number) : number :=
  match x with
  | S754_finite s m (Z.neg k) =>
      let n := Z.shiftr (signed s m + Z.shiftl 1 (Z.pos k - 1)) (Z.pos k) in
      if Z.eqb n 0 then S754_zero s else of_Z n
  | _ => x
  end.

Definition isNaN (x : number) : bool :=
  match x with S754_nan => true | _ => false end.

(** [Math.max] of two numbers: NaN when one of them is, and [+0] above
    [-0]. *)
Definition Math_max (a b : number) : number :=
  if isNaN a || isNaN b then S754_nan
  else if flt a b then b
  else if flt b a then a
  else match a with S754_zero true => b | _ => a end.

(** ** Domain types ([lib/types/expense.types]) *)

Record User := { user_id : string; user_name : string }.

Record Split := { userId : string; split_amount : number }.

Inductive SplitType := equal | custom.

(** [paidBy] is declared a [User]; the calculator reads it as
    [expense.paidBy?.id], so a missing payer is part of the model. *)
Record Expense := {
  expense_id : string;
  title : string;
  amount : number;
  paidBy : option User;
  splitType : SplitType;
  splits : list Split
}.

(** [Balances = Record<string, number>]: the own properties of the object,
    a number under each name.  What the object inherits from
    [Object.prototype] is with the reads and writes of the calculator. *)
Abbreviation Balances := (gmap string number).

(** ** Expense validation ([lib/utils/expense-validation]) *)

(** The messages of the validator.  The one built by a template literal is
    kept with the two numbers it prints. *)
Inductive message :=
| Text (s : string)
| SplitTotalMismatch (sum amount : number).

Definition render (toFixed2 : number -> string) (m : message) : string :=
  match m with
  | Text s => s
  | SplitTotalMismatch sum amount =>
      ("Split total (₹" ++ toFixed2 sum ++
       ") must equal expense amount (₹" ++ toFixed2 amount ++ ")")%string
  end.

Record Validation := { valid : bool; error : option message }.

Definition ok : Validation := {| valid := true; error := None |}.
Definition failed (m : message) : Validation :=
  {| valid := false; error := Some m |}.

Definition FLOAT_EPSILON : number := dec 1.

Definition validateAmount (amount : number) : Validation :=
  if fle amount zero then failed (Text "Amount must be greater than zero")
  else if negb (Number_isFinite amount)
  then failed (Text "Amount must be a valid number")
  else ok.

(** [amount] is a [number]: the [undefined] and [null] alternatives of the
    test are excluded by its type. *)
Definition validateNotEmpty (amount : number) : Validation :=
  if feq amount zero then failed (Text "Please enter an amount") else ok.

Definition sum_amounts (splits : list Split) : number :=
  fold_left (fun acc s => fadd acc (split_amount s)) splits zero.

Definition validateSplitTotals (amount : number) (splits : list Split)
  : Validation :=
  let sum := sum_amounts splits in
  let diff := Math_abs (fsub sum amount) in
  if fgt diff FLOAT_EPSILON then failed (SplitTotalMismatch sum amount)
  else
    let hasNegative := existsb (fun s => flt (split_amount s) zero) splits in
    if hasNegative then failed (Text "Split amounts cannot be negative")
    else ok.

Definition validateExpenseInput (amount : number) (splitType : SplitType)
  (splits : list Split) : Validation :=
  let notEmpty := validateNotEmpty amount in
  if negb (valid notEmpty) then notEmpty else
  let amountOk := validateAmount amount in
  if negb (valid amountOk) then amountOk else
  match splitType with
  | custom =>
      let splitsOk := validateSplitTotals amount splits in
      if negb (valid splitsOk) then splitsOk else ok
  | equal => ok
  end.

(** ** Balance calculation ([lib/utils/balance-calculator]) *)

Definition round2 (n : number) : number :=
  fdiv (Math_round (fmul n hundred)) hundred.

Definition buildEqualSplits (amount : number) (participantIds : list string)
  : list Split :=
  let n := of_Z (Z.of_nat (length participantIds)) in
  match participantIds with
  | [] => []
  | _ =>
      let totalCents := Math_round (fmul amount hundred) in
      let shareCents := Math_floor (fdiv totalCents n) in
      let remainder := fsub totalCents (fmul shareCents n) in
      imap (fun i userId =>
              let cents :=
                fadd shareCents
                  (if flt (of_Z (Z.of_nat i)) remainder then one else zero) in
              {| userId := userId; split_amount := fdiv cents hundred |})
           participantIds
  end.

(** [expense.paidBy?.id], with [None] for the values [!payerId] rejects:
    no payer, or an empty id. *)
Definition payerId (expense : Expense) : option string :=
  match paidBy expense with
  | Some u => if String.eqb (user_id u) "" then None else Some (user_id u)
  | None => None
  end.

(** *** Objects used as maps

    [balances], [giveMap] and [getMap] are object literals [{}] indexed by
    user ids.  Such an object inherits the members of [Object.prototype]:
    reading a name it does not own gives the inherited member where there
    is one, and [undefined] otherwise. *)

Definition Object_prototype : list string :=
  ["constructor"; "__defineGetter__"; "__defineSetter__"; "hasOwnProperty";
   "__lookupGetter__"; "__lookupSetter__"; "isPrototypeOf";
   "propertyIsEnumerable"; "toString"; "valueOf"; "__proto__";
   "toLocaleString"].

Definition inherited (id : string) : bool :=
  existsb (String.eqb id) Object_prototype.

(** What [o[id] ?? 0] evaluates to: a number, or a member of
    [Object.prototype] (a function, or the prototype itself for
    [__proto__]). *)
Inductive operand :=
| Num (x : number)
| Member.

(** [o[id] ?? 0], [own] being the own property [id] of [o], if any. *)
Definition or_zero (own : option number) (id : string) : operand :=
  match own with
  | Some x => Num x
  | None => if inherited id then Member else Num zero
  end.

(** [round2(v + amt)] and [round2(v - amt)].  With a function or an object
    for [v] the sum is a string that is not a numeral and the difference is
    NaN: [round2] of either is NaN. *)
Definition round2_plus (v : operand) (amt : number) : number :=
  match v with
  | Num x => round2 (fadd x amt)
  | Member => S754_nan
  end.

Definition round2_minus (v : operand) (amt : number) : number :=
  match v with
  | Num x => round2 (fsub x amt)
  | Member => S754_nan
  end.

(** [balances[id] ?? 0] *)
Definition get0 (balances : Balances) (id : string) : operand :=
  or_zero (balances !! id) id.

(** [balances[id] = v] for a number [v].  Every name can be given an own
    property but [__proto__]: that assignment calls the setter of
    [Object.prototype], which ignores a number. *)
Definition put (balances : Balances) (id : string) (v : number) : Balances :=
  if String.eqb id "__proto__" then balances else <[id := v]> balances.

Definition owe (balances : Balances) (split : Split) : Balances :=
  let oweAmount := round2 (split_amount split) in
  put balances (userId split)
    (round2_minus (get0 balances (userId split)) oweAmount).

Definition settle (balances : Balances) (expense : Expense) : Balances :=
  match payerId expense with
  | None => balances
  | Some payer =>
      let amount := round2 (amount expense) in
      let balances :=
        put balances payer (round2_plus (get0 balances payer) amount) in
      fold_left owe (splits expense) balances
  end.

Definition calculateBalances (expenses : list Expense)
  (memberIds : list string) : Balances :=
  let balances := fold_left (fun b id => put b id zero) memberIds ∅ in
  fold_left settle expenses balances.

(** The two local objects of [getSettlementBreakdown] are enumerated with
    [Object.entries]: their own properties are kept as association lists in
    insertion order. *)
Definition entries := list (string * number).

Fixpoint entry_get (o : entries) (k : string) : option number :=
  match o with
  | [] => None
  | (k', v) :: o' => if String.eqb k' k then Some v else entry_get o' k
  end.

Fixpoint entry_set (o : entries) (k : string) (v : number) : entries :=
  match o with
  | [] => [(k, v)]
  | (k', v') :: o' =>
      if String.eqb k' k then (k, v) :: o' else (k', v') :: entry_set o' k v
  end.

(** [o[k] = round2((o[k] ?? 0) + amt)] *)
Definition bump (o : entries) (k : string) (amt : number) : entries :=
  if String.eqb k "__proto__" then o
  else entry_set o k (round2_plus (or_zero (entry_get o k) k) amt).

(** The array index a property name stands for: the decimal numeral,
    without sign or leading zero, of an integer below [2^32 - 1]. *)
Definition digit (c : Ascii.ascii) : option N :=
  let n := Ascii.N_of_ascii c in
  if ((48 <=? n) && (n <=? 57))%N then Some (n - 48)%N else None.

Fixpoint numeral (s : string) (acc : N) : option N :=
  match s with
  | EmptyString => Some acc
  | String c s' =>
      match digit c with
      | Some d => numeral s' (10 * acc + d)%N
      | None => None
      end
  end.

Definition array_index (k : string) : option N :=
  match k with
  | EmptyString => None
  | String c rest =>
      if Ascii.eqb c "0"%char && negb (String.eqb rest "") then None
      else match numeral k 0 with
           | Some n => if (n <? 2 ^ 32 - 1)%N then Some n else None
           | None => None
           end
  end.

(** [Object.entries]: the properties whose names are array indices come
    first, in ascending order of the index, then the others in insertion
    order. *)
Fixpoint place (n : N) (kv : string * number) (l : entries) : entries :=
  match l with
  | [] => [kv]
  | kv' :: l' =>
      match array_index (fst kv') with
      | Some n' => if (n <? n')%N then kv :: l else kv' :: place n kv l'
      | None => kv :: l
      end
  end.

Definition indexed (o : entries) : entries :=
  fold_right (fun kv acc =>
                match array_index (fst kv) with
                | Some n => place n kv acc
                | None => acc
                end) [] o.

Definition Object_entries (o : entries) : entries :=
  (indexed o ++
   List.filter (fun kv => match array_index (fst kv) with
                          | Some _ => false
                          | None => true
                          end) o)%list.

Record Tally := {
  t_totalOwed : number;
  t_totalPaid : number;
  giveMap : entries;
  getMap : entries
}.

Definition tally_split (currentUserId payer : string) (t : Tally)
  (split : Split) : Tally :=
  let amt := round2 (split_amount split) in
  let t :=
    if String.eqb (userId split) currentUserId then
      {| t_totalOwed := fadd (t_totalOwed t) amt;
         t_totalPaid := t_totalPaid t;
         giveMap := if negb (String.eqb payer currentUserId)
                    then bump (giveMap t) payer amt else giveMap t;
         getMap := getMap t |}
    else t in
  if String.eqb payer currentUserId
     && negb (String.eqb (userId split) currentUserId)
  then {| t_totalOwed := t_totalOwed t;
          t_totalPaid := t_totalPaid t;
          giveMap := giveMap t;
          getMap := bump (getMap t) (userId split) amt |}
  else t.

Definition tally_expense (currentUserId : string) (t : Tally)
  (expense : Expense) : Tally :=
  match payerId expense with
  | None => t
  | Some payer =>
      let t := fold_left (tally_split currentUserId payer) (splits expense) t in
      if String.eqb payer currentUserId
      then {| t_totalOwed := t_totalOwed t;
              t_totalPaid := fadd (t_totalPaid t) (round2 (amount expense));
              giveMap := giveMap t;
              getMap := getMap t |}
      else t
  end.

Record Breakdown := {
  totalOwed : number;
  totalPaid : number;
  getBack : number;
  youGive : list Split;
  youGet : list Split
}.

Definition positive_entries (o : entries) : list Split :=
  map (fun '(k, v) => {| userId := k; split_amount := round2 v |})
      (List.filter (fun kv => fgt (snd kv) zero) (Object_entries o)).

Definition getSettlementBreakdown (expenses : list Expense)
  (currentUserId : string) : Breakdown :=
  let t := fold_left (tally_expense currentUserId) expenses
             {| t_totalOwed := zero; t_totalPaid := zero;
                giveMap := []; getMap := [] |} in
  let totalOwed := round2 (t_totalOwed t) in
  let totalPaid := round2 (t_totalPaid t) in
  {| totalOwed := totalOwed;
     totalPaid := totalPaid;
     getBack := round2 (Math_max zero (fsub totalPaid totalOwed));
     youGive := positive_entries (giveMap t);
     youGet := positive_entries (getMap t) |}.

(** ** Reading the specification *)

(** The shares of [viewer]: the rounded amounts of the splits that name
    [viewer], over the expenses that have a payer, in order. *)
Definition own_shares (expenses : list Expense) (viewer : string)
  : list number :=
  flat_map (fun e =>
    match payerId e with
    | None => []
    | Some _ =>
        map (fun s => round2 (split_amount s))
            (List.filter (fun s => String.eqb (userId s) viewer) (splits e))
    end) expenses.

(** The same, over the expenses paid by somebody else only. *)
Definition shares_owed_to_others (expenses : list Expense) (viewer : string)
  : list number :=
  flat_map (fun e =>
    match payerId e with
    | None => []
    | Some p =>
        if String.eqb p viewer then []
        else map (fun s => round2 (split_amount s))
               (List.filter (fun s => String.eqb (userId s) viewer) (splits e))
    end) expenses.

Definition total (l : list number) : number := fold_left fadd l zero.

(** Rounding to the nearest integer with ties away from zero, and the
    two-decimal rounding built on it. *)
Definition round_half_away (x : number) : number :=
  match x with
  | S754_finite s m (Z.neg k) =>
      let n := Z.shiftr (Z.pos m + Z.shiftl 1 (Z.pos k - 1)) (Z.pos k) in
      if Z.eqb n 0 then S754_zero s else of_Z (if s then - n else n)
  | _ => x
  end.

Definition round2_half_away (x : number) : number :=
  fdiv (round_half_away (fmul x hundred)) hundred.

(** The sum of the values of a balance map, taken in the order of the map,
    and what the specification equates it with: the rounded sum of all the
    amounts minus the rounded sum of all the split amounts. *)
Definition balance_sum (balances : Balances) : number :=
  map_fold (fun _ v acc => fadd acc v) zero balances.

Definition stated_balance_sum (expenses : list Expense) : number :=
  fsub (round2 (total (map amount expenses)))
       (round2 (total (map split_amount (flat_map splits expenses)))).

(** The user ids an expense writes to. *)
Definition touched (e : Expense) : gset string :=
  match payerId e with
  | None => ∅
  | Some p => {[p]} ∪ list_to_set (map userId (splits e))
  end.

(** The same ids as a list, the payer first, and the expenses none of whose
    ids is the name of a member of [Object.prototype]. *)
Definition users (e : Expense) : list string :=
  match payerId e with
  | None => []
  | Some p => p :: map userId (splits e)
  end.

Definition plain (expenses : list Expense) : Prop :=
  Forall (fun id => inherited id = false) (flat_map users expenses).

(** ** Numbers as reals

    What the arithmetic lemmas are stated with: the real value of a finite
    number, and the relation between a rounded result and the exact one. *)

Definition pow2 (e : Z) : R := powerRZ 2 e.

Definition sgn (s : bool) : R := if s then (-1)%R else 1%R.

(** The real number a finite number stands for. *)
Definition val (x : number) : R :=
  match x with
  | S754_finite s m e => (IZR (signed s m) * pow2 e)%R
  | _ => 0%R
  end.

(** Finite, non-zero numbers with a full mantissa. *)
Definition canonical (x : number) : Prop :=
  match x with
  | S754_finite _ m _ => Z.pos (digits2_pos m) = prec
  | _ => False
  end.

(** [y] is a canonical number within half a unit in the last place of the
    real [v]. *)
Definition rounds_to (y : number) (v : R) : Prop :=
  canonical y /\ (Rabs (val y - v) <= pow2 (- prec) * Rabs v)%R.

Definition in_range (v : R) : Prop :=
  (pow2 (-1000) <= Rabs v < pow2 1000)%R.

(** The position of a real [x] of [[m, m+1)] that a location stands for. *)
Definition loc_ok (l : location) (m : Z) (x : R) : Prop :=
  match l with
  | loc_Exact => x = IZR m
  | loc_Inexact Lt => (IZR m < x < IZR m + / 2)%R
  | loc_Inexact Eq => (x = IZR m + / 2)%R
  | loc_Inexact Gt => (IZR m + / 2 < x < IZR m + 1)%R
  end.

Definition shr_ok (mrs : shr_record) (x : R) : Prop :=
  0 <= shr_m mrs /\ loc_ok (loc_of_shr_record mrs) (shr_m mrs) x.

(** ** Balances in whole cents

    Within [budget] cents the rounded sums of the calculator are exact: the
    balances are then those of a ledger of integers. *)

(** The integer [Math.round (100 * x)], when that is a number below 2^52. *)
Definition cents (x : number) : option Z :=
  match fmul x hundred with
  | S754_zero _ => Some 0
  | S754_finite s m (Z.neg k) =>
      Some (Z.shiftr (signed s m + Z.shiftl 1 (Z.pos k - 1)) (Z.pos k))
  | _ => None
  end.

Definition cents0 (x : number) : Z := default 0 (cents x).

Definition budget : Z := 2 ^ 48.

(** The size of an amount in cents; an amount whose cents are not defined is
    above every budget. *)
Definition weight (x : number) : Z :=
  match cents x with
  | Some n => Z.abs n
  | None => budget + 1
  end.

Fixpoint sumZ (l : list Z) : Z :=
  match l with
  | [] => 0
  | x :: l => x + sumZ l
  end.

(** The expenses [calculateBalances] does not skip. *)
Definition settled (expenses : list Expense) : list Expense :=
  List.filter (fun e => match payerId e with Some _ => true | None => false end)
    expenses.

Definition amount_cents (expenses : list Expense) : Z :=
  sumZ (map (fun e => cents0 (amount e)) (settled expenses)).

Definition split_cents (expenses : list Expense) : Z :=
  sumZ (map (fun s => cents0 (split_amount s))
          (flat_map splits (settled expenses))).

Definition load (expenses : list Expense) : Z :=
  sumZ (map (fun e => weight (amount e)) (settled expenses)) +
  sumZ (map (fun s => weight (split_amount s))
          (flat_map splits (settled expenses))).

(** The sum of the balances of a map, in cents. *)
Definition total_cents (balances : Balances) : Z :=
  map_fold (fun _ v acc => cents0 v + acc) 0 balances.

Definition sum_values (zb : gmap string Z) : Z :=
  map_fold (fun _ c acc => c + acc) 0 zb.

(** The splits of an expense cover its amount, cent for cent. *)
Definition covered (e : Expense) : Prop :=
  sumZ (map (fun s => cents0 (split_amount s)) (splits e)) = cents0 (amount e).

(** The postings of an expense: a credit of its amount to the payer, a debit
    of every split amount to the user of the split. *)
Definition posting : Type := bool * string * number.

Definition postings (e : Expense) : list posting :=
  match payerId e with
  | None => []
  | Some p =>
      (true, p, amount e)
      :: map (fun s => (false, userId s, split_amount s)) (splits e)
  end.

Definition book (balances : Balances) (p : posting) : Balances :=
  let '(credit, k, x) := p in
  put balances k
    ((if credit then round2_plus else round2_minus) (get0 balances k)
       (round2 x)).

Definition delta (p : posting) : Z :=
  let '(credit, _, x) := p in if credit then cents0 x else - cents0 x.

Definition post (k : string) (d : Z) (zb : gmap string Z) : gmap string Z :=
  <[k := default 0 (zb !! k) + d]> zb.

Definition zbook (zb : gmap string Z) (p : posting) : gmap string Z :=
  post (snd (fst p)) (delta p) zb.

Definition ledger (expenses : list Expense) (memberIds : list string)
  : gmap string Z :=
  fold_left zbook (flat_map postings expenses)
    (fold_left (fun b id => <[id := 0]> b) memberIds ∅).

Definition bounded (zb : gmap string Z) (S : Z) : Prop :=
  forall k c, zb !! k = Some c -> Z.abs c <= S.

(** The members have an account from the start. *)
Definition seeded (memberIds : list string) (zb : gmap string Z) : Prop :=
  forall k, k ∈ memberIds -> is_Some (zb !! k).

(** The balances a ledger stands for.  [__proto__] is never a key.  The
    name of another member of [Object.prototype] that is not a member id
    holds NaN: its first read gave the inherited member.  Every other key
    holds its cents. *)
Definition kept (memberIds : list string) (k : string) (c : Z)
  : option number :=
  if String.eqb k "__proto__" then None
  else if inherited k && negb (bool_decide (k ∈ memberIds))
  then Some S754_nan
  else Some (dec c).

Definition balances_of (memberIds : list string) (zb : gmap string Z)
  : Balances :=
  map_imap (kept memberIds) zb.

(** ** The figures of one member

    What a member paid and what a member owes, in cents, the amounts that
    enter the totals of a viewer, and the share of the [i]-th of [n]
    participants in [T] cents. *)

Definition paid_by_member (k : string) (e : Expense) : bool :=
  match payerId e with Some p => String.eqb p k | None => false end.

Definition paid_cents (expenses : list Expense) (k : string) : Z :=
  sumZ (map (fun e => cents0 (amount e))
          (List.filter (paid_by_member k) expenses)).

Definition owed_cents (expenses : list Expense) (k : string) : Z :=
  sumZ (map (fun s => cents0 (split_amount s))
          (List.filter (fun s => String.eqb (userId s) k)
             (flat_map splits (settled expenses)))).

(** The rounded amounts of the expenses [viewer] paid, in order. *)
Definition paid_amounts (expenses : list Expense) (viewer : string)
  : list number :=
  map (fun e => round2 (amount e))
      (List.filter (paid_by_member viewer) expenses).

(** The amounts that enter the totals of a viewer: the amounts of the
    expenses the viewer paid and the splits in the viewer's name. *)
Definition paid_list (expenses : list Expense) (viewer : string)
  : list number :=
  map amount (List.filter (paid_by_member viewer) expenses).

Definition owed_list (expenses : list Expense) (viewer : string)
  : list number :=
  map split_amount
    (List.filter (fun s => String.eqb (userId s) viewer)
       (flat_map splits (settled expenses))).

Definition stake (expenses : list Expense) (viewer : string) : list number :=
  (paid_list expenses viewer ++ owed_list expenses viewer)%list.

Definition equal_share (T n : Z) (i : nat) : Z :=
  T / n + (if Z.of_nat i <? T mod n then 1 else 0).

(** ** Who owes whom

    The give and the get map of [getSettlementBreakdown], split by split,
    and the debts in cents they stand for. *)

(** The splits of the expenses with a payer, each with its payer, in
    order. *)
Definition events (expenses : list Expense) : list (string * Split) :=
  flat_map (fun e =>
    match payerId e with
    | Some p => map (fun s => (p, s)) (splits e)
    | None => []
    end) expenses.

(** What [debtor] owes [creditor], in cents: the shares of [debtor] in the
    expenses [creditor] paid. *)
Definition owes (debtor creditor : string) (ev : string * Split) : bool :=
  String.eqb (fst ev) creditor && String.eqb (userId (snd ev)) debtor.

Definition debt (expenses : list Expense) (debtor creditor : string) : Z :=
  sumZ (map (fun ev => cents0 (split_amount (snd ev)))
          (List.filter (owes debtor creditor) (events expenses))).

(** What one split does to the give map and to the get map of a viewer. *)
Definition give_step (viewer : string) (o : entries) (ev : string * Split)
  : entries :=
  if String.eqb (userId (snd ev)) viewer && negb (String.eqb (fst ev) viewer)
  then bump o (fst ev) (round2 (split_amount (snd ev))) else o.

Definition get_step (viewer : string) (o : entries) (ev : string * Split)
  : entries :=
  if String.eqb (fst ev) viewer && negb (String.eqb (userId (snd ev)) viewer)
  then bump o (userId (snd ev)) (round2 (split_amount (snd ev))) else o.

(** A step that adds a split to the entry of [key ev] when [sel ev], and
    what such steps add up to for the key [k]. *)
Definition step (sel : string * Split -> bool) (key : string * Split -> string)
  (o : entries) (ev : string * Split) : entries :=
  if sel ev then bump o (key ev) (round2 (split_amount (snd ev))) else o.

Definition posted (sel : string * Split -> bool)
  (key : string * Split -> string) (k : string) (l : list (string * Split))
  : Z :=
  sumZ (map (fun ev => cents0 (split_amount (snd ev)))
          (List.filter (fun ev => sel ev && String.eqb (key ev) k) l)).

(** The cents of the values of a map, and of a list of splits. *)
Definition entries_cents (o : entries) : Z :=
  sumZ (map (fun kv => cents0 (snd kv)) o).

Definition splits_cents (ss : list Split) : Z :=
  sumZ (map (fun s => cents0 (split_amount s)) ss).

Definition posted_all (sel : string * Split -> bool)
  (l : list (string * Split)) : Z :=
  sumZ (map (fun ev => cents0 (split_amount (snd ev))) (List.filter sel l)).

(** ** Invariants *)

(** The postings that go to the account of [k]. *)
Definition posted_to (k : string) (p : posting) : bool :=
  String.eqb (snd (fst p)) k.

(** The keys of the two maps of a tally are distinct and never the
    viewer's. *)
Definition tidy (viewer : string) (t : Tally) : Prop :=
  ((viewer ∉ map fst (giveMap t)) /\ NoDup (map fst (giveMap t))) /\
  ((viewer ∉ map fst (getMap t)) /\ NoDup (map fst (getMap t))).

(** The values of [o] are the amounts [g], in cents, none above [S]; under
    the name of a member of [Object.prototype] there is NaN, or nothing. *)
Definition tracks (o : entries) (g : string -> Z) (S : Z) : Prop :=
  forall k, Z.abs (g k) <= S /\
            match entry_get o k with
            | Some v => v = if inherited k then S754_nan else dec (g k)
            | None => inherited k = false -> g k = 0
            end.

(** The rounded sum [acc] of [k] amounts that add up to [S] cents, [B] being
    a bound on all the sums. *)
Definition near (B k : Z) (acc : number) (S : Z) : Prop :=
  (S = 0 -> acc = zero) /\
  (0 < S ->
   canonical acc /\
   (Rabs (val acc * 100 - IZR S)
    <= IZR k * (/ IZR (2 ^ 53) * (2 * IZR B + 1)))%R).

(** The sign bit of a number is clear; NaN has none. *)
Definition unsigned (x : number) : Prop :=
  match x with
  | S754_zero s | S754_infinity s | S754_finite s _ _ => s = false
  | S754_nan => True
  end.

(** ** Loading expenses ([lib/services/expense.service]) *)

(** A row of the [expenses] table with its fields at their declared types;
    the [splits] column may be [null].  [created_at] plays no part in the
    calculations and is left out, as [createdAt] is in [Expense]. *)
Record ExpenseRow := {
  row_id : string;
  row_title : string;
  row_amount : number;
  paid_by : option User;
  split_type : SplitType;
  row_splits : option (list Split)
}.

(** The service has a [round2] of its own, with the body of the
    calculator's; [Number] is the identity on a [number]. *)
Definition rowToExpense (row : ExpenseRow) : Expense :=
  let paidBy := paid_by row in
  let rawSplits := default [] (row_splits row) in
  let splits :=
    map (fun s => {| userId := userId s;
                     split_amount := round2 (split_amount s) |}) rawSplits in
  {| expense_id := row_id row;
     title := row_title row;
     amount := round2 (row_amount row);
     paidBy := paidBy;
     splitType := split_type row;
     splits := splits |}.

(** ** Entering a custom split ([components/add-expense-drawer]) *)

(** [x || 0] on a number: zero for the falsy numbers, [0], [-0] and NaN. *)
Definition or0 (x : number) : number :=
  match x with
  | S754_zero _ | S754_nan => zero
  | _ => x
  end.

(** [room] is the member list of the room, if there is one; an [undefined]
    or empty [currentUserId] is falsy. *)
Definition otherMembers (room : option (list User))
  (currentUserId : option string) : list User :=
  match room, currentUserId with
  | Some members, Some id =>
      if String.eqb id "" then []
      else List.filter (fun m => negb (String.eqb (user_id m) id)) members
  | _, _ => []
  end.

Record CustomSplits := {
  cs_splits : list Split;
  cs_sumOthers : number;
  cs_rest : number;
  cs_valid : bool
}.

(** The body of the [customSplitsParsed] memo.  [entered id] is the number
    [parseFloat(customAmounts[id] || '0')] read from the text field of
    member [id] (NaN when the text is not a number). *)
Definition customSplitsParsed (others : list User) (entered : string -> number)
  (numAmount : number) (userId' : option string) : CustomSplits :=
  let step (st : list Split * number) (member : User) :=
    let val := Math_max zero (or0 (entered (user_id member))) in
    ((fst st ++ [{| userId := user_id member; split_amount := val |}])%list,
     fadd (snd st) val) in
  let '(othersSplits, sumOthers) := fold_left step others ([], zero) in
  let rest := fsub numAmount sumOthers in
  let restRounded := fdiv (Math_round (fmul rest hundred)) hundred in
  let totalsOk := fgt numAmount zero && fle (SFopp (dec 1)) restRounded in
  let atLeastOnePartnerFilled := fgt sumOthers zero in
  let valid := totalsOk && atLeastOnePartnerFilled in
  let splits :=
    (othersSplits ++
     match userId' with
     | Some id =>
         if String.eqb id "" then []
         else [{| userId := id; split_amount := Math_max zero restRounded |}]
     | None => []
     end)%list in
  {| cs_splits := splits; cs_sumOthers := sumOthers;
     cs_rest := Math_max zero restRounded; cs_valid := valid |}.

(** The split made for a partner, and the one made for the user. *)
Definition entered_split (entered : string -> number) (member : User) : Split :=
  {| userId := user_id member;
     split_amount := Math_max zero (or0 (entered (user_id member))) |}.

Definition own_split (userId' : option string) (a : number) : list Split :=
  match userId' with
  | Some id =>
      if String.eqb id "" then [] else [{| userId := id; split_amount := a |}]
  | None => []
  end.

(** ** Sample data *)

Definition user (id : string) : User := {| user_id := id; user_name := id |}.

Definition share (id : string) (a : number) : Split :=
  {| userId := id; split_amount := a |}.

Definition expense (payer : string) (a : number) (ss : list Split) : Expense :=
  {| expense_id := "e"; title := "Expense"; amount := a;
     paidBy := Some (user payer); splitType := custom; splits := ss |}.

(** * Properties *)

(** Closed statements are settled by evaluation, conjunct by conjunct. *)
Ltac conjuncts := repeat match goal with |- _ /\ _ => split end.
Ltac evaluate := conjuncts; vm_compute; first [reflexivity | congruence].

(** ** Comparisons with zero *)

Lemma positive_shape (x : number) :
  flt zero x = true ->
  x = S754_infinity false \/ exists m e, x = S754_finite false m e.
Proof.
  destruct x as [s|s| |s m e]; try discriminate.
  - destruct s; [discriminate|]. now left.
  - destruct s; [discriminate|]. right; eauto.
Qed.

Lemma positive_not_zero (x : number) : flt zero x = true -> feq x zero = false.
Proof.
  intros H; destruct (positive_shape x H) as [->|(m & e & ->)]; reflexivity.
Qed.

Lemma positive_not_le (x : number) : flt zero x = true -> fle x zero = false.
Proof.
  intros H; destruct (positive_shape x H) as [->|(m & e & ->)]; reflexivity.
Qed.

Lemma validateExpenseInput_head (amount : number) (t : SplitType)
  (ss : list Split) :
  Number_isFinite amount = true -> flt zero amount = true ->
  validateExpenseInput amount t ss =
  match t with
  | custom =>
      if valid (validateSplitTotals amount ss) then ok
      else validateSplitTotals amount ss
  | equal => ok
  end.
Proof.
  intros Hfin Hpos. unfold validateExpenseInput, validateNotEmpty, validateAmount.
  rewrite (positive_not_zero _ Hpos), (positive_not_le _ Hpos), Hfin.
  cbn [negb valid ok]. destruct t; [reflexivity|]. now destruct (valid _).
Qed.

(** ** Validation *)

(** C8. With split type [equal], every finite amount above zero is accepted,
    whatever the splits are: neither the split total nor the sign of the
    split amounts is looked at. *)
Theorem equal_split_skips_split_checks (amount : number) (ss : list Split) :
  Number_isFinite amount = true -> flt zero amount = true ->
  validateExpenseInput amount equal ss = ok.
Proof.
  intros Hfin Hpos. now rewrite validateExpenseInput_head.
Qed.

Lemma equal_split_skips_split_checks_witness :
  validateExpenseInput (of_Z 100) equal
    [share "a" (of_Z (-40)); share "b" (of_Z 7000)] = ok.
Proof.
  apply equal_split_skips_split_checks; vm_compute; reflexivity.
Defined.


(** The example of the specification: 40 + 59.99 against 100. *)
Example tolerance_example :
  validateExpenseInput (of_Z 100) custom
    [share "a" (of_Z 40); share "b" (dec 5999)] = ok.
Proof. vm_compute; reflexivity. Qed.

(** A computed difference of exactly 0.01 is accepted, the next number
    above it is not. *)
Example tolerance_is_inclusive :
  Math_abs (fsub (sum_amounts [share "a" (dec 1)]) (dec 2)) = FLOAT_EPSILON /\
  validateExpenseInput (dec 2) custom [share "a" (dec 1)] = ok /\
  valid (validateExpenseInput (of_Z 100) custom
           [share "a" (of_Z 40); share "b" (dec 5998)]) = false.
Proof. evaluate. Qed.

(** The tolerance applies to the computed difference. A split of 99.99
    against 100 is one cent short in decimals; the double nearest to 99.99
    is below it, the computed difference is above 0.01, and the input is
    rejected. *)
Example one_cent_short_in_doubles :
  flt FLOAT_EPSILON (Math_abs (fsub (dec 9999) (of_Z 100))) = true /\
  valid (validateExpenseInput (of_Z 100) custom [share "a" (dec 9999)]) = false.
Proof. evaluate. Qed.

(** C6, as the code has it. For split type [custom] and a valid amount, a
    negative split amount always makes the input invalid; the reason is
    "Split amounts cannot be negative" when the split total is within the
    tolerance, and the split total message otherwise, since the total is
    checked first. *)
Theorem negative_split_rejected (amount : number) (ss : list Split) :
  Number_isFinite amount = true -> flt zero amount = true ->
  existsb (fun s => flt (split_amount s) zero) ss = true ->
  validateExpenseInput amount custom ss =
  if fgt (Math_abs (fsub (sum_amounts ss) amount)) FLOAT_EPSILON
  then failed (SplitTotalMismatch (sum_amounts ss) amount)
  else failed (Text "Split amounts cannot be negative").
Proof.
  intros Hfin Hpos Hneg. rewrite validateExpenseInput_head by assumption.
  unfold validateSplitTotals. rewrite Hneg.
  now destruct (fgt _ _).
Qed.

Lemma negative_split_rejected_witness :
  validateExpenseInput (of_Z 100) custom
    [share "a" (of_Z (-10)); share "b" (of_Z 110)]
  = failed (Text "Split amounts cannot be negative").
Proof.
  rewrite negative_split_rejected; vm_compute; reflexivity.
Defined.

(** C6, as stated, fails: a negative split whose total is off is rejected
    with the split total message. *)
Lemma negative_split_reason_counterexample :
  existsb (fun s => flt (split_amount s) zero) [share "a" (of_Z (-10))] = true /\
  error (validateExpenseInput (of_Z 100) custom [share "a" (of_Z (-10))])
  <> Some (Text "Split amounts cannot be negative").
Proof. evaluate. Qed.

(** ** Rounding *)

(** C4, as stated, fails: -0.125 scales to -12.5, which [Math.round] takes
    to -12, so [round2] gives -0.12 where rounding ties away from zero
    gives -0.13. *)
Lemma round2_ties_counterexample :
  fmul (fdiv (of_Z (-1)) (of_Z 8)) hundred = fdiv (of_Z (-25)) (of_Z 2) /\
  round2 (fdiv (of_Z (-1)) (of_Z 8)) = dec (-12) /\
  round2_half_away (fdiv (of_Z (-1)) (of_Z 8)) = dec (-13) /\
  round2 (fdiv (of_Z (-1)) (of_Z 8)) <> round2_half_away (fdiv (of_Z (-1)) (of_Z 8)).
Proof. evaluate. Qed.

Lemma shiftr_nearest (v k : Z) :
  0 < k ->
  let n := Z.shiftr (v + Z.shiftl 1 (k - 1)) k in
  (2 * n - 1) * 2 ^ k <= 2 * v < (2 * n + 1) * 2 ^ k.
Proof.
  intros Hk n. subst n.
  rewrite Z.shiftr_div_pow2, Z.shiftl_mul_pow2 by lia.
  replace (2 ^ k) with (2 * 2 ^ (k - 1)).
  2:{ replace k with (Z.succ (k - 1)) at 2 by lia. rewrite Z.pow_succ_r; lia. }
  assert (Hp : 0 < 2 ^ (k - 1)) by (apply Z.pow_pos_nonneg; lia).
  set (h := 2 ^ (k - 1)) in *.
  pose proof (Z.div_mod (v + 1 * h) (2 * h) ltac:(lia)).
  pose proof (Z.mod_pos_bound (v + 1 * h) (2 * h) ltac:(lia)).
  nia.
Qed.

(** C4, as the code has it. [round2 x] scales [x] by 100 and divides the
    rounded value by 100. A scaled value [v / 2^k] that is not an integer is
    rounded to the integer [n] with [n - 1/2 <= v / 2^k < n + 1/2]: the
    nearest integer, and the one towards plus infinity on a tie, for
    negative values too; a zero, an integer, an infinity or NaN is left as
    it is. *)
Theorem round2_rounds_half_up (x : number) :
  match fmul x hundred with
  | S754_finite s m (Z.neg k) =>
      exists n : Z,
        (2 * n - 1) * 2 ^ Z.pos k <= 2 * signed s m
                                  < (2 * n + 1) * 2 ^ Z.pos k /\
        round2 x = fdiv (if Z.eqb n 0 then S754_zero s else of_Z n) hundred
  | scaled => round2 x = fdiv scaled hundred
  end.
Proof.
  unfold round2. destruct (fmul x hundred) as [| | |s m [|e|k]];
    try reflexivity.
  cbn [Math_round]. eexists; split; [|reflexivity].
  apply shiftr_nearest. lia.
Qed.

(** Ties on both sides of zero: 0.125 gives 0.13, -0.125 gives -0.12. *)
Example round2_of_eighths :
  round2 (fdiv (of_Z 1) (of_Z 8)) = dec 13 /\
  round2 (fdiv (of_Z (-1)) (of_Z 8)) = dec (-12).
Proof. evaluate. Qed.

(** ** Equal splits *)

Example buildEqualSplits_100_by_3 :
  buildEqualSplits (of_Z 100) ["a"; "b"; "c"] =
  [share "a" (dec 3334); share "b" (dec 3333); share "c" (dec 3333)].
Proof. vm_compute; reflexivity. Qed.

(** C2 at 0.3 over three participants: the three shares are 0.1 each, their
    sum is 0.30000000000000004 (the double above 0.3) and not
    [round2 0.3 = 0.3]; the cents, 10 each, do add up to the 30 of the
    amount. *)
Theorem buildEqualSplits_sum_drifts :
  flt zero (dec 30) = true /\
  map split_amount (buildEqualSplits (dec 30) ["a"; "b"; "c"])
  = [dec 10; dec 10; dec 10] /\
  round2 (dec 30) = dec 30 /\
  sum_amounts (buildEqualSplits (dec 30) ["a"; "b"; "c"])
  = S754_finite false 5404319552844596 (-54) /\
  dec 30 = S754_finite false 5404319552844595 (-54) /\
  feq (sum_amounts (buildEqualSplits (dec 30) ["a"; "b"; "c"]))
      (round2 (dec 30)) = false /\
  map (fun s => cents (split_amount s))
      (buildEqualSplits (dec 30) ["a"; "b"; "c"])
  = [Some 10; Some 10; Some 10] /\
  cents (dec 30) = Some 30.
Proof. evaluate. Qed.

(** ** Settlement breakdown *)

Lemma tally_split_totalOwed (viewer payer : string) (t : Tally) (s : Split) :
  t_totalOwed (tally_split viewer payer t s) =
  if String.eqb (userId s) viewer
  then fadd (t_totalOwed t) (round2 (split_amount s))
  else t_totalOwed t.
Proof.
  unfold tally_split.
  destruct (String.eqb (userId s) viewer), (String.eqb payer viewer);
    reflexivity.
Qed.

Lemma tally_splits_totalOwed (viewer payer : string) (ss : list Split) :
  forall t,
  t_totalOwed (fold_left (tally_split viewer payer) ss t) =
  fold_left fadd
    (map (fun s => round2 (split_amount s))
       (List.filter (fun s => String.eqb (userId s) viewer) ss))
    (t_totalOwed t).
Proof.
  induction ss as [|s ss IH]; intros t; [reflexivity|].
  cbn [fold_left List.filter]. rewrite IH, tally_split_totalOwed.
  destruct (String.eqb (userId s) viewer); reflexivity.
Qed.

Lemma tally_expense_totalOwed (viewer : string) (t : Tally) (e : Expense) :
  t_totalOwed (tally_expense viewer t e) =
  fold_left fadd (own_shares [e] viewer) (t_totalOwed t).
Proof.
  unfold tally_expense, own_shares. cbn [flat_map].
  destruct (payerId e) as [p|]; [|reflexivity].
  rewrite app_nil_r.
  destruct (String.eqb p viewer); cbn [t_totalOwed];
    apply tally_splits_totalOwed.
Qed.

Lemma tally_totalOwed (viewer : string) (es : list Expense) :
  forall t,
  t_totalOwed (fold_left (tally_expense viewer) es t) =
  fold_left fadd (own_shares es viewer) (t_totalOwed t).
Proof.
  induction es as [|e es IH]; intros t; [reflexivity|].
  cbn [fold_left]. rewrite IH, tally_expense_totalOwed.
  replace (own_shares (e :: es) viewer)
    with (own_shares [e] viewer ++ own_shares es viewer)%list.
  - now rewrite fold_left_app.
  - unfold own_shares. cbn [flat_map]. now rewrite app_nil_r.
Qed.

(** C1, as the code has it. [totalOwed] is the rounded sum of the viewer's
    rounded split amounts over all the expenses that have a payer, those the
    viewer paid included. *)
Theorem totalOwed_counts_every_share (expenses : list Expense)
  (viewer : string) :
  totalOwed (getSettlementBreakdown expenses viewer) =
  round2 (total (own_shares expenses viewer)).
Proof.
  unfold getSettlementBreakdown, total. cbn [totalOwed].
  now rewrite tally_totalOwed.
Qed.

(** C1, as stated, fails: U1 pays 100 split 50/50 with U2. Nothing is owed
    to others, and [totalOwed] for U1 is 50. *)
Lemma totalOwed_own_expense_counterexample :
  shares_owed_to_others
    [expense "U1" (of_Z 100) [share "U1" (of_Z 50); share "U2" (of_Z 50)]] "U1"
  = [] /\
  totalOwed (getSettlementBreakdown
    [expense "U1" (of_Z 100) [share "U1" (of_Z 50); share "U2" (of_Z 50)]] "U1")
  = of_Z 50 /\
  totalOwed (getSettlementBreakdown
    [expense "U1" (of_Z 100) [share "U1" (of_Z 50); share "U2" (of_Z 50)]] "U1")
  <> round2 (total (shares_owed_to_others
    [expense "U1" (of_Z 100) [share "U1" (of_Z 50); share "U2" (of_Z 50)]] "U1")).
Proof. evaluate. Qed.

(** The scenarios of the specification. *)
Example scenario_balances :
  calculateBalances
    [expense "U1" (of_Z 100) [share "U1" (of_Z 50); share "U2" (of_Z 50)]]
    ["U1"; "U2"]
  = {[ "U1" := of_Z 50; "U2" := of_Z (-50) ]}.
Proof. vm_compute; reflexivity. Qed.

Example scenario_breakdown :
  getSettlementBreakdown
    [expense "U1" (of_Z 100) [share "U1" (of_Z 50); share "U2" (of_Z 50)]] "U2"
  = {| totalOwed := of_Z 50; totalPaid := zero; getBack := zero;
       youGive := [share "U1" (of_Z 50)]; youGet := [] |}.
Proof. vm_compute; reflexivity. Qed.

(** ** Balances: the keys *)

Lemma put_proto (b : Balances) (v : number) : put b "__proto__" v = b.
Proof. reflexivity. Qed.

Lemma put_insert (b : Balances) (k : string) (v : number) :
  k <> "__proto__" -> put b k v = <[k := v]> b.
Proof. intros Hk. unfold put. apply String.eqb_neq in Hk. now rewrite Hk. Qed.







Example non_member_keys :
  dom (calculateBalances
         [expense "guest" (of_Z 30) [share "U1" (of_Z 10); share "visitor" (of_Z 20)]]
         ["U1"; "U2"])
  = {[ "U1"; "U2"; "guest"; "visitor" ]}.
Proof. vm_compute. reflexivity. Qed.

(** * Binary64 arithmetic

    The error of one rounded operation, from the definitions of
    [SpecFloat]: a result in the normal range is within a relative [2^-53]
    of the exact value. *)

(** ** Powers of two *)

Lemma pow2_pos e : (0 < pow2 e)%R.
Proof. apply powerRZ_lt. lra. Qed.

Lemma pow2_add a b : pow2 (a + b) = (pow2 a * pow2 b)%R.
Proof. apply powerRZ_add. lra. Qed.

Lemma pow2_IZR e : 0 <= e -> pow2 e = IZR (2 ^ e).
Proof.
  intros He. unfold pow2. rewrite <- (Z2Nat.id e) by assumption.
  rewrite <- pow_powerRZ. rewrite <- Zpower_nat_Z.
  induction (Z.to_nat e) as [|n IH].
  - reflexivity.
  - rewrite Zpower_nat_succ_r, mult_IZR, <- IH. simpl. reflexivity.
Qed.

Lemma pow2_1 : pow2 1 = 2%R.
Proof. now rewrite pow2_IZR by lia. Qed.

Lemma pow2_0 : pow2 0 = 1%R.
Proof. reflexivity. Qed.

Lemma pow2_m1 : pow2 (-1) = (/ 2)%R.
Proof.
  pose proof (pow2_add (-1) 1) as H. rewrite pow2_1 in H.
  change (pow2 (-1 + 1)) with 1%R in H. lra.
Qed.

Lemma pow2_opp (k : Z) : pow2 (- k) = (/ pow2 k)%R.
Proof.
  pose proof (pow2_add (- k) k) as H. replace (- k + k) with 0 in H by lia.
  rewrite pow2_0 in H. pose proof (pow2_pos k).
  apply (Rmult_eq_reg_r (pow2 k)); [|lra]. rewrite Rinv_l by lra. lra.
Qed.

Lemma pow2_div a b : (pow2 a / pow2 b)%R = pow2 (a - b).
Proof.
  replace a with ((a - b) + b) at 1 by lia. rewrite pow2_add.
  pose proof (pow2_pos b). field. lra.
Qed.

Lemma pow2_le a b : a <= b -> (pow2 a <= pow2 b)%R.
Proof.
  intros H. replace b with (a + (b - a)) by lia. rewrite pow2_add.
  rewrite (pow2_IZR (b - a)) by lia.
  assert (1 <= 2 ^ (b - a)) by (apply Z.lt_pred_le, Z.pow_pos_nonneg; lia).
  apply IZR_le in H0. pose proof (pow2_pos a). nra.
Qed.

Lemma pow2_lt_inv a b : (pow2 a < pow2 b)%R -> a < b.
Proof.
  intros H. destruct (Z_lt_le_dec a b) as [|Hle]; [assumption|].
  apply pow2_le in Hle. lra.
Qed.

(** ** The digits of a mantissa *)

Lemma digits2_bounds (m : positive) :
  2 ^ (Z.pos (digits2_pos m) - 1) <= Z.pos m < 2 ^ Z.pos (digits2_pos m).
Proof.
  induction m as [p IH|p IH|]; cbn [digits2_pos].
  - rewrite Pos2Z.inj_succ.
    replace (Z.succ (Z.pos (digits2_pos p)) - 1)
      with (Z.succ (Z.pos (digits2_pos p) - 1)) by lia.
    rewrite !Z.pow_succ_r by lia. lia.
  - rewrite Pos2Z.inj_succ.
    replace (Z.succ (Z.pos (digits2_pos p)) - 1)
      with (Z.succ (Z.pos (digits2_pos p) - 1)) by lia.
    rewrite !Z.pow_succ_r by lia. lia.
  - cbn. lia.
Qed.

Lemma digits2_unique (m : positive) (d : Z) :
  2 ^ (d - 1) <= Z.pos m < 2 ^ d -> Z.pos (digits2_pos m) = d.
Proof.
  intros [Hlo Hhi]. pose proof (digits2_bounds m) as [Hlo' Hhi'].
  assert (0 < d).
  { destruct (Z.lt_trichotomy d 0) as [Hd|[Hd|Hd]]; [|subst; cbn in Hhi; lia|lia].
    rewrite Z.pow_neg_r in Hhi by lia. lia. }
  destruct (Z.lt_trichotomy (Z.pos (digits2_pos m)) d) as [Hd|[Hd|Hd]];
    [|assumption|].
  - assert (2 ^ Z.pos (digits2_pos m) <= 2 ^ (d - 1))
      by (apply Z.pow_le_mono_r; lia). lia.
  - assert (2 ^ d <= 2 ^ (Z.pos (digits2_pos m) - 1))
      by (apply Z.pow_le_mono_r; lia). lia.
Qed.

Lemma digits2_ge (m : positive) (k : Z) :
  2 ^ (k - 1) <= Z.pos m -> k <= Z.pos (digits2_pos m).
Proof.
  intros H. pose proof (digits2_bounds m) as [_ Hhi].
  destruct (Z_le_gt_dec k (Z.pos (digits2_pos m))) as [|Hgt]; [assumption|].
  assert (2 ^ Z.pos (digits2_pos m) <= 2 ^ (k - 1))
    by (apply Z.pow_le_mono_r; lia). lia.
Qed.

(** The position of the leading digit, from the size of the value. *)
Lemma digits2_range (m : positive) (e lo hi : Z) :
  (pow2 lo <= IZR (Z.pos m) * pow2 e < pow2 hi)%R ->
  lo < Z.pos (digits2_pos m) + e <= hi.
Proof.
  intros [Hlo Hhi]. pose proof (digits2_bounds m) as [Hm1 Hm2].
  set (d := Z.pos (digits2_pos m)) in *.
  pose proof (pow2_pos e) as Hp.
  apply IZR_le in Hm1. apply IZR_lt in Hm2.
  rewrite <- pow2_IZR in Hm1, Hm2 by lia.
  assert (H1 : (pow2 (d - 1 + e) <= IZR (Z.pos m) * pow2 e)%R)
    by (rewrite pow2_add; nra).
  assert (H2 : (IZR (Z.pos m) * pow2 e < pow2 (d + e))%R)
    by (rewrite pow2_add; nra).
  assert (lo < d + e) by (apply pow2_lt_inv; lra).
  assert (d - 1 + e < hi) by (apply pow2_lt_inv; lra).
  lia.
Qed.

(** ** Signs and values *)

Lemma val_finite (s : bool) (m : positive) (e : Z) :
  val (S754_finite s m e) = (sgn s * (IZR (Z.pos m) * pow2 e))%R.
Proof.
  destruct s; cbn [val signed sgn]; [|ring].
  change (Z.neg m) with (- Z.pos m). rewrite opp_IZR. ring.
Qed.

Lemma sgn_xorb (a b : bool) : sgn (xorb a b) = (sgn a * sgn b)%R.
Proof. destruct a, b; cbn; ring. Qed.

Lemma Rabs_sgn (s : bool) (a : R) : Rabs (sgn s * a) = Rabs a.
Proof. destruct s; cbn; [|f_equal; ring].
  replace (-1 * a)%R with (- a)%R by ring. apply Rabs_Ropp. Qed.

Lemma mag_pos (m : positive) (e : Z) : (0 < IZR (Z.pos m) * pow2 e)%R.
Proof.
  apply Rmult_lt_0_compat; [apply (IZR_lt 0), Pos2Z.is_pos|apply pow2_pos].
Qed.

Lemma val_opp (x : number) : val (SFopp x) = (- val x)%R.
Proof.
  destruct x as [| | |s m e]; cbn [SFopp]; rewrite ?val_finite;
    cbn [val]; try ring.
  destruct s; cbn [negb sgn]; ring.
Qed.

Lemma canonical_finite (x : number) :
  canonical x -> exists s m e, x = S754_finite s m e.
Proof. destruct x; try contradiction. eauto. Qed.

Lemma IZR_cond_Zopp (s : bool) (m : positive) :
  IZR (cond_Zopp s (Z.pos m)) = (sgn s * IZR (Z.pos m))%R.
Proof.
  destruct s; cbn [cond_Zopp sgn]; [|ring]. rewrite opp_IZR. ring.
Qed.

Lemma Rabs_interval (a b : R) : (Rabs a <= b)%R -> (- b <= a <= b)%R.
Proof. unfold Rabs. destruct (Rcase_abs a); lra. Qed.

Lemma Rabs_IZR_nonzero (n : Z) : n <> 0 -> (1 <= Rabs (IZR n))%R.
Proof. intros Hn. rewrite <- abs_IZR. apply (IZR_le 1). lia. Qed.

Lemma Rabs_IZR_le (n B : Z) : Z.abs n <= B -> (Rabs (IZR n) <= IZR B)%R.
Proof. intros Hn. rewrite <- abs_IZR. now apply IZR_le. Qed.

(** ** Shifting a mantissa to the right

    [shr] keeps, besides the shifted mantissa, where the exact value lies
    between it and its successor. *)

Lemma IZR_xO p : IZR (Z.pos p~0) = (2 * IZR (Z.pos p))%R.
Proof. rewrite Pos2Z.inj_xO, mult_IZR. reflexivity. Qed.

Lemma IZR_xI p : IZR (Z.pos p~1) = (2 * IZR (Z.pos p) + 1)%R.
Proof. rewrite Pos2Z.inj_xI, plus_IZR, mult_IZR. reflexivity. Qed.

(** One step of the shift halves the value and keeps its position. *)
Lemma shr_1_ok (mrs : shr_record) (x : R) :
  shr_ok mrs x -> shr_ok (shr_1 mrs) (x / 2).
Proof.
  destruct mrs as [m r s]. unfold shr_ok. cbn [shr_m]. intros [Hm Hx].
  destruct m as [|[p|p|]|p]; [| | | |lia]; destruct r, s;
    cbn [shr_1 loc_of_shr_record shr_m loc_ok orb] in Hx |- *;
    (split; [lia|]);
    try rewrite (IZR_xO p) in Hx; try rewrite (IZR_xI p) in Hx; lra.
Qed.

Lemma iter_shr_1_ok (n : positive) :
  forall mrs x, shr_ok mrs x ->
  shr_ok (SpecFloat.iter_pos shr_1 n mrs) (x / pow2 (Z.pos n)).
Proof.
  induction n as [n IH|n IH|]; intros mrs x H; cbn [SpecFloat.iter_pos].
  - replace (x / pow2 (Z.pos n~1))%R
      with (x / 2 / pow2 (Z.pos n) / pow2 (Z.pos n))%R.
    + apply IH, IH, shr_1_ok, H.
    + rewrite Pos2Z.inj_xI.
      replace (2 * Z.pos n + 1) with (1 + Z.pos n + Z.pos n) by lia.
      rewrite !pow2_add. pose proof (pow2_pos (Z.pos n)).
      rewrite pow2_1. field. lra.
  - replace (x / pow2 (Z.pos n~0))%R
      with (x / pow2 (Z.pos n) / pow2 (Z.pos n))%R.
    + apply IH, IH, H.
    + rewrite Pos2Z.inj_xO.
      replace (2 * Z.pos n) with (Z.pos n + Z.pos n) by lia.
      rewrite !pow2_add. pose proof (pow2_pos (Z.pos n)). field. lra.
  - rewrite pow2_1. apply shr_1_ok, H.
Qed.

Lemma shr_record_of_loc_ok (m : Z) (l : location) (x : R) :
  0 <= m -> loc_ok l m x -> shr_ok (shr_record_of_loc m l) x.
Proof.
  intros Hm Hl. split; destruct l as [|[]]; cbn; assumption.
Qed.

Lemma shr_spec (mrs : shr_record) (e n : Z) (x : R) :
  0 <= n -> shr_ok mrs x ->
  shr_ok (fst (shr mrs e n)) (x / pow2 n) /\ snd (shr mrs e n) = e + n.
Proof.
  intros Hn H. destruct n as [|p|p]; [| |lia]; cbn [shr fst snd].
  - rewrite pow2_0. split; [|lia]. now replace (x / 1)%R with x by field.
  - split; [|reflexivity]. now apply iter_shr_1_ok.
Qed.

Lemma loc_ok_bounds (l : location) (m : Z) (x : R) :
  loc_ok l m x -> (IZR m <= x < IZR m + 1)%R.
Proof. destruct l as [|[]]; cbn; lra. Qed.

(** Rounding to nearest, ties to even, from the position of the value:
    the mantissa or its successor, at most one half away. *)
Lemma round_nearest_even_spec (m : Z) (l : location) (x : R) :
  loc_ok l m x ->
  (round_nearest_even m l = m \/ round_nearest_even m l = m + 1) /\
  (Rabs (IZR (round_nearest_even m l) - x) <= / 2)%R.
Proof.
  intros H. destruct l as [|[]]; cbn [round_nearest_even loc_ok] in *.
  - split; [now left|]. subst x. rewrite Rminus_diag, Rabs_R0. lra.
  - destruct (Z.even m).
    + split; [now left|]. subst x. apply Rabs_le. lra.
    + split; [now right|]. subst x. rewrite plus_IZR. apply Rabs_le. lra.
  - split; [now left|]. apply Rabs_le. lra.
  - split; [now right|]. rewrite plus_IZR. apply Rabs_le. lra.
Qed.

(** ** Rounding to 53 digits *)

Lemma fexp_normal (k : Z) :
  SpecFloat.emin prec emax + prec <= k -> fexp prec emax k = k - prec.
Proof. unfold fexp. lia. Qed.

(** Rounding a mantissa [mx] of at least 53 digits that stands for the real
    [x * 2^ex], [x] in [[mx, mx+1)]: the result is finite with a mantissa of
    53 digits, the same for both signs, within [2^-53] of the value. *)
Lemma binary_round_aux_spec (mx : positive) (ex : Z) (lx : location) (x : R) :
  loc_ok lx (Z.pos mx) x ->
  prec <= Z.pos (digits2_pos mx) ->
  SpecFloat.emin prec emax + prec <= Z.pos (digits2_pos mx) + ex < emax ->
  exists (m' : positive) (e' : Z),
    (forall sx, binary_round_aux prec emax sx (Z.pos mx) ex lx
                = S754_finite sx m' e') /\
    Z.pos (digits2_pos m') = prec /\
    (Rabs (IZR (Z.pos m') * pow2 e' - x * pow2 ex)
     <= pow2 (- prec) * (x * pow2 ex))%R.
Proof.
  intros Hx Hd Hrange.
  pose proof (digits2_bounds mx) as Hmx.
  set (d := Z.pos (digits2_pos mx)) in *.
  unfold binary_round_aux, shr_fexp. cbn [Zdigits2]. fold d.
  assert (Hfexp : forall k, SpecFloat.emin prec emax + prec <= k ->
                            fexp prec emax k = k - prec).
  { intros k Hk. unfold fexp. lia. }
  rewrite Hfexp by lia.
  replace (d + ex - prec - ex) with (d - prec) by lia.
  destruct (shr_spec (shr_record_of_loc (Z.pos mx) lx) ex (d - prec) x)
    as [[Hm1 Hl1] He1];
    [lia | apply shr_record_of_loc_ok; [lia|assumption] |].
  destruct (shr (shr_record_of_loc (Z.pos mx) lx) ex (d - prec)) as [mrs1 e1].
  cbn [fst snd] in Hm1, Hl1, He1.
  set (m1 := shr_m mrs1) in *. set (l1 := loc_of_shr_record mrs1) in *.
  set (x1 := (x / pow2 (d - prec))%R) in *.
  (* the shifted mantissa has [prec] digits *)
  pose proof (loc_ok_bounds _ _ _ Hx) as Hxb.
  pose proof (loc_ok_bounds _ _ _ Hl1) as Hx1b.
  assert (Hx1 : (pow2 (prec - 1) <= x1 < pow2 prec)%R).
  { unfold x1. pose proof (pow2_pos (d - prec)) as Hp.
    replace (pow2 (prec - 1)) with (pow2 (d - 1) / pow2 (d - prec))%R
     by (rewrite pow2_div; f_equal; lia).
    replace (pow2 prec) with (pow2 d / pow2 (d - prec))%R
     by (rewrite pow2_div; f_equal; lia).
    rewrite (pow2_IZR (d - 1)), (pow2_IZR d) by lia.
    destruct Hmx as [Hlo Hhi]. apply IZR_le in Hlo.
    assert (Z.pos mx + 1 <= 2 ^ d) as Hhi' by lia. apply IZR_le in Hhi'.
    rewrite plus_IZR in Hhi'.
    split.
    - apply Rmult_le_compat_r; [|lra]. left. now apply Rinv_0_lt_compat.
    - apply Rmult_lt_compat_r; [|lra]. now apply Rinv_0_lt_compat. }
  assert (Hm1' : 2 ^ (prec - 1) <= m1 < 2 ^ prec).
  { rewrite (pow2_IZR (prec - 1)), (pow2_IZR prec) in Hx1 by (unfold prec; lia).
    split.
    - apply Z.lt_succ_r, lt_IZR. rewrite succ_IZR. lra.
    - apply lt_IZR. lra. }
  destruct (round_nearest_even_spec m1 l1 x1 Hl1) as [Hm2 Herr].
  set (m2 := round_nearest_even m1 l1) in *.
  assert (Hval : (Rabs (IZR m2 * pow2 e1 - x * pow2 ex)
                  <= pow2 (- prec) * (x * pow2 ex))%R).
  { pose proof (pow2_pos e1) as Hp.
    replace (x * pow2 ex)%R with (x1 * pow2 e1)%R.
    2:{ unfold x1, Rdiv. rewrite He1, pow2_add.
        pose proof (pow2_pos (d - prec)). pose proof (pow2_pos ex).
        field. lra. }
    replace (IZR m2 * pow2 e1 - x1 * pow2 e1)%R
      with ((IZR m2 - x1) * pow2 e1)%R by ring.
    rewrite Rabs_mult, (Rabs_pos_eq (pow2 e1)) by lra.
    assert (Hhalf : (pow2 (- prec) * pow2 (prec - 1) = / 2)%R).
    { rewrite <- pow2_add. replace (- prec + (prec - 1)) with (-1) by lia.
      apply pow2_m1. }
    assert (/ 2 <= pow2 (- prec) * x1)%R.
    { rewrite <- Hhalf. apply Rmult_le_compat_l; [|lra].
      left. apply pow2_pos. }
    pose proof (Rabs_pos (IZR m2 - x1)). nra. }
  assert (He1' : SpecFloat.emin prec emax <= e1 < emax - prec) by lia.
  destruct (Z.eq_dec m2 (2 ^ prec)) as [Hfull|Hfull].
  - (* the rounded mantissa is 2^prec: one more shift *)
    exists (Z.to_pos (2 ^ (prec - 1))), (e1 + 1). rewrite Hfull in *.
    change (Zdigits2 (2 ^ prec)) with (prec + 1).
    rewrite Hfexp by lia.
    replace (prec + 1 + e1 - prec - e1) with 1 by lia.
    cbn [shr]. split; [|split].
    + intros sx. change (shr_m _) with (Z.pos (Z.to_pos (2 ^ (prec - 1)))).
      replace (e1 + 1 <=? emax - prec) with true by (symmetry; lia).
      reflexivity.
    + reflexivity.
    + replace (IZR (Z.pos (Z.to_pos (2 ^ (prec - 1)))) * pow2 (e1 + 1))%R
        with (IZR (2 ^ prec) * pow2 e1)%R; [assumption|].
      rewrite (Z.add_comm e1 1), pow2_add, pow2_1.
      change (Z.pos (Z.to_pos (2 ^ (prec - 1)))) with (2 ^ (prec - 1)).
      change (2 ^ prec) with (2 * 2 ^ (prec - 1)). rewrite mult_IZR. ring.
  - assert (Hm2' : 2 ^ (prec - 1) <= m2 < 2 ^ prec) by lia.
    destruct m2 as [|p|p] eqn:Em2; [unfold prec in Hm2'; lia| |lia].
    exists p, e1. cbn [Zdigits2].
    rewrite (digits2_unique p prec Hm2').
    rewrite Hfexp by lia. replace (prec + e1 - prec - e1) with 0 by lia.
    cbn [shr shr_record_of_loc shr_m]. split; [|split].
    + intros sx. replace (e1 <=? emax - prec) with true by (symmetry; lia).
      reflexivity.
    + reflexivity.
    + assumption.
Qed.

(** A mantissa of 53 digits is left as it is. *)
Lemma binary_round_aux_exact (mx : positive) (ex : Z) :
  Z.pos (digits2_pos mx) = prec ->
  SpecFloat.emin prec emax <= ex <= emax - prec ->
  forall sx,
  binary_round_aux prec emax sx (Z.pos mx) ex loc_Exact = S754_finite sx mx ex.
Proof.
  intros Hd He sx. unfold binary_round_aux, shr_fexp.
  cbn [Zdigits2 round_nearest_even shr_record_of_loc loc_of_shr_record shr_m].
  rewrite Hd, fexp_normal by lia.
  replace (prec + ex - prec - ex) with 0 by lia.
  cbn [shr shr_m loc_of_shr_record round_nearest_even Zdigits2].
  rewrite Hd, fexp_normal by lia.
  replace (prec + ex - prec - ex) with 0 by lia.
  cbn [shr shr_m shr_record_of_loc].
  now replace (ex <=? emax - prec) with true by (symmetry; lia).
Qed.

Lemma binary_round_aux_sign (sx : bool) (mx ex : Z) (lx : location) :
  binary_round_aux prec emax sx mx ex lx =
  match binary_round_aux prec emax false mx ex lx with
  | S754_finite _ m e => S754_finite sx m e
  | S754_zero _ => S754_zero sx
  | S754_infinity _ => S754_infinity sx
  | S754_nan => S754_nan
  end.
Proof.
  unfold binary_round_aux.
  destruct (shr_fexp prec emax mx ex lx) as [mrs' e'].
  destruct (shr_fexp prec emax _ e' loc_Exact) as [mrs'' e''].
  destruct (shr_m mrs''); [reflexivity| |reflexivity].
  now destruct (e'' <=? emax - prec).
Qed.

Lemma SFopp_binary_round_aux (s : bool) (mx ex : Z) (lx : location) :
  SFopp (binary_round_aux prec emax s mx ex lx)
  = binary_round_aux prec emax (negb s) mx ex lx.
Proof.
  rewrite (binary_round_aux_sign s), (binary_round_aux_sign (negb s)).
  now destruct (binary_round_aux prec emax false mx ex lx).
Qed.

(** Aligning shifts the mantissa to the left and keeps the value. *)
Lemma shl_align_spec (mx : positive) (ex ex' : Z) :
  let '(mz, ez) := shl_align mx ex ex' in
  ez = Z.min ex ex' /\
  Z.pos mz = Z.pos mx * 2 ^ (ex - ez) /\
  Z.pos (digits2_pos mz) = Z.pos (digits2_pos mx) + (ex - ez).
Proof.
  unfold shl_align. destruct (ex' - ex) as [|p|p] eqn:E.
  - replace (ex - ex) with 0 by lia. cbn [Z.pow]. lia.
  - replace (ex - ex) with 0 by lia. cbn [Z.pow]. lia.
  - assert (Hmz : Z.pos (Pos.iter xO mx p) = Z.pos mx * 2 ^ Z.pos p).
    { change (Pos.iter xO mx p) with (shift_pos p mx).
      rewrite shift_pos_correct. rewrite Zpower_pos_nat, Zpower_nat_Z.
      rewrite positive_nat_Z. lia. }
    replace (ex - ex') with (Z.pos p) by lia.
    split; [lia|]. split; [assumption|].
    apply digits2_unique. rewrite Hmz.
    pose proof (digits2_bounds mx) as [H1 H2].
    replace (Z.pos (digits2_pos mx) + Z.pos p - 1)
      with (Z.pos (digits2_pos mx) - 1 + Z.pos p) by lia.
    rewrite !Z.pow_add_r by lia.
    assert (0 < 2 ^ Z.pos p) by (apply Z.pow_pos_nonneg; lia). nia.
Qed.

Lemma aligned_value (m : positive) (e e' : Z) :
  e' <= e ->
  (IZR (Z.pos (fst (shl_align m e e'))) * pow2 e' = IZR (Z.pos m) * pow2 e)%R.
Proof.
  intros He. pose proof (shl_align_spec m e e') as H.
  destruct (shl_align m e e') as [mz ez]. destruct H as (Hez & Hmz & _).
  cbn [fst]. rewrite Hmz, Hez, Z.min_r, mult_IZR, <- pow2_IZR by lia.
  rewrite Rmult_assoc, <- pow2_add. do 2 f_equal. lia.
Qed.

(** Rounding an integer mantissa; exact up to 53 digits. *)
Lemma binary_round_spec (mx : positive) (ex : Z) :
  SpecFloat.emin prec emax + prec <= Z.pos (digits2_pos mx) + ex < emax ->
  exists (m' : positive) (e' : Z),
    (forall sx, binary_round prec emax sx mx ex = S754_finite sx m' e') /\
    Z.pos (digits2_pos m') = prec /\
    (Rabs (IZR (Z.pos m') * pow2 e' - IZR (Z.pos mx) * pow2 ex)
     <= pow2 (- prec) * (IZR (Z.pos mx) * pow2 ex))%R /\
    (Z.pos (digits2_pos mx) <= prec ->
     (IZR (Z.pos m') * pow2 e' = IZR (Z.pos mx) * pow2 ex)%R).
Proof.
  intros Hrange. unfold binary_round.
  rewrite fexp_normal by lia.
  pose proof (shl_align_spec mx ex (Z.pos (digits2_pos mx) + ex - prec)) as Hs.
  destruct (shl_align mx ex _) as [mz ez]. destruct Hs as (Hez & Hmz & Hdz).
  assert (Hv : (IZR (Z.pos mz) * pow2 ez = IZR (Z.pos mx) * pow2 ex)%R).
  { rewrite Hmz, mult_IZR, <- pow2_IZR by lia.
    rewrite Rmult_assoc, <- pow2_add. do 2 f_equal. lia. }
  destruct (Z_le_gt_dec (Z.pos (digits2_pos mx)) prec) as [Hle|Hgt].
  - exists mz, ez. rewrite Hv.
    split; [|split; [|split]].
    + apply binary_round_aux_exact; unfold SpecFloat.emin in *; lia.
    + lia.
    + rewrite Rminus_diag, Rabs_R0.
      apply Rmult_le_pos; [left; apply pow2_pos|].
      apply Rmult_le_pos; [apply (IZR_le 0); lia|left; apply pow2_pos].
    + reflexivity.
  - destruct (binary_round_aux_spec mz ez loc_Exact (IZR (Z.pos mz)))
      as (m' & e' & Hr & Hd' & Herr); [reflexivity|lia|lia|].
    exists m', e'. rewrite Hv in Herr.
    split; [assumption|]. split; [assumption|]. split; [assumption|lia].
Qed.

(** From the specification of [binary_round_aux] to [rounds_to]. *)
Lemma rounds_to_intro (s : bool) (m' : positive) (e' : Z) (X : R) :
  Z.pos (digits2_pos m') = prec ->
  (0 < X)%R ->
  (Rabs (IZR (Z.pos m') * pow2 e' - X) <= pow2 (- prec) * X)%R ->
  rounds_to (S754_finite s m' e') (sgn s * X).
Proof.
  intros Hd HX Herr. split; [assumption|].
  rewrite val_finite, Rabs_sgn, (Rabs_pos_eq X) by lra.
  replace (sgn s * (IZR (Z.pos m') * pow2 e') - sgn s * X)%R
    with (sgn s * (IZR (Z.pos m') * pow2 e' - X))%R by ring.
  now rewrite Rabs_sgn.
Qed.

Lemma binary_normalize_spec (z e : Z) :
  (z = 0 -> binary_normalize prec emax z e false = zero) /\
  (z <> 0 -> in_range (IZR z * pow2 e) ->
   rounds_to (binary_normalize prec emax z e false) (IZR z * pow2 e)).
Proof.
  split; [now intros ->|]. intros Hz Hr.
  assert (H : forall (s : bool) (m : positive),
            in_range (sgn s * (IZR (Z.pos m) * pow2 e)) ->
            rounds_to (binary_round prec emax s m e)
                      (sgn s * (IZR (Z.pos m) * pow2 e))).
  { intros s m Hm. unfold in_range in Hm.
    pose proof (mag_pos m e) as Hpos.
    rewrite Rabs_sgn, Rabs_pos_eq in Hm by lra.
    destruct (binary_round_spec m e) as (m' & e' & Heq & Hd & Herr & _).
    - apply digits2_range in Hm. unfold SpecFloat.emin, emax, prec. lia.
    - rewrite Heq. now apply rounds_to_intro. }
  destruct z as [|m|m]; [congruence| |]; cbn [binary_normalize].
  - specialize (H false m). cbn [sgn] in H. rewrite !Rmult_1_l in H.
    now apply H.
  - specialize (H true m). cbn [sgn] in H.
    change (Z.neg m) with (- Z.pos m) in *. rewrite opp_IZR in *.
    replace (- IZR (Z.pos m) * pow2 e)%R
      with (-1 * (IZR (Z.pos m) * pow2 e))%R in * by ring.
    now apply H.
Qed.

(** ** The operations *)

Lemma of_Z_spec (n : Z) :
  n <> 0 -> Z.abs n < 2 ^ prec ->
  canonical (of_Z n) /\ val (of_Z n) = IZR n.
Proof.
  intros Hn Hb. unfold of_Z, binary_normalize.
  assert (Hrange : forall p, Z.pos p < 2 ^ prec ->
            SpecFloat.emin prec emax + prec <= Z.pos (digits2_pos p) + 0 < emax
            /\ Z.pos (digits2_pos p) <= prec).
  { intros p Hp. pose proof (digits2_bounds p) as [H1 H2].
    assert (Z.pos (digits2_pos p) <= prec).
    { destruct (Z_le_gt_dec (Z.pos (digits2_pos p)) prec); [assumption|].
      assert (2 ^ prec <= 2 ^ (Z.pos (digits2_pos p) - 1))
        by (apply Z.pow_le_mono_r; lia). lia. }
    unfold SpecFloat.emin, emax, prec in *. lia. }
  destruct n as [|p|p]; [congruence| |].
  - destruct (Hrange p ltac:(lia)) as [Hr Hd].
    destruct (binary_round_spec p 0 Hr) as (m' & e' & Heq & Hd' & _ & Hex).
    rewrite Heq. cbn [canonical val signed]. split; [assumption|].
    rewrite (Hex Hd), pow2_0. ring.
  - destruct (Hrange p ltac:(lia)) as [Hr Hd].
    destruct (binary_round_spec p 0 Hr) as (m' & e' & Heq & Hd' & _ & Hex).
    rewrite Heq. cbn [canonical val signed]. split; [assumption|].
    change (Z.neg m') with (- Z.pos m'). change (Z.neg p) with (- Z.pos p).
    rewrite !opp_IZR, Ropp_mult_distr_l_reverse, (Hex Hd), pow2_0. ring.
Qed.

Lemma of_Z_opp (n : Z) : n <> 0 -> of_Z (- n) = SFopp (of_Z n).
Proof.
  intros Hn.
  destruct n as [|m|m];
    [congruence
    |change (of_Z (Z.neg m) = SFopp (of_Z (Z.pos m)))
    |change (of_Z (Z.pos m) = SFopp (of_Z (Z.neg m)))];
    unfold of_Z, binary_normalize, binary_round;
    destruct (shl_align m 0 _) as [mz ez];
    now rewrite SFopp_binary_round_aux.
Qed.

(** A product with a canonical number. *)
Lemma fmul_spec (x y : number) (sx : bool) (mx : positive) (ex : Z) :
  x = S754_finite sx mx ex -> canonical y ->
  in_range (val x * val y) ->
  rounds_to (fmul x y) (val x * val y).
Proof.
  intros -> Hy Hr. destruct y as [| | |sy my ey]; try contradiction.
  cbn [canonical] in Hy. unfold in_range in Hr.
  rewrite !val_finite in *.
  set (X := (IZR (Z.pos mx) * pow2 ex * (IZR (Z.pos my) * pow2 ey))%R) in *.
  assert (HX : (0 < X)%R)
    by (apply Rmult_lt_0_compat; apply mag_pos).
  replace (sgn sx * (IZR (Z.pos mx) * pow2 ex) *
           (sgn sy * (IZR (Z.pos my) * pow2 ey)))%R
    with (sgn (xorb sx sy) * X)%R in * by (rewrite sgn_xorb; unfold X; ring).
  rewrite Rabs_sgn, (Rabs_pos_eq X) in Hr by lra.
  assert (HXe : X = (IZR (Z.pos (mx * my)) * pow2 (ex + ey))%R).
  { unfold X. rewrite Pos2Z.inj_mul, mult_IZR, pow2_add. ring. }
  unfold fmul. cbn [SFmul].
  destruct (binary_round_aux_spec (mx * my) (ex + ey) loc_Exact
              (IZR (Z.pos (mx * my)))) as (m' & e' & Heq & Hd & Herr).
  - reflexivity.
  - apply digits2_ge. rewrite Pos2Z.inj_mul.
    pose proof (digits2_bounds my) as [Hlo _]. rewrite Hy in Hlo. nia.
  - rewrite HXe in Hr. apply digits2_range in Hr.
    unfold SpecFloat.emin, emax, prec. lia.
  - rewrite Heq. apply rounds_to_intro; [assumption|assumption|].
    now rewrite HXe.
Qed.

(** The position of a quotient from its remainder. *)
Lemma new_location_ok (nb q r : Z) :
  0 < nb -> 0 <= r < nb ->
  loc_ok (new_location nb r) q (IZR q + IZR r / IZR nb)%R.
Proof.
  intros Hnb Hr.
  assert (Hnb' : (0 < IZR nb)%R) by (apply (IZR_lt 0); lia).
  assert (Hr0 : (0 <= IZR r)%R) by (apply (IZR_le 0); lia).
  assert (Hhalf : forall c, (2 * r ?= nb) = c ->
            match c with
            | Lt => (IZR r / IZR nb < / 2)%R
            | Eq => (IZR r / IZR nb = / 2)%R
            | Gt => (/ 2 < IZR r / IZR nb)%R
            end).
  { intros c Hc. destruct c.
    - apply Z.compare_eq in Hc. rewrite <- Hc, mult_IZR. field.
      rewrite <- Hc, mult_IZR in Hnb'. lra.
    - apply Z.compare_lt_iff, IZR_lt in Hc. rewrite mult_IZR in Hc.
      apply (Rmult_lt_reg_r (IZR nb)); [assumption|].
      unfold Rdiv. rewrite Rmult_assoc, Rinv_l by lra. lra.
    - apply Z.compare_gt_iff, IZR_lt in Hc. rewrite mult_IZR in Hc.
      apply (Rmult_lt_reg_r (IZR nb)); [assumption|].
      unfold Rdiv. rewrite Rmult_assoc, Rinv_l by lra. lra. }
  assert (Hpos : r <> 0 -> (0 < IZR r / IZR nb < 1)%R).
  { intros Hne. assert (0 < IZR r)%R by (apply (IZR_lt 0); lia).
    assert (IZR r < IZR nb)%R by (apply IZR_lt; lia).
    split.
    - apply Rdiv_lt_0_compat; assumption.
    - apply (Rmult_lt_reg_r (IZR nb)); [assumption|].
      unfold Rdiv. rewrite Rmult_assoc, Rinv_l by lra. lra. }
  unfold new_location, new_location_even, new_location_odd.
  destruct (Z.even nb) eqn:Heven; destruct (Z.eqb_spec r 0) as [->|Hne].
  - cbn [loc_ok]. unfold Rdiv. rewrite Rmult_0_l. ring.
  - specialize (Hpos Hne). specialize (Hhalf _ eq_refl).
    destruct (2 * r ?= nb); cbn [loc_ok]; lra.
  - cbn [loc_ok]. unfold Rdiv. rewrite Rmult_0_l. ring.
  - specialize (Hpos Hne).
    assert (Hodd : 2 * r <> nb).
    { intros E. rewrite <- E, Z.even_mul in Heven. discriminate. }
    destruct (2 * r + 1 ?= nb) eqn:Hc.
    + apply Z.compare_eq in Hc.
      assert (Hlt : (2 * r ?= nb) = Lt) by (apply Z.compare_lt_iff; lia).
      specialize (Hhalf _ Hlt). cbn [loc_ok] in *. lra.
    + rewrite Z.compare_lt_iff in Hc.
      assert (Hlt : (2 * r ?= nb) = Lt) by (apply Z.compare_lt_iff; lia).
      specialize (Hhalf _ Hlt). cbn [loc_ok] in *. lra.
    + rewrite Z.compare_gt_iff in Hc.
      assert (Hgt : (2 * r ?= nb) = Gt) by (apply Z.compare_gt_iff; lia).
      specialize (Hhalf _ Hgt). cbn [loc_ok] in *. lra.
Qed.

(** A quotient of canonical numbers. *)
Lemma fdiv_spec (x y : number) :
  canonical x -> canonical y -> in_range (val x / val y) ->
  rounds_to (fdiv x y) (val x / val y).
Proof.
  destruct x as [| | |sx mx ex], y as [| | |sy my ey]; try contradiction.
  cbn [canonical]. intros Hx Hy Hr. unfold in_range in Hr.
  rewrite !val_finite in *.
  pose proof (mag_pos mx ex) as HA. pose proof (mag_pos my ey) as HB.
  set (A := (IZR (Z.pos mx) * pow2 ex)%R) in *.
  set (B := (IZR (Z.pos my) * pow2 ey)%R) in *.
  assert (HX : (0 < A / B)%R) by (apply Rdiv_lt_0_compat; assumption).
  replace (sgn sx * A / (sgn sy * B))%R
    with (sgn (xorb sx sy) * (A / B))%R in *
    by (rewrite sgn_xorb; destruct sy; cbn [sgn]; field; lra).
  rewrite Rabs_sgn, (Rabs_pos_eq (A / B)) in Hr by lra.
  (* the size of the operands *)
  pose proof (digits2_bounds mx) as [Hmx1 Hmx2].
  pose proof (digits2_bounds my) as [Hmy1 Hmy2].
  rewrite Hx in Hmx1, Hmx2. rewrite Hy in Hmy1, Hmy2.
  assert (Hmx1' := IZR_le _ _ Hmx1). assert (Hmx2' := IZR_lt _ _ Hmx2).
  assert (Hmy1' := IZR_le _ _ Hmy1). assert (Hmy2' := IZR_lt _ _ Hmy2).
  assert (HAB : (A / B = IZR (Z.pos mx) / IZR (Z.pos my) * pow2 (ex - ey))%R).
  { unfold A, B. rewrite <- pow2_div. pose proof (pow2_pos ey).
    field. split; [lra|]. apply not_0_IZR. lia. }
  set (rho := (IZR (Z.pos mx) / IZR (Z.pos my))%R) in *.
  assert (Hmy0 : (0 < IZR (Z.pos my))%R) by (apply (IZR_lt 0); lia).
  assert (Hrho : (/ 2 < rho < 2)%R).
  { change (2 ^ prec) with (2 * 2 ^ (prec - 1)) in Hmx2', Hmy2'.
    rewrite mult_IZR in Hmx2', Hmy2'. unfold rho. split.
    - apply (Rmult_lt_reg_r (IZR (Z.pos my))); [assumption|].
      unfold Rdiv. rewrite Rmult_assoc, Rinv_l by lra. lra.
    - apply (Rmult_lt_reg_r (IZR (Z.pos my))); [assumption|].
      unfold Rdiv. rewrite Rmult_assoc, Rinv_l by lra. lra. }
  assert (Hk : -1001 < ex - ey < 1001).
  { pose proof (pow2_pos (ex - ey)) as Hp. rewrite HAB in Hr. split.
    - assert (pow2 (-1000) < pow2 (ex - ey + 1))%R
        by (rewrite pow2_add, pow2_1; nra).
      apply pow2_lt_inv in H. lia.
    - assert (pow2 (ex - ey + -1) < pow2 1000)%R
        by (rewrite pow2_add, pow2_m1; nra).
      apply pow2_lt_inv in H. lia. }
  unfold fdiv. cbn [SFdiv]. unfold SFdiv_core_binary. cbn [Zdigits2].
  rewrite Hx, Hy.
  replace (prec + ex - (prec + ey)) with (ex - ey) by lia.
  rewrite fexp_normal by (unfold SpecFloat.emin, emax, prec; lia).
  rewrite Z.min_l by (unfold prec; lia).
  replace (ex - ey - (ex - ey - prec)) with prec by lia.
  change (match prec with Z.pos _ => Z.shiftl (Z.pos mx) prec | _ => _ end)
    with (Z.shiftl (Z.pos mx) prec).
  rewrite Z.shiftl_mul_pow2 by (unfold prec; lia).
  pose proof (Z_div_mod (Z.pos mx * 2 ^ prec) (Z.pos my) ltac:(lia)) as Hdiv.
  destruct (Z.div_eucl (Z.pos mx * 2 ^ prec) (Z.pos my)) as [q r].
  destruct Hdiv as [Hqr Hrb].
  assert (Hq : 2 ^ (prec - 1) <= q).
  { change (2 ^ prec) with (2 * 2 ^ (prec - 1)) in *.
    assert (0 < 2 ^ (prec - 1)) by (unfold prec; lia).
    set (P := 2 ^ (prec - 1)) in *. nia. }
  destruct q as [|qp|qp]; [unfold prec in Hq; lia| |lia].
  set (e' := ex - ey - prec).
  set (x := (IZR (Z.pos qp) + IZR r / IZR (Z.pos my))%R).
  assert (Hxe : (x * pow2 e' = A / B)%R).
  { rewrite HAB. unfold x, rho, e'.
    replace (ex - ey - prec) with ((ex - ey) + - prec) by lia.
    rewrite pow2_add.
    replace (IZR (Z.pos qp) + IZR r / IZR (Z.pos my))%R
      with (IZR (Z.pos my * Z.pos qp + r) / IZR (Z.pos my))%R
      by (rewrite plus_IZR, mult_IZR; field; lra).
    rewrite <- Hqr, mult_IZR, <- pow2_IZR by (unfold prec; lia).
    replace (IZR (Z.pos mx) * pow2 prec / IZR (Z.pos my) *
             (pow2 (ex - ey) * pow2 (- prec)))%R
      with (IZR (Z.pos mx) / IZR (Z.pos my) * pow2 (ex - ey) *
            (pow2 prec * pow2 (- prec)))%R by (field; lra).
    rewrite <- pow2_add. replace (prec + - prec) with 0 by lia.
    rewrite pow2_0. ring. }
  assert (Hloc : loc_ok (new_location (Z.pos my) r) (Z.pos qp) x)
    by (apply new_location_ok; lia).
  destruct (binary_round_aux_spec qp e' _ x Hloc) as (m' & e'' & Heq & Hd & Herr).
  - now apply digits2_ge.
  - pose proof (loc_ok_bounds _ _ _ Hloc) as [Hlo Hhi].
    pose proof (pow2_pos e') as Hp.
    assert (1 <= IZR (Z.pos qp))%R by (apply (IZR_le 1); lia).
    assert (Hrange : (pow2 (-1001) <= IZR (Z.pos qp) * pow2 e' < pow2 1000)%R).
    { split.
      - replace (-1001) with (-1000 + -1) by lia. rewrite pow2_add, pow2_m1.
        nra.
      - nra. }
    apply digits2_range in Hrange.
    unfold SpecFloat.emin, emax, prec. lia.
  - rewrite Heq. rewrite Hxe in Herr. now apply rounds_to_intro.
Qed.

(** A sum of finite numbers: zero when the exact sum is, rounded otherwise. *)
Lemma fadd_spec (sx : bool) (mx : positive) (ex : Z)
  (sy : bool) (my : positive) (ey : Z) :
  let x := S754_finite sx mx ex in
  let y := S754_finite sy my ey in
  ((val x + val y = 0)%R -> fadd x y = zero) /\
  ((val x + val y <> 0)%R -> in_range (val x + val y) ->
   rounds_to (fadd x y) (val x + val y)).
Proof.
  intros x y. unfold x, y, fadd. cbn [SFadd]. rewrite !val_finite.
  set (ez := Z.min ex ey).
  set (z := cond_Zopp sx (Z.pos (fst (shl_align mx ex ez))) +
            cond_Zopp sy (Z.pos (fst (shl_align my ey ez)))).
  assert (Hz : (IZR z * pow2 ez =
                sgn sx * (IZR (Z.pos mx) * pow2 ex) +
                sgn sy * (IZR (Z.pos my) * pow2 ey))%R).
  { unfold z. rewrite plus_IZR, !IZR_cond_Zopp.
    rewrite <- (aligned_value mx ex ez), <- (aligned_value my ey ez)
      by (unfold ez; lia). ring. }
  rewrite <- Hz. destruct (binary_normalize_spec z ez) as [H0 H1].
  split.
  - intros Hs. apply H0. pose proof (pow2_pos ez).
    apply eq_IZR. apply (Rmult_eq_reg_r (pow2 ez)); lra.
  - intros Hs Hr. apply H1; [|assumption]. intros ->. apply Hs. ring.
Qed.

Lemma fsub_fadd_opp (x y : number) : fsub x y = fadd x (SFopp y).
Proof.
  destruct x as [sx|sx| |sx mx ex], y as [sy|sy| |sy my ey];
    try reflexivity;
    destruct sx, sy; reflexivity.
Qed.

Lemma fadd_opp_self (x : number) :
  canonical x -> fadd x (SFopp x) = zero.
Proof.
  intros Hc. destruct x as [| | |s m e]; try contradiction.
  apply (fadd_spec s m e (negb s) m e).
  change (S754_finite (negb s) m e) with (SFopp (S754_finite s m e)).
  rewrite val_opp. ring.
Qed.

Lemma fadd_zero_r (x : number) (s : bool) :
  canonical x -> fadd x (S754_zero s) = x.
Proof. destruct x; try contradiction. reflexivity. Qed.

Lemma fadd_zero_l (x : number) (s : bool) :
  canonical x -> fadd (S754_zero s) x = x.
Proof. destruct x; try contradiction. reflexivity. Qed.

(** ** Amounts with two decimals *)

Lemma hundred_spec : canonical hundred /\ val hundred = 100%R.
Proof. apply (of_Z_spec 100); [lia|unfold prec; lia]. Qed.

Lemma hundred_eq : hundred = S754_finite false 7036874417766400 (-46).
Proof. reflexivity. Qed.

(** Numbers of the size of an amount of money are well inside the range. *)
Lemma money_in_range (v : R) :
  (/ 128 <= Rabs v <= IZR (2 ^ 60))%R -> in_range v.
Proof.
  intros [Hlo Hhi]. unfold in_range.
  assert (pow2 (-1000) <= pow2 (-7))%R by (apply pow2_le; lia).
  assert (pow2 60 <= pow2 999)%R by (apply pow2_le; lia).
  assert (pow2 999 < pow2 1000)%R.
  { replace 1000 with (999 + 1) by lia. rewrite pow2_add, pow2_1.
    pose proof (pow2_pos 999). lra. }
  change (pow2 (-7)) with (pow2 (Z.opp 7)) in H.
  rewrite (pow2_opp 7), (pow2_IZR 7) in H by lia.
  rewrite (pow2_IZR 60) in H0 by lia.
  change (2 ^ 7) with 128 in H. lra.
Qed.

(** The size of the relative error, as a number. *)
Lemma unit_roundoff : pow2 (- prec) = (/ IZR (2 ^ 53))%R.
Proof. rewrite pow2_opp, pow2_IZR by (unfold prec; lia). reflexivity. Qed.

Lemma dec_spec (n : Z) :
  n <> 0 -> Z.abs n <= 2 ^ 52 ->
  rounds_to (dec n) (IZR n / 100).
Proof.
  intros Hn Hb.
  destruct (of_Z_spec n Hn) as [Hc Hv]; [unfold prec; lia|].
  destruct hundred_spec as [Hc' Hv'].
  unfold dec. rewrite <- Hv, <- Hv'. apply fdiv_spec; [assumption..|].
  rewrite Hv, Hv'. apply money_in_range.
  assert (1 <= Z.abs n) by lia. apply IZR_le in H. apply IZR_le in Hb.
  rewrite abs_IZR in *. unfold Rdiv. rewrite Rabs_mult.
  rewrite (Rabs_pos_eq (/ 100)) by lra.
  change (2 ^ 60) with (2 ^ 52 * 256). rewrite mult_IZR.
  assert (0 < IZR (2 ^ 52))%R by (apply (IZR_lt 0); lia).
  split; lra.
Qed.

Lemma dec_near (n : Z) :
  n <> 0 -> Z.abs n <= 2 ^ 50 ->
  canonical (dec n) /\
  (Rabs (val (dec n) * 100 - IZR n) <= / IZR (2 ^ 53) * Rabs (IZR n))%R.
Proof.
  intros Hn Hb. destruct (dec_spec n Hn ltac:(lia)) as [Hc Herr].
  split; [assumption|]. rewrite unit_roundoff in Herr.
  replace (val (dec n) * 100 - IZR n)%R
    with ((val (dec n) - IZR n / 100) * 100)%R by field.
  rewrite Rabs_mult, (Rabs_pos_eq 100) by lra.
  unfold Rdiv in Herr. rewrite (Rabs_mult (IZR n)) in Herr.
  rewrite (Rabs_pos_eq (/ 100)) in Herr by lra.
  assert (0 < / IZR (2 ^ 53))%R
    by (apply Rinv_0_lt_compat, (IZR_lt 0); lia).
  pose proof (Rabs_pos (IZR n)). nra.
Qed.

Lemma dec_canonical (n : Z) :
  n <> 0 -> Z.abs n <= 2 ^ 50 -> canonical (dec n).
Proof. intros Hn Hb. apply (dec_near n Hn Hb). Qed.

Lemma dec_opp (n : Z) :
  n <> 0 -> Z.abs n < 2 ^ prec -> dec (- n) = SFopp (dec n).
Proof.
  intros Hn Hb. unfold dec. rewrite of_Z_opp by assumption.
  destruct (of_Z_spec n Hn Hb) as [Hc _].
  destruct (of_Z n) as [| | |s m e]; try contradiction.
  rewrite hundred_eq. unfold fdiv. cbn [SFopp SFdiv].
  destruct (SFdiv_core_binary _ _ _ _ _ _) as [[mz ez] lz].
  rewrite SFopp_binary_round_aux. now destruct s.
Qed.

Lemma nearest_unique (n N v P : Z) :
  0 < P ->
  (2 * n - 1) * P <= 2 * v < (2 * n + 1) * P ->
  (2 * N - 1) * P < 2 * v < (2 * N + 1) * P ->
  n = N.
Proof. intros HP H1 H2. nia. Qed.

(** A number within a quarter of a cent of [N] cents scales to a number that
    [Math.round] takes to [N]. *)
Lemma cents_near (x : number) (sx : bool) (mx : positive) (ex : Z) (N : Z) :
  x = S754_finite sx mx ex ->
  (Rabs (val x * 100 - IZR N) <= / 4)%R ->
  N <> 0 -> Z.abs N <= 2 ^ 50 ->
  exists s m k,
    fmul x hundred = S754_finite s m (Z.neg k) /\
    Z.shiftr (signed s m + Z.shiftl 1 (Z.pos k - 1)) (Z.pos k) = N.
Proof.
  intros Ex Hnear HN HB.
  destruct hundred_spec as [Hc Hv].
  assert (HN1 : (1 <= Rabs (IZR N) <= IZR (2 ^ 50))%R).
  { rewrite <- abs_IZR. split; apply IZR_le; lia. }
  set (v := (val x * 100)%R) in *.
  assert (Hvb : (3 / 4 <= Rabs v <= IZR (2 ^ 50) + / 4)%R).
  { pose proof (Rabs_triang_inv v (IZR N)).
    pose proof (Rabs_triang (v - IZR N) (IZR N)).
    replace (v - IZR N + IZR N)%R with v in * by ring.
    rewrite <- (Rabs_Ropp (v - IZR N)), Ropp_minus_distr in Hnear.
    pose proof (Rabs_triang_inv (IZR N) v).
    rewrite <- (Rabs_Ropp (v - IZR N)), Ropp_minus_distr in H0. lra. }
  assert (H50 : (0 < IZR (2 ^ 50))%R) by (apply (IZR_lt 0); lia).
  destruct (fmul_spec x hundred sx mx ex Ex Hc) as [Hcp Herr].
  { rewrite Hv. fold v. apply money_in_range.
    change (2 ^ 60) with (2 ^ 50 * 1024). rewrite mult_IZR. lra. }
  rewrite Hv in Herr. fold v in Herr.
  destruct (fmul x hundred) as [| | |s m e]; try contradiction.
  cbn [canonical] in Hcp.
  assert (Hp : (Rabs (val (S754_finite s m e) - IZR N) < / 2)%R).
  { replace (val (S754_finite s m e) - IZR N)%R
      with ((val (S754_finite s m e) - v) + (v - IZR N))%R by ring.
    eapply Rle_lt_trans; [apply Rabs_triang|].
    rewrite unit_roundoff in Herr.
    change (2 ^ 53) with (2 ^ 50 * 8) in Herr. rewrite mult_IZR in Herr.
    assert (/ (IZR (2 ^ 50) * 8) * Rabs v <= / 8 + / 8)%R.
    { apply (Rmult_le_reg_l (IZR (2 ^ 50) * 8)); [lra|].
      rewrite <- Rmult_assoc, Rinv_r by lra.
      assert (1 <= IZR (2 ^ 50))%R by (apply (IZR_le 1); lia). nra. }
    lra. }
  pose proof (digits2_bounds m) as [Hm _]. rewrite Hcp in Hm.
  apply IZR_le in Hm.
  rewrite val_finite in Hp.
  assert (Hmag : (IZR (Z.pos m) * pow2 e < IZR (2 ^ 50) + 1)%R).
  { pose proof (Rabs_triang_inv (sgn s * (IZR (Z.pos m) * pow2 e)) (IZR N)).
    rewrite Rabs_sgn, Rabs_pos_eq in H by (left; apply mag_pos). lra. }
  destruct e as [|e|k].
  - exfalso. rewrite pow2_0 in Hmag.
    change (2 ^ (prec - 1)) with (2 ^ 50 * 4) in Hm. rewrite mult_IZR in Hm. lra.
  - exfalso. assert (pow2 0 <= pow2 (Z.pos e))%R by (apply pow2_le; lia).
    rewrite pow2_0 in H.
    change (2 ^ (prec - 1)) with (2 ^ 50 * 4) in Hm. rewrite mult_IZR in Hm.
    nra.
  - exists s, m, k. split; [reflexivity|].
    pose proof (shiftr_nearest (signed s m) (Z.pos k) ltac:(lia)) as Hn.
    cbv zeta in Hn.
    apply (nearest_unique _ N (signed s m) (2 ^ Z.pos k));
      [apply Z.pow_pos_nonneg; lia|assumption|].
    change (Z.neg k) with (- Z.pos k) in Hp.
    rewrite pow2_opp, pow2_IZR in Hp by lia.
    assert (HP : (0 < IZR (2 ^ Z.pos k))%R)
      by (apply (IZR_lt 0), Z.pow_pos_nonneg; lia).
    replace (sgn s * (IZR (Z.pos m) * / IZR (2 ^ Z.pos k)))%R
      with (IZR (signed s m) / IZR (2 ^ Z.pos k))%R in Hp.
    2:{ destruct s; cbn [signed sgn]; [|field; lra].
        change (Z.neg m) with (- Z.pos m). rewrite opp_IZR. field. lra. }
    apply Rabs_def2 in Hp. destruct Hp as [Hp1 Hp2].
    apply (Rmult_lt_compat_r (IZR (2 ^ Z.pos k))) in Hp1, Hp2; try assumption.
    unfold Rdiv in Hp1, Hp2.
    rewrite Rmult_minus_distr_r, Rmult_assoc, Rinv_l in Hp1, Hp2 by lra.
    split; apply lt_IZR;
      rewrite !mult_IZR, ?minus_IZR, ?plus_IZR, !mult_IZR; lra.
Qed.

Lemma round2_near (x : number) (sx : bool) (mx : positive) (ex : Z) (N : Z) :
  x = S754_finite sx mx ex ->
  (Rabs (val x * 100 - IZR N) <= / 4)%R ->
  N <> 0 -> Z.abs N <= 2 ^ 50 ->
  round2 x = dec N /\ cents x = Some N.
Proof.
  intros Ex Hnear HN HB.
  destruct (cents_near x sx mx ex N Ex Hnear HN HB) as (s & m & k & Hp & Hn).
  unfold round2, cents. rewrite Hp. cbn [Math_round]. rewrite Hn.
  destruct (Z.eqb_spec N 0); [contradiction|]. split; reflexivity.
Qed.

Lemma small_share (n B : Z) (c : R) :
  Z.abs n <= B -> (0 <= c)%R -> (c * IZR B <= / 8)%R ->
  (c * Rabs (IZR n) <= / 8)%R.
Proof.
  intros Hn Hc HB. rewrite <- abs_IZR. apply IZR_le in Hn.
  assert (0 <= IZR (Z.abs n))%R by (apply (IZR_le 0); lia). nra.
Qed.

Lemma roundoff_budget : (/ IZR (2 ^ 53) * IZR (2 ^ 50) <= / 8)%R.
Proof.
  change (2 ^ 53) with (2 ^ 50 * 8). rewrite mult_IZR.
  assert (0 < IZR (2 ^ 50))%R by (apply (IZR_lt 0); lia).
  rewrite Rinv_mult, Rmult_comm, <- Rmult_assoc, Rinv_r by lra. lra.
Qed.

(** [round2] leaves a decimal amount as it is. *)
Lemma round2_dec (n : Z) :
  Z.abs n <= 2 ^ 50 -> round2 (dec n) = dec n /\ cents (dec n) = Some n.
Proof.
  intros Hb. destruct (Z.eq_dec n 0) as [->|Hn]; [split; reflexivity|].
  destruct (dec_near n Hn Hb) as [Hc Herr].
  destruct (canonical_finite _ Hc) as (s & m & e & E).
  apply (round2_near _ s m e); [assumption| |assumption|assumption].
  eapply Rle_trans; [exact Herr|].
  pose proof (small_share n (2 ^ 50) (/ IZR (2 ^ 53)) Hb) as H.
  pose proof roundoff_budget.
  assert (0 <= / IZR (2 ^ 53))%R
    by (left; apply Rinv_0_lt_compat, (IZR_lt 0); lia).
  specialize (H H1 H0). lra.
Qed.

(** The sum of two decimal amounts, rounded, is the decimal amount of the
    sum of the cents. *)
Lemma round2_fadd_dec (a b : Z) :
  Z.abs a <= 2 ^ 48 -> Z.abs b <= 2 ^ 48 ->
  round2 (fadd (dec a) (dec b)) = dec (a + b).
Proof.
  intros Ha Hb.
  destruct (Z.eq_dec a 0) as [->|Ha0].
  { destruct (Z.eq_dec b 0) as [->|Hb0]; [reflexivity|].
    change (dec 0) with (S754_zero false).
    rewrite fadd_zero_l by (apply dec_canonical; lia).
    apply round2_dec. lia. }
  destruct (Z.eq_dec b 0) as [->|Hb0].
  { change (dec 0) with (S754_zero false).
    rewrite fadd_zero_r, Z.add_0_r by (apply dec_canonical; lia).
    apply round2_dec. lia. }
  destruct (Z.eq_dec (a + b) 0) as [Hab|Hab].
  { replace b with (- a) by lia.
    rewrite dec_opp by (unfold prec; lia).
    rewrite fadd_opp_self by (apply dec_canonical; lia).
    replace (a + - a) with 0 by lia. reflexivity. }
  destruct (dec_near a Ha0 ltac:(lia)) as [Hca Hea].
  destruct (dec_near b Hb0 ltac:(lia)) as [Hcb Heb].
  destruct (canonical_finite _ Hca) as (sa & ma & ea & Ea).
  destruct (canonical_finite _ Hcb) as (sb & mb & eb & Eb).
  pose proof (fadd_spec sa ma ea sb mb eb) as [_ Hadd]. cbv zeta in Hadd.
  rewrite <- Ea, <- Eb in Hadd.
  (* the sizes, in reals *)
  assert (HU : (0 < / IZR (2 ^ 53))%R)
    by (apply Rinv_0_lt_compat, (IZR_lt 0); lia).
  assert (H48 : (/ IZR (2 ^ 53) * IZR (2 ^ 48) = / 32)%R).
  { change (2 ^ 53) with (2 ^ 48 * 32). rewrite mult_IZR.
    assert (0 < IZR (2 ^ 48))%R by (apply (IZR_lt 0); lia).
    rewrite Rinv_mult. field. lra. }
  assert (Hp48 : (1 <= IZR (2 ^ 48))%R) by (apply (IZR_le 1); lia).
  pose proof (Rabs_IZR_le a _ Ha) as HA. pose proof (Rabs_IZR_le b _ Hb) as HB.
  pose proof (Rabs_IZR_nonzero _ Hab) as HN. rewrite plus_IZR in HN.
  set (U := (/ IZR (2 ^ 53))%R) in *.
  set (X := val (dec a)) in *. set (Y := val (dec b)) in *.
  assert (Hea' : (Rabs (X * 100 - IZR a) <= / 32)%R) by nra.
  assert (Heb' : (Rabs (Y * 100 - IZR b) <= / 32)%R) by nra.
  apply Rabs_interval in Hea', Heb'.
  assert (HS : (Rabs ((X + Y) * 100 - (IZR a + IZR b)) <= / 16)%R)
    by (apply Rabs_le; lra).
  assert (HNb : (Rabs (IZR a + IZR b) <= 2 * IZR (2 ^ 48))%R).
  { eapply Rle_trans; [apply Rabs_triang|]. lra. }
  assert (HSlo : (15 / 16 <= Rabs ((X + Y) * 100))%R).
  { pose proof (Rabs_triang_inv (IZR a + IZR b)
                  ((IZR a + IZR b) - (X + Y) * 100)).
    replace (IZR a + IZR b - (IZR a + IZR b - (X + Y) * 100))%R
      with ((X + Y) * 100)%R in H by ring.
    rewrite <- (Rabs_Ropp (_ - _)), Ropp_minus_distr in H. lra. }
  assert (HShi : (Rabs ((X + Y) * 100) <= 2 * IZR (2 ^ 48) + / 16)%R).
  { pose proof (Rabs_triang ((X + Y) * 100 - (IZR a + IZR b))
                  (IZR a + IZR b)).
    replace ((X + Y) * 100 - (IZR a + IZR b) + (IZR a + IZR b))%R
      with ((X + Y) * 100)%R in H by ring. lra. }
  rewrite Rabs_mult, (Rabs_pos_eq 100) in HSlo, HShi by lra.
  destruct Hadd as [Hcz Hez].
  { intros E. rewrite E, Rabs_R0 in HSlo. lra. }
  { apply money_in_range. change (2 ^ 60) with (2 ^ 48 * 4096).
    rewrite mult_IZR. split; lra. }
  destruct (canonical_finite _ Hcz) as (sz & mz & ez & Ez).
  apply (round2_near _ sz mz ez); [assumption| |assumption|lia].
  rewrite unit_roundoff in Hez. fold U in Hez. rewrite plus_IZR.
  replace (val (fadd (dec a) (dec b)) * 100 - (IZR a + IZR b))%R
    with ((val (fadd (dec a) (dec b)) - (X + Y)) * 100
          + ((X + Y) * 100 - (IZR a + IZR b)))%R by ring.
  eapply Rle_trans; [apply Rabs_triang|].
  rewrite Rabs_mult, (Rabs_pos_eq 100) by lra.
  assert (U * (Rabs (X + Y) * 100) <= / 8)%R by nra.
  nra.
Qed.

(** * The calculator within the budget *)

(** ** One rounded step *)

Lemma round2_shape (x : number) (n : Z) :
  cents x = Some n ->
  (n <> 0 -> round2 x = dec n) /\
  (n = 0 -> exists s, round2 x = S754_zero s).
Proof.
  unfold cents, round2.
  destruct (fmul x hundred) as [s|s| |s m [|e|k]]; try discriminate;
    intros [= <-]; cbn [Math_round].
  - split; [congruence|]. intros _. exists s. now destruct s.
  - destruct (Z.eqb_spec
      (Z.shiftr (signed s m + Z.shiftl 1 (Z.pos k - 1)) (Z.pos k)) 0)
      as [E|E]; (split; [intros H|intros H]); try congruence.
    + exists s. now destruct s.
    + reflexivity.
Qed.

Lemma weight_cents (x : number) (w : Z) :
  weight x <= w -> w <= budget ->
  exists n, cents x = Some n /\ Z.abs n <= w.
Proof.
  unfold weight. destruct (cents x) as [n|]; [eauto|lia].
Qed.

Lemma weight_nonneg (x : number) : 0 <= weight x.
Proof. unfold weight, budget. destruct (cents x); lia. Qed.

Lemma dec_0 : dec 0 = zero.
Proof. reflexivity. Qed.

Lemma fadd_dec_zero (c : Z) (s : bool) :
  Z.abs c <= 2 ^ 50 -> fadd (dec c) (S754_zero s) = dec c.
Proof.
  intros Hc. destruct (Z.eq_dec c 0) as [->|Hc0].
  - rewrite dec_0. now destruct s.
  - apply fadd_zero_r, dec_canonical; assumption.
Qed.

(** A credit: [round2 (balance + round2 x)] on a balance of [c] cents. *)
Lemma credit_exact (c : Z) (x : number) (n : Z) :
  Z.abs c <= budget -> cents x = Some n -> Z.abs n <= budget ->
  round2 (fadd (dec c) (round2 x)) = dec (c + n).
Proof.
  unfold budget. intros Hc Hx Hn.
  destruct (round2_shape x n Hx) as [Hnz Hz].
  destruct (Z.eq_dec n 0) as [->|Hn0].
  - destruct (Hz eq_refl) as [s ->].
    rewrite fadd_dec_zero, Z.add_0_r by lia. apply round2_dec. lia.
  - rewrite (Hnz Hn0). now apply round2_fadd_dec.
Qed.

(** A debit: [round2 (balance - round2 x)]. *)
Lemma debit_exact (c : Z) (x : number) (n : Z) :
  Z.abs c <= budget -> cents x = Some n -> Z.abs n <= budget ->
  round2 (fsub (dec c) (round2 x)) = dec (c - n).
Proof.
  unfold budget. intros Hc Hx Hn. rewrite fsub_fadd_opp.
  destruct (round2_shape x n Hx) as [Hnz Hz].
  destruct (Z.eq_dec n 0) as [->|Hn0].
  - destruct (Hz eq_refl) as [s ->]. cbn [SFopp].
    rewrite fadd_dec_zero, Z.sub_0_r by lia. apply round2_dec. lia.
  - rewrite (Hnz Hn0), <- dec_opp by (unfold prec; lia).
    replace (c - n) with (c + - n) by lia. apply round2_fadd_dec; lia.
Qed.

(** ** The balances are those of the ledger *)

Lemma settle_postings (b : Balances) (e : Expense) :
  settle b e = fold_left book (postings e) b.
Proof.
  unfold settle, postings. destruct (payerId e) as [p|]; [|reflexivity].
  cbn [fold_left book].
  generalize (put b p (round2_plus (get0 b p) (round2 (amount e)))).
  induction (splits e) as [|s ss IH]; intros b'; [reflexivity|].
  cbn [fold_left map]. apply IH.
Qed.

Lemma calculateBalances_postings (es : list Expense) (ms : list string) :
  calculateBalances es ms =
  fold_left book (flat_map postings es)
    (fold_left (fun b id => put b id zero) ms ∅).
Proof.
  unfold calculateBalances.
  generalize (fold_left (fun (b : Balances) id => put b id zero) ms ∅).
  induction es as [|e es IH]; intros b; [reflexivity|].
  cbn [fold_left flat_map]. now rewrite fold_left_app, IH, settle_postings.
Qed.

Lemma lookup_balances_of (ms : list string) (zb : gmap string Z) (k : string) :
  balances_of ms zb !! k = zb !! k ≫= kept ms k.
Proof. apply map_lookup_imap. Qed.

(** An id that reads as in a finite map: it is not the name of a member of
    [Object.prototype], or it is a member id other than [__proto__]. *)
Lemma kept_dec (ms : list string) (k : string) (c : Z) :
  inherited k = false \/ (k ∈ ms /\ k <> "__proto__") ->
  kept ms k c = Some (dec c).
Proof.
  unfold kept. intros [Hk|[Hin Hk]].
  - rewrite Hk. cbn [andb].
    destruct (String.eqb_spec k "__proto__") as [->|_]; [discriminate|].
    reflexivity.
  - apply String.eqb_neq in Hk. rewrite Hk, (bool_decide_eq_true_2 _ Hin).
    now rewrite andb_false_r.
Qed.

Lemma get0_dec (ms : list string) (zb : gmap string Z) (k : string) :
  inherited k = false ->
  get0 (balances_of ms zb) k = Num (dec (default 0 (zb !! k))).
Proof.
  intros Hk. unfold get0. rewrite lookup_balances_of.
  destruct (zb !! k) as [c|]; cbn [mbind option_bind default].
  - rewrite kept_dec by now left. reflexivity.
  - unfold or_zero. now rewrite Hk.
Qed.

Lemma round2_nan_plus (x : number) : round2 (fadd S754_nan x) = S754_nan.
Proof. reflexivity. Qed.

Lemma round2_nan_minus (x : number) : round2 (fsub S754_nan x) = S754_nan.
Proof. now destruct x. Qed.

Lemma bounded_default (zb : gmap string Z) (S : Z) (k : string) :
  0 <= S -> bounded zb S -> Z.abs (default 0 (zb !! k)) <= S.
Proof.
  intros HS Hb. destruct (zb !! k) as [c|] eqn:E; cbn [default].
  - exact (Hb k c E).
  - lia.
Qed.

Lemma bounded_post (zb : gmap string Z) (S : Z) (k : string) (d w : Z) :
  0 <= S -> bounded zb S -> Z.abs d <= w ->
  bounded (post k d zb) (S + w).
Proof.
  intros HS Hb Hd j c. unfold post.
  destruct (decide (k = j)) as [->|Hne].
  - rewrite lookup_insert_eq. intros [= <-].
    pose proof (bounded_default zb S j HS Hb). lia.
  - rewrite lookup_insert_ne by assumption. intros E.
    pose proof (Hb j c E). lia.
Qed.

Lemma seeded_post (ms : list string) (zb : gmap string Z) (k : string) (d : Z) :
  seeded ms zb -> seeded ms (post k d zb).
Proof.
  intros Hs j Hj. unfold post. destruct (decide (k = j)) as [->|Hne].
  - rewrite lookup_insert_eq. eauto.
  - rewrite lookup_insert_ne by assumption. now apply Hs.
Qed.

Lemma book_exact (ms : list string) (zb : gmap string Z) (S : Z) (p : posting) :
  0 <= S -> bounded zb S -> S + weight (snd p) <= budget -> seeded ms zb ->
  book (balances_of ms zb) p = balances_of ms (zbook zb p) /\
  bounded (zbook zb p) (S + weight (snd p)).
Proof.
  intros HS Hb Hw Hms. destruct p as [[credit k] x]. cbn [snd fst] in *.
  destruct (weight_cents x (weight x)) as (n & Hn & Hnw);
    [lia|pose proof (weight_nonneg x); lia|].
  pose proof (bounded_default zb S k HS Hb) as Hc.
  pose proof (weight_nonneg x) as Hw0.
  unfold zbook, delta, cents0, book. cbn [fst snd]. rewrite Hn.
  change (default 0 (Some n)) with n.
  split; [|apply bounded_post; [assumption..|]; destruct credit; lia].
  unfold post. apply map_eq. intros i. rewrite lookup_balances_of.
  destruct (decide (k = "__proto__")) as [->|Hk].
  { rewrite put_proto, lookup_balances_of.
    destruct (decide (i = "__proto__")) as [->|Hi].
    - rewrite lookup_insert_eq. now destruct (zb !! "__proto__").
    - now rewrite lookup_insert_ne by congruence. }
  rewrite put_insert by assumption.
  destruct (decide (k = i)) as [<-|Hi].
  2:{ rewrite !lookup_insert_ne by assumption. apply lookup_balances_of. }
  rewrite !lookup_insert_eq. cbn [mbind option_bind].
  unfold get0. rewrite lookup_balances_of.
  destruct (inherited k && negb (bool_decide (k ∈ ms))) eqn:Ep.
  - (* the name of an inherited member: NaN from the first read on *)
    unfold kept. apply String.eqb_neq in Hk. rewrite Hk, Ep.
    destruct (zb !! k) as [c|]; cbn [mbind option_bind or_zero].
    + destruct credit; cbn [round2_plus round2_minus];
        [apply f_equal, round2_nan_plus|apply f_equal, round2_nan_minus].
    + apply andb_true_iff in Ep as [-> _]. now destruct credit.
  - assert (Hfin : inherited k = false \/ (k ∈ ms /\ k <> "__proto__")).
    { apply andb_false_iff in Ep as [Ep|Ep]; [now left|right].
      apply negb_false_iff, bool_decide_eq_true_1 in Ep. now split. }
    rewrite kept_dec by assumption.
    assert (Ev : or_zero (zb !! k ≫= kept ms k) k
                 = Num (dec (default 0 (zb !! k)))).
    { destruct (zb !! k) as [c|] eqn:Ez; cbn [mbind option_bind default].
      - now rewrite kept_dec.
      - unfold or_zero. destruct Hfin as [->|[Hin _]]; [reflexivity|].
        destruct (Hms k Hin) as [c Hc']. congruence. }
    rewrite Ev. f_equal. destruct credit; cbn [round2_plus round2_minus].
    + apply credit_exact; [lia|assumption|lia].
    + rewrite Z.add_opp_r. apply debit_exact; [lia|assumption|lia].
Qed.

Lemma sumZ_weights_nonneg {A : Type} (f : A -> number) (l : list A) :
  0 <= sumZ (map (fun a => weight (f a)) l).
Proof.
  induction l as [|a l IH]; cbn [map sumZ]; [lia|].
  pose proof (weight_nonneg (f a)). lia.
Qed.

Lemma books_exact (ms : list string) (l : list posting) :
  forall (zb : gmap string Z) (S : Z),
  0 <= S -> bounded zb S ->
  S + sumZ (map (fun p => weight (snd p)) l) <= budget -> seeded ms zb ->
  fold_left book l (balances_of ms zb)
  = balances_of ms (fold_left zbook l zb) /\
  bounded (fold_left zbook l zb) (S + sumZ (map (fun p => weight (snd p)) l)).
Proof.
  induction l as [|p l IH]; intros zb S HS Hb Hw Hms;
    cbn [fold_left map sumZ] in *.
  - split; [reflexivity|]. now rewrite Z.add_0_r.
  - pose proof (weight_nonneg (snd p)).
    pose proof (sumZ_weights_nonneg snd l).
    destruct (book_exact ms zb S p HS Hb) as [Hp Hb']; [lia|assumption|].
    rewrite Hp.
    destruct (IH (zbook zb p) (S + weight (snd p))) as [Hl Hbl];
      [lia|assumption|lia|now apply seeded_post|].
    rewrite Hl. split; [reflexivity|]. now rewrite Z.add_assoc.
Qed.

Lemma sumZ_app (l1 l2 : list Z) : sumZ (l1 ++ l2) = sumZ l1 + sumZ l2.
Proof.
  induction l1 as [|a l1 IH]; cbn [app sumZ]; lia.
Qed.

Lemma sumZ_map_map {A B : Type} (g : A -> B) (f : B -> Z) (l : list A) :
  sumZ (map f (map g l)) = sumZ (map (fun a => f (g a)) l).
Proof. now rewrite map_map. Qed.

Lemma settled_cons (e : Expense) (es : list Expense) :
  settled (e :: es) =
  match payerId e with Some _ => e :: settled es | None => settled es end.
Proof. unfold settled. cbn [List.filter]. now destruct (payerId e). Qed.

Lemma load_cons (e : Expense) (es : list Expense) :
  load (e :: es) = sumZ (map (fun p => weight (snd p)) (postings e)) + load es.
Proof.
  unfold load, postings. rewrite settled_cons.
  destruct (payerId e) as [p|]; cbn [map flat_map sumZ snd]; [|lia].
  rewrite List.map_app, sumZ_app, sumZ_map_map. cbn [snd]. lia.
Qed.

Lemma load_postings (es : list Expense) :
  load es = sumZ (map (fun p => weight (snd p)) (flat_map postings es)).
Proof.
  induction es as [|e es IH]; [reflexivity|].
  rewrite load_cons, IH.
  change (flat_map postings (e :: es))
    with (postings e ++ flat_map postings es)%list.
  now rewrite List.map_app, sumZ_app.
Qed.

(** The accounts the members start with. *)
Lemma lookup_seeds (ms : list string) (k : string) :
  forall zb : gmap string Z,
  fold_left (fun b id => <[id := 0]> b) ms zb !! k
  = if bool_decide (k ∈ ms) then Some 0 else zb !! k.
Proof.
  induction ms as [|m ms IH]; intros zb; cbn [fold_left]; [reflexivity|].
  rewrite IH. destruct (decide (k ∈ ms)) as [Hin|Hout].
  - rewrite !bool_decide_eq_true_2; [reflexivity|set_solver|assumption].
  - rewrite (bool_decide_eq_false_2 _ Hout).
    destruct (decide (k = m)) as [->|Hne].
    + rewrite lookup_insert_eq, bool_decide_eq_true_2 by set_solver.
      reflexivity.
    + rewrite lookup_insert_ne, bool_decide_eq_false_2 by set_solver.
      reflexivity.
Qed.

Lemma lookup_members_put (ms : list string) (k : string) :
  forall b : Balances,
  fold_left (fun b id => put b id zero) ms b !! k
  = if bool_decide (k ∈ ms) && negb (String.eqb k "__proto__")
    then Some zero else b !! k.
Proof.
  induction ms as [|m ms IH]; intros b; cbn [fold_left]; [reflexivity|].
  rewrite IH. destruct (String.eqb_spec k "__proto__") as [Ek|Hk].
  { rewrite !andb_false_r. destruct (decide (m = "__proto__")) as [->|Hm].
    - now rewrite put_proto.
    - rewrite put_insert, lookup_insert_ne by congruence. reflexivity. }
  rewrite !andb_true_r. destruct (decide (k ∈ ms)) as [Hin|Hout].
  - rewrite !bool_decide_eq_true_2; [reflexivity|set_solver|assumption].
  - rewrite (bool_decide_eq_false_2 _ Hout).
    destruct (decide (k = m)) as [->|Hne].
    + rewrite put_insert, lookup_insert_eq, bool_decide_eq_true_2
        by (assumption || set_solver).
      reflexivity.
    + rewrite bool_decide_eq_false_2 by set_solver.
      destruct (decide (m = "__proto__")) as [->|Hm]; [now rewrite put_proto|].
      rewrite put_insert, lookup_insert_ne by congruence. reflexivity.
Qed.

Lemma members_exact (ms : list string) :
  fold_left (fun (b : Balances) id => put b id zero) ms ∅ =
  balances_of ms (fold_left (fun b id => <[id := 0]> b) ms ∅) /\
  bounded (fold_left (fun b id => <[id := 0]> b) ms ∅) 0 /\
  seeded ms (fold_left (fun b id => <[id := 0]> b) ms ∅).
Proof.
  split; [|split].
  - apply map_eq. intros k.
    rewrite lookup_members_put, lookup_balances_of, lookup_seeds, !lookup_empty.
    destruct (decide (k ∈ ms)) as [Hin|Hout].
    + rewrite (bool_decide_eq_true_2 _ Hin). cbn [andb mbind option_bind].
      unfold kept. destruct (String.eqb k "__proto__"); [reflexivity|].
      now rewrite (bool_decide_eq_true_2 _ Hin), andb_false_r.
    + now rewrite (bool_decide_eq_false_2 _ Hout).
  - intros k c. rewrite lookup_seeds, lookup_empty.
    destruct (bool_decide (k ∈ ms)); [|discriminate]. intros [= <-]. lia.
  - intros k Hin. rewrite lookup_seeds, (bool_decide_eq_true_2 _ Hin). eauto.
Qed.

(** Within the budget, the balances are those of the ledger: every balance
    is the double nearest to an integer number of cents, but under the name
    of a member of [Object.prototype] that is not a member id. *)
Lemma calculateBalances_exact (es : list Expense) (ms : list string) :
  load es <= budget ->
  calculateBalances es ms = balances_of ms (ledger es ms) /\
  bounded (ledger es ms) budget.
Proof.
  intros Hl. rewrite calculateBalances_postings. unfold ledger.
  destruct (members_exact ms) as (Hm & Hb & Hs). rewrite Hm.
  rewrite load_postings in Hl.
  destruct (books_exact ms (flat_map postings es) _ 0 ltac:(lia) Hb)
    as [He Hbe]; [lia|assumption|].
  split; [assumption|].
  intros k c E. specialize (Hbe k c E). lia.
Qed.

(** ** The ledger does not depend on the order *)

Lemma post_comm (k1 k2 : string) (d1 d2 : Z) (zb : gmap string Z) :
  post k1 d1 (post k2 d2 zb) = post k2 d2 (post k1 d1 zb).
Proof.
  unfold post. apply map_eq. intros i.
  destruct (decide (k1 = k2)) as [->|Hne].
  - rewrite !lookup_insert_eq. simpl.
    destruct (decide (k2 = i)) as [->|Hi].
    + rewrite !lookup_insert_eq. f_equal. lia.
    + now rewrite !lookup_insert_ne.
  - rewrite (lookup_insert_ne _ k2 k1), (lookup_insert_ne _ k1 k2) by congruence.
    destruct (decide (k1 = i)) as [->|H1]; [|destruct (decide (k2 = i)) as [->|H2]].
    + rewrite lookup_insert_eq, lookup_insert_ne, lookup_insert_eq by congruence.
      reflexivity.
    + rewrite lookup_insert_ne, !lookup_insert_eq by congruence. reflexivity.
    + now rewrite !lookup_insert_ne.
Qed.

Lemma fold_left_permutation {A B : Type} (f : B -> A -> B) (l l' : list A) :
  (forall b x y, f (f b x) y = f (f b y) x) ->
  Permutation l l' -> forall b, fold_left f l b = fold_left f l' b.
Proof.
  intros Hf Hp. induction Hp as [|x l l' _ IH|x y l|l l' l'' _ IH1 _ IH2];
    intros b; cbn [fold_left].
  - reflexivity.
  - apply IH.
  - now rewrite Hf.
  - now rewrite IH1.
Qed.

Lemma sumZ_permutation (l l' : list Z) :
  Permutation l l' -> sumZ l = sumZ l'.
Proof.
  intros Hp. induction Hp as [|x l l' _ IH|x y l|l l' l'' _ IH1 _ IH2];
    cbn [sumZ] in *; lia.
Qed.

Lemma ledger_permutation (es es' : list Expense) (ms : list string) :
  Permutation es es' -> ledger es ms = ledger es' ms.
Proof.
  intros Hp. unfold ledger. apply fold_left_permutation.
  - intros b x y. unfold zbook. apply post_comm.
  - now apply Permutation_flat_map.
Qed.

Lemma load_permutation (es es' : list Expense) :
  Permutation es es' -> load es = load es'.
Proof.
  intros Hp. rewrite !load_postings. apply sumZ_permutation.
  now apply Permutation_map, Permutation_flat_map.
Qed.

(** C9, as the code has it. When the rounded amounts of the expenses and of
    their splits add up to at most 2^48 cents, the balances do not depend on
    the order of the expenses. *)
Theorem calculateBalances_order_independent (es es' : list Expense)
  (ms : list string) :
  Permutation es es' -> load es <= budget ->
  calculateBalances es ms = calculateBalances es' ms.
Proof.
  intros Hp Hl.
  destruct (calculateBalances_exact es ms Hl) as [-> _].
  rewrite (load_permutation es es' Hp) in Hl.
  destruct (calculateBalances_exact es' ms Hl) as [-> _].
  now rewrite (ledger_permutation es es' ms Hp).
Qed.

Lemma calculateBalances_order_independent_witness :
  calculateBalances
    [expense "U1" (of_Z 100) [share "U1" (of_Z 50); share "U2" (of_Z 50)];
     expense "U2" (dec 1000)
       [share "U1" (dec 334); share "U2" (dec 333); share "U3" (dec 333)]]
    ["U1"; "U2"; "U3"]
  = calculateBalances
    [expense "U2" (dec 1000)
       [share "U1" (dec 334); share "U2" (dec 333); share "U3" (dec 333)];
     expense "U1" (of_Z 100) [share "U1" (of_Z 50); share "U2" (of_Z 50)]]
    ["U1"; "U2"; "U3"].
Proof.
  apply calculateBalances_order_independent.
  - apply perm_swap.
  - vm_compute. discriminate.
Defined.

(** C9, as stated, fails. p pays 1e16 for q once and 1 for q twice; each
    expense passes the validator. With the large expense first the two
    small amounts are absorbed one after the other and p ends at 1e16; with
    the large expense last p ends at 1e16 + 2. *)
Lemma calculateBalances_order_counterexample :
  let large := expense "p" (of_Z (10 ^ 16)) [share "q" (of_Z (10 ^ 16))] in
  let small := expense "p" one [share "q" one] in
  Permutation [large; small; small] [small; small; large] /\
  validateExpenseInput (amount large) custom (splits large) = ok /\
  validateExpenseInput (amount small) custom (splits small) = ok /\
  calculateBalances [large; small; small] []
  = {[ "p" := of_Z (10 ^ 16); "q" := of_Z (- 10 ^ 16) ]} /\
  calculateBalances [small; small; large] []
  = {[ "p" := of_Z (10 ^ 16 + 2); "q" := of_Z (- (10 ^ 16 + 2)) ]} /\
  calculateBalances [large; small; small] []
  <> calculateBalances [small; small; large] [].
Proof.
  intros large small.
  split.
  { apply Permutation_sym. eapply perm_trans; [|apply perm_swap].
    apply perm_skip, perm_swap. }
  assert (H1 : calculateBalances [large; small; small] []
               = {[ "p" := of_Z (10 ^ 16); "q" := of_Z (- 10 ^ 16) ]})
    by (vm_compute; reflexivity).
  assert (H2 : calculateBalances [small; small; large] []
               = {[ "p" := of_Z (10 ^ 16 + 2);
                    "q" := of_Z (- (10 ^ 16 + 2)) ]})
    by (vm_compute; reflexivity).
  split; [vm_compute; reflexivity|]. split; [vm_compute; reflexivity|].
  split; [exact H1|]. split; [exact H2|].
  rewrite H1, H2. intros H. apply (f_equal (fun b => b !! "p")) in H.
  vm_compute in H. discriminate.
Qed.

(** ** Conservation *)

Lemma sum_values_fresh (zb : gmap string Z) (k : string) (v : Z) :
  zb !! k = None -> sum_values (<[k := v]> zb) = v + sum_values zb.
Proof.
  intros E. unfold sum_values. apply map_fold_insert_L; [|assumption].
  intros. lia.
Qed.

Lemma sum_values_insert (zb : gmap string Z) (k : string) (v : Z) :
  sum_values (<[k := v]> zb) = sum_values zb - default 0 (zb !! k) + v.
Proof.
  destruct (zb !! k) as [c|] eqn:E; simpl.
  - rewrite <- (insert_delete_id zb k c E) at 2.
    rewrite <- (insert_delete_eq zb k v).
    rewrite !sum_values_fresh by apply lookup_delete_eq. lia.
  - rewrite sum_values_fresh by assumption. lia.
Qed.

Lemma sum_values_post (zb : gmap string Z) (k : string) (d : Z) :
  sum_values (post k d zb) = sum_values zb + d.
Proof. unfold post. rewrite sum_values_insert. lia. Qed.

Lemma sum_values_books (l : list posting) :
  forall zb, sum_values (fold_left zbook l zb)
             = sum_values zb + sumZ (map delta l).
Proof.
  induction l as [|p l IH]; intros zb; cbn [fold_left map sumZ]; [lia|].
  rewrite IH. unfold zbook. rewrite sum_values_post. lia.
Qed.

Lemma bounded_insert_inv (zb : gmap string Z) (k : string) (c S : Z) :
  zb !! k = None -> bounded (<[k := c]> zb) S ->
  Z.abs c <= S /\ bounded zb S.
Proof.
  intros Hk Hb. split.
  - apply (Hb k c), lookup_insert_eq.
  - intros j x Hj. apply (Hb j x).
    rewrite lookup_insert_ne; [assumption|]. intros ->. congruence.
Qed.

Lemma sum_values_zero (zb : gmap string Z) :
  bounded zb 0 -> sum_values zb = 0.
Proof.
  induction zb as [|k c zb Hk IH] using map_ind; intros Hb.
  - apply map_fold_empty.
  - destruct (bounded_insert_inv zb k c 0 Hk Hb) as [Hc Hb'].
    rewrite sum_values_fresh, IH by assumption. lia.
Qed.

Lemma cents0_kept (ms : list string) (k : string) (c : Z) :
  Z.abs c <= budget -> (c <> 0 -> kept ms k c = Some (dec c)) ->
  match kept ms k c with Some v => cents0 v | None => 0 end = c.
Proof.
  intros Hc Hk. destruct (Z.eq_dec c 0) as [->|Hc0].
  - unfold kept.
    now destruct (String.eqb k "__proto__"),
                 (inherited k && negb (bool_decide (k ∈ ms))).
  - rewrite (Hk Hc0). unfold cents0.
    destruct (round2_dec c) as [_ ->]; [unfold budget in Hc; lia|reflexivity].
Qed.

(** The cents of the balances are those of the ledger when the accounts
    that do not read as in a finite map are empty. *)
Lemma total_cents_balances_of (ms : list string) (zb : gmap string Z) :
  bounded zb budget ->
  (forall k c, zb !! k = Some c -> c <> 0 -> kept ms k c = Some (dec c)) ->
  total_cents (balances_of ms zb) = sum_values zb.
Proof.
  unfold total_cents, balances_of.
  induction zb as [|k c zb Hk IH] using map_ind; intros Hb Hfin.
  - unfold sum_values. now rewrite map_imap_empty, !map_fold_empty.
  - destruct (bounded_insert_inv zb k c budget Hk Hb) as [Hc Hb'].
    rewrite sum_values_fresh by assumption.
    assert (IH' : map_fold (fun _ v acc => cents0 v + acc) 0
                    (map_imap (kept ms) zb) = sum_values zb).
    { apply IH; [assumption|]. intros j x Hj. apply Hfin.
      rewrite lookup_insert_ne; [assumption|]. intros ->. congruence. }
    pose proof (cents0_kept ms k c Hc
                  (Hfin k c (lookup_insert_eq zb k c))) as Hv.
    assert (Hnone : map_imap (kept ms) zb !! k = None)
      by (rewrite map_lookup_imap, Hk; reflexivity).
    rewrite map_imap_insert. destruct (kept ms k c) as [v|].
    + rewrite map_fold_insert_L; [|intros; lia|assumption]. lia.
    + rewrite delete_id by assumption. lia.
Qed.

Lemma lookup_zbooks (k : string) (l : list posting) :
  forall zb : gmap string Z,
  default 0 (fold_left zbook l zb !! k) =
  default 0 (zb !! k) + sumZ (map delta (List.filter (posted_to k) l)).
Proof.
  induction l as [|p l IH]; intros zb; cbn [fold_left List.filter map sumZ].
  - lia.
  - rewrite IH. unfold zbook, post, posted_to.
    destruct (String.eqb_spec (snd (fst p)) k) as [->|Hne].
    + rewrite lookup_insert_eq. cbn [map sumZ]. simpl default. lia.
    + now rewrite lookup_insert_ne.
Qed.

Lemma lookup_zero_members (k : string) (ms : list string) :
  forall zb : gmap string Z,
  default 0 (zb !! k) = 0 ->
  default 0 (fold_left (fun b id => <[id := 0]> b) ms zb !! k) = 0.
Proof.
  induction ms as [|m ms IH]; intros zb Hz; [assumption|].
  cbn [fold_left]. apply IH.
  destruct (decide (m = k)) as [->|Hne].
  - now rewrite lookup_insert_eq.
  - now rewrite lookup_insert_ne.
Qed.

(** No posting goes to the name of a member of [Object.prototype] when the
    ids of the expenses are plain. *)
Lemma postings_plain (es : list Expense) (k : string) :
  plain es -> inherited k = true ->
  List.filter (posted_to k) (flat_map postings es) = [].
Proof.
  unfold plain. intros Hp Hk.
  induction es as [|e es IH]; [reflexivity|].
  cbn [flat_map] in *. apply Forall_app in Hp as [He Hes].
  rewrite List.filter_app, (IH Hes), app_nil_r. clear IH Hes.
  unfold users, postings in *. destruct (payerId e) as [p|]; [|reflexivity].
  inversion He as [|? ? Hp Hss]; subst. cbn [List.filter].
  unfold posted_to at 1. cbn [fst snd].
  destruct (String.eqb_spec p k) as [->|_]; [congruence|].
  clear -Hss Hk. induction (splits e) as [|s ss IH]; [reflexivity|].
  cbn [map] in *. inversion Hss as [|? ? Hs Hss']; subst.
  cbn [List.filter]. unfold posted_to at 1. cbn [fst snd].
  destruct (String.eqb_spec (userId s) k) as [E|_]; [congruence|].
  now apply IH.
Qed.

Lemma ledger_plain (es : list Expense) (ms : list string) (k : string) (c : Z) :
  plain es -> ledger es ms !! k = Some c -> c <> 0 ->
  kept ms k c = Some (dec c).
Proof.
  intros Hp Hk Hc. apply kept_dec. left.
  destruct (inherited k) eqn:Ek; [exfalso|reflexivity]. apply Hc.
  pose proof (lookup_zbooks k (flat_map postings es)
                (fold_left (fun b id => <[id := 0]> b) ms ∅)) as H.
  fold (ledger es ms) in H.
  rewrite Hk, (postings_plain es k Hp Ek), lookup_zero_members in H
    by reflexivity.
  cbn in H. lia.
Qed.

Lemma deltas_postings (es : list Expense) :
  sumZ (map delta (flat_map postings es)) = amount_cents es - split_cents es.
Proof.
  unfold amount_cents, split_cents.
  induction es as [|e es IH]; [reflexivity|].
  change (flat_map postings (e :: es))
    with (postings e ++ flat_map postings es)%list.
  rewrite List.map_app, sumZ_app, IH, settled_cons. unfold postings.
  destruct (payerId e) as [p|]; cbn [map flat_map sumZ delta]; [|lia].
  rewrite List.map_app, sumZ_app, map_map. cbn [delta].
  assert (H : forall l : list Split,
            sumZ (map (fun s => - cents0 (split_amount s)) l)
            = - sumZ (map (fun s => cents0 (split_amount s)) l)).
  { induction l as [|s l IHl]; cbn [map sumZ]; lia. }
  rewrite H. lia.
Qed.

Lemma covered_cents (es : list Expense) :
  Forall covered (settled es) -> amount_cents es = split_cents es.
Proof.
  unfold amount_cents, split_cents.
  induction (settled es) as [|e l IH]; intros Hc; [reflexivity|].
  inversion Hc as [|? ? He Hl]; subst.
  cbn [map flat_map sumZ]. rewrite List.map_app, sumZ_app, (IH Hl).
  unfold covered in He. lia.
Qed.

(** The cents of the balances: those of the amounts less those of the
    splits. *)
Lemma balances_total (es : list Expense) (ms : list string) :
  load es <= budget -> plain es ->
  total_cents (calculateBalances es ms) = amount_cents es - split_cents es.
Proof.
  intros Hl Hp.
  destruct (calculateBalances_exact es ms Hl) as [-> Hb].
  rewrite (total_cents_balances_of _ _ Hb)
    by (intros k c; apply (ledger_plain es ms k c Hp)).
  unfold ledger. rewrite sum_values_books, deltas_postings.
  destruct (members_exact ms) as (_ & Hm & _).
  rewrite (sum_values_zero _ Hm). lia.
Qed.

(** C3, as the code has it. Counted in whole cents, when the rounded
    amounts of the expenses and of their splits add up to at most 2^48
    cents and no payer id or split user id is the name of a member of
    [Object.prototype], the balances add up to the cents of the amounts of
    the expenses that have a payer minus the cents of their splits; they
    add up to 0 when the splits of each of these expenses cover its
    amount. *)
Theorem balances_conserved (es : list Expense) (ms : list string) :
  load es <= budget -> plain es ->
  total_cents (calculateBalances es ms) = amount_cents es - split_cents es /\
  (Forall covered (settled es) ->
   total_cents (calculateBalances es ms) = 0).
Proof.
  intros Hl Hp. pose proof (balances_total es ms Hl Hp) as H.
  split; [assumption|].
  intros Hc. rewrite H, (covered_cents es Hc). lia.
Qed.

Lemma balances_conserved_witness :
  load [expense "U1" (of_Z 100) [share "U1" (of_Z 50); share "U2" (of_Z 50)];
        expense "U2" (dec 1000)
          [share "U1" (dec 334); share "U2" (dec 333); share "U3" (dec 333)]]
  <= budget /\
  total_cents (calculateBalances
    [expense "U1" (of_Z 100) [share "U1" (of_Z 50); share "U2" (of_Z 50)];
     expense "U2" (dec 1000)
       [share "U1" (dec 334); share "U2" (dec 333); share "U3" (dec 333)]]
    ["U1"; "U2"; "U3"]) = 0.
Proof.
  assert (H : load
    [expense "U1" (of_Z 100) [share "U1" (of_Z 50); share "U2" (of_Z 50)];
     expense "U2" (dec 1000)
       [share "U1" (dec 334); share "U2" (dec 333); share "U3" (dec 333)]]
    <= budget) by (vm_compute; discriminate).
  split; [exact H|].
  apply (balances_conserved _ ["U1"; "U2"; "U3"] H).
  - repeat constructor.
  - repeat constructor; vm_compute; reflexivity.
Defined.

(** The name of a member of [Object.prototype] as a payer: the balance is
    NaN, and the cents of the 100 paid are lost. *)
Example inherited_payer_loses_cents :
  calculateBalances [expense "constructor" (of_Z 100) []] []
  = {[ "constructor" := S754_nan ]} /\
  total_cents (calculateBalances [expense "constructor" (of_Z 100) []] []) = 0 /\
  amount_cents [expense "constructor" (of_Z 100) []] = 10000.
Proof. evaluate. Qed.

(** a pays 0.1 for c, b pays 0.2 for c: the balances are 0.1, 0.2 and -0.3,
    and they do not add up to 0 in any order of addition. *)
Example balance_sum_drifts :
  calculateBalances
    [expense "a" (dec 10) [share "c" (dec 10)];
     expense "b" (dec 20) [share "c" (dec 20)]] []
  = {[ "a" := dec 10; "b" := dec 20; "c" := dec (-30) ]} /\
  forall l, Permutation l [dec 10; dec 20; dec (-30)] ->
            feq (total l) zero = false.
Proof.
  split; [vm_compute; reflexivity|].
  intros l Hp. pose proof (Permutation_length Hp) as Hlen.
  destruct l as [|x [|y [|z [|]]]]; try discriminate.
  assert (Hx : In x [dec 10; dec 20; dec (-30)])
    by (apply (Permutation_in _ Hp); cbn; auto).
  assert (Hy : In y [dec 10; dec 20; dec (-30)])
    by (apply (Permutation_in _ Hp); cbn; auto).
  assert (Hz : In z [dec 10; dec 20; dec (-30)])
    by (apply (Permutation_in _ Hp); cbn; auto).
  cbn [In] in Hx, Hy, Hz.
  destruct Hx as [<-|[<-|[<-|[]]]], Hy as [<-|[<-|[<-|[]]]],
    Hz as [<-|[<-|[<-|[]]]]; vm_compute; reflexivity.
Qed.

(** C3, as stated, fails. An expense whose payer has the empty id is
    skipped, so the balances add up to 0 while its amount of 100 is in the
    stated sum. And with payers throughout and splits that cover the
    amounts: a pays 0.1 for c and b pays 0.2 for c; the stated sum is 0, the
    balances 0.1, 0.2 and -0.3 do not add up to 0 (in no order,
    [balance_sum_drifts]). *)
Lemma balance_sum_counterexample :
  let skipped := [expense "" (of_Z 100) []] in
  let paid := [expense "a" (dec 10) [share "c" (dec 10)];
               expense "b" (dec 20) [share "c" (dec 20)]] in
  (balance_sum (calculateBalances skipped ["U1"]) = zero /\
   stated_balance_sum skipped = of_Z 100 /\
   balance_sum (calculateBalances skipped ["U1"])
   <> stated_balance_sum skipped) /\
  (Forall (fun e => validateExpenseInput (amount e) custom (splits e) = ok)
     paid /\
   stated_balance_sum paid = zero /\
   feq (balance_sum (calculateBalances paid [])) zero = false /\
   balance_sum (calculateBalances paid []) <> stated_balance_sum paid).
Proof.
  intros skipped paid. split; [evaluate|].
  split; [repeat constructor; vm_compute; reflexivity|]. evaluate.
Qed.

(** * The validator on every amount *)

Lemma validateSplitTotals_result (amount : number) (ss : list Split) :
  valid (validateSplitTotals amount ss) = true ->
  validateSplitTotals amount ss = ok.
Proof.
  unfold validateSplitTotals.
  destruct (fgt _ FLOAT_EPSILON); [discriminate|].
  destruct (existsb _ ss); [discriminate|reflexivity].
Qed.

Lemma validateExpenseInput_cases (amount : number) (t : SplitType)
  (ss : list Split) :
  validateExpenseInput amount t ss =
  match amount with
  | S754_zero _ => failed (Text "Please enter an amount")
  | S754_finite true _ _ | S754_infinity true =>
      failed (Text "Amount must be greater than zero")
  | S754_nan | S754_infinity false =>
      failed (Text "Amount must be a valid number")
  | S754_finite false _ _ =>
      match t with
      | equal => ok
      | custom => validateSplitTotals amount ss
      end
  end.
Proof.
  destruct amount as [s|[|]| |[|] m e];
    try (now destruct s); try reflexivity.
  rewrite validateExpenseInput_head by reflexivity.
    destruct t; [reflexivity|].
    destruct (valid (validateSplitTotals _ ss)) eqn:E; [|reflexivity].
    symmetry. now apply validateSplitTotals_result.
Qed.

(** X1.  The answer of [validateExpenseInput] to an amount that is not a
    positive finite number depends on the amount alone: a zero of either
    sign is answered by 'Please enter an amount', a negative number or
    minus infinity by 'Amount must be greater than zero', NaN or plus
    infinity by 'Amount must be a valid number'.  For a positive finite
    amount an equal split is valid and a custom split gets the answer of
    [validateSplitTotals]. *)
Theorem validateExpenseInput_by_amount (amount : number) (t : SplitType)
  (ss : list Split) :
  validateExpenseInput amount t ss =
  match amount with
  | S754_zero _ => failed (Text "Please enter an amount")
  | S754_finite true _ _ | S754_infinity true =>
      failed (Text "Amount must be greater than zero")
  | S754_nan | S754_infinity false =>
      failed (Text "Amount must be a valid number")
  | S754_finite false _ _ =>
      match t with
      | equal => ok
      | custom => validateSplitTotals amount ss
      end
  end.
Proof. apply validateExpenseInput_cases. Qed.

(** X2.  [validateExpenseInput] accepts an input exactly when the amount is
    finite and above zero and, for a custom split, the computed
    [|sum - amount|] is not above 0.01 and no split amount is negative. *)
Theorem validateExpenseInput_accepts (amount : number) (t : SplitType)
  (ss : list Split) :
  valid (validateExpenseInput amount t ss) = true <->
  Number_isFinite amount = true /\ flt zero amount = true /\
  (t = custom ->
   fgt (Math_abs (fsub (sum_amounts ss) amount)) FLOAT_EPSILON = false /\
   Forall (fun s => flt (split_amount s) zero = false) ss).
Proof.
  rewrite validateExpenseInput_cases.
  destruct amount as [s|[|]| |[|] m e]; cbn [valid failed];
    try (split; [discriminate|]; intros (F & P & _); discriminate).
  destruct t; cbn [valid ok].
  { split; [|reflexivity]. intros _. repeat split; discriminate. }
  unfold validateSplitTotals.
  destruct (fgt _ FLOAT_EPSILON) eqn:D; cbn [valid failed].
  { split; [discriminate|]. intros (_ & _ & H).
    destruct (H eq_refl) as [H' _]. discriminate. }
  destruct (existsb _ ss) eqn:N; cbn [valid failed ok].
  - split; [discriminate|]. intros (_ & _ & H).
    destruct (H eq_refl) as [_ H'].
    apply existsb_exists in N as (s & Hs & Hneg).
    rewrite List.Forall_forall in H'. specialize (H' s Hs). congruence.
  - split; [|reflexivity]. intros _. repeat split.
    apply List.Forall_forall. intros s Hs.
    destruct (flt (split_amount s) zero) eqn:Hneg; [|reflexivity].
    assert (existsb (fun s => flt (split_amount s) zero) ss = true)
      by (apply existsb_exists; eauto).
    congruence.
Qed.

(** X3.  A custom split without any split is compared with a sum of 0: for
    a positive finite amount it is accepted exactly when the amount is not
    above 0.01, and rejected with the split-total message otherwise. *)
Theorem custom_without_splits (amount : number) :
  Number_isFinite amount = true -> flt zero amount = true ->
  validateExpenseInput amount custom [] =
  if fgt amount FLOAT_EPSILON
  then failed (SplitTotalMismatch zero amount) else ok.
Proof.
  intros F P. rewrite validateExpenseInput_cases.
  destruct (positive_shape amount P) as [->|(m & e & ->)]; [discriminate|].
  unfold validateSplitTotals.
  change (Math_abs (fsub (sum_amounts []) (S754_finite false m e)))
    with (S754_finite false m e).
  cbn [existsb]. reflexivity.
Qed.

Lemma custom_without_splits_witness :
  validateExpenseInput (dec 1) custom [] = ok /\
  validateExpenseInput (dec 2) custom []
  = failed (SplitTotalMismatch zero (dec 2)).
Proof.
  split.
  - apply (custom_without_splits (dec 1)); reflexivity.
  - apply (custom_without_splits (dec 2)); reflexivity.
Defined.

(** * Balances, member by member *)

Lemma settle_skipped (b : Balances) (e : Expense) :
  payerId e = None -> settle b e = b.
Proof. unfold settle. now intros ->. Qed.

(** X4.  Expenses without a payer, or whose payer has an empty id, change
    nothing: the balances are those of the remaining expenses. *)
Theorem calculateBalances_skips_unpaid (expenses : list Expense)
  (memberIds : list string) :
  calculateBalances expenses memberIds =
  calculateBalances (settled expenses) memberIds.
Proof.
  unfold calculateBalances.
  generalize (fold_left (fun (b : Balances) id => put b id zero)
                memberIds ∅).
  induction expenses as [|e es IH]; intros b; [reflexivity|].
  rewrite settled_cons. cbn [fold_left].
  destruct (payerId e) eqn:E.
  - cbn [fold_left]. apply IH.
  - rewrite settle_skipped by assumption. apply IH.
Qed.

Lemma lookup_put_ne (b : Balances) (j k : string) (v : number) :
  j <> k -> put b j v !! k = b !! k.
Proof.
  intros Hne. unfold put. destruct (String.eqb j "__proto__"); [reflexivity|].
  now apply lookup_insert_ne.
Qed.

Lemma lookup_owe_all (k : string) (ss : list Split) :
  k ∉ map userId ss ->
  forall b : Balances, fold_left owe ss b !! k = b !! k.
Proof.
  induction ss as [|s ss IH]; intros Hk b; [reflexivity|].
  cbn [map] in Hk. apply not_elem_of_cons in Hk as [Hs Hk].
  cbn [fold_left]. rewrite IH by assumption.
  unfold owe. apply lookup_put_ne. congruence.
Qed.

Lemma lookup_settle (k : string) (b : Balances) (e : Expense) :
  k ∉ touched e -> settle b e !! k = b !! k.
Proof.
  unfold touched, settle. destruct (payerId e) as [p|]; [|reflexivity].
  intros Hk. rewrite lookup_owe_all.
  - apply lookup_put_ne. set_solver.
  - intros Hin. apply Hk. apply elem_of_union_r.
    now apply elem_of_list_to_set.
Qed.

(** X5.  A member of the room who neither paid nor has a split in any
    expense has the balance [+0], unless the member's id is [__proto__],
    which is never a key of the balances. *)
Theorem uninvolved_member_has_zero (expenses : list Expense)
  (memberIds : list string) (k : string) :
  k ∈ memberIds -> k <> "__proto__" ->
  Forall (fun e => k ∉ touched e) expenses ->
  calculateBalances expenses memberIds !! k = Some zero.
Proof.
  intros Hk Hproto Hes. unfold calculateBalances.
  assert (E : fold_left (fun (b : Balances) id => put b id zero) memberIds ∅
              !! k = Some zero).
  { rewrite lookup_members_put, (bool_decide_eq_true_2 _ Hk).
    apply String.eqb_neq in Hproto. now rewrite Hproto. }
  rewrite <- E.
  generalize (fold_left (fun (b : Balances) id => put b id zero)
                memberIds ∅).
  induction Hes as [|e es He Hes IH]; intros b; [reflexivity|].
  cbn [fold_left]. rewrite IH. now apply lookup_settle.
Qed.

Lemma uninvolved_member_has_zero_witness :
  calculateBalances
    [expense "U1" (of_Z 100) [share "U1" (of_Z 50); share "U2" (of_Z 50)]]
    ["U1"; "U2"; "U3"] !! "U3" = Some zero.
Proof.
  apply uninvolved_member_has_zero.
  - set_solver.
  - discriminate.
  - repeat constructor. vm_compute. set_solver.
Defined.

(** A member called [__proto__] gets no balance, and one called
    [constructor] gets one. *)
Example members_named_after_the_prototype :
  calculateBalances [] ["__proto__"; "a"] = {[ "a" := zero ]} /\
  calculateBalances [] ["constructor"; "a"]
  = {[ "constructor" := zero; "a" := zero ]}.
Proof. evaluate. Qed.

(** ** What a member paid and owes *)

Lemma filter_map_swap {A B : Type} (f : A -> B) (p : B -> bool) (l : list A) :
  List.filter p (map f l) = map f (List.filter (fun a => p (f a)) l).
Proof.
  induction l as [|a l IH]; [reflexivity|].
  cbn [map List.filter]. rewrite IH. now destruct (p (f a)).
Qed.

Lemma paid_cents_cons (e : Expense) (es : list Expense) (k : string) :
  paid_cents (e :: es) k =
  (if paid_by_member k e then cents0 (amount e) else 0) + paid_cents es k.
Proof.
  unfold paid_cents. cbn [List.filter].
  now destruct (paid_by_member k e).
Qed.

Lemma owed_cents_cons (e : Expense) (es : list Expense) (k : string) :
  owed_cents (e :: es) k =
  match payerId e with
  | Some _ =>
      sumZ (map (fun s => cents0 (split_amount s))
              (List.filter (fun s => String.eqb (userId s) k) (splits e)))
  | None => 0
  end + owed_cents es k.
Proof.
  unfold owed_cents. rewrite settled_cons.
  destruct (payerId e); [|reflexivity].
  cbn [flat_map]. now rewrite List.filter_app, List.map_app, sumZ_app.
Qed.

Lemma posted_cents (es : list Expense) (k : string) :
  sumZ (map delta (List.filter (posted_to k) (flat_map postings es)))
  = paid_cents es k - owed_cents es k.
Proof.
  induction es as [|e es IH]; [reflexivity|].
  cbn [flat_map]. rewrite List.filter_app, List.map_app, sumZ_app, IH.
  rewrite paid_cents_cons, owed_cents_cons.
  unfold postings, paid_by_member. destruct (payerId e) as [p|]; [|reflexivity].
  cbn [List.filter]. rewrite filter_map_swap.
  unfold posted_to at 1. cbn [fst snd].
  assert (Hd : forall ss : list Split,
    sumZ (map delta (map (fun s => (false, userId s, split_amount s)) ss))
    = - sumZ (map (fun s => cents0 (split_amount s)) ss)).
  { induction ss as [|s ss IHs]; [reflexivity|].
    cbn [map sumZ delta]. rewrite IHs. lia. }
  destruct (String.eqb p k); cbn [map sumZ delta]; rewrite Hd;
    unfold posted_to; cbn [fst snd]; lia.
Qed.

(** The balance of a user whose id is not the name of a member of
    [Object.prototype]. *)
Lemma balance_cents (expenses : list Expense) (memberIds : list string)
  (k : string) :
  load expenses <= budget -> inherited k = false ->
  get0 (calculateBalances expenses memberIds) k =
  Num (dec (paid_cents expenses k - owed_cents expenses k)).
Proof.
  intros Hl Hk.
  destruct (calculateBalances_exact expenses memberIds Hl) as [-> _].
  rewrite get0_dec by assumption. do 2 f_equal. unfold ledger.
  rewrite lookup_zbooks, lookup_zero_members by reflexivity.
  now rewrite posted_cents.
Qed.

(** X6.  Within the budget, the balance ([balances[id] ?? 0]) of every user
    whose id is not the name of a member of [Object.prototype] is what the
    user paid minus what the user owes, in cents: the cents of the amounts
    of the expenses the user paid minus the cents of the splits in the
    user's name. *)
Theorem balance_is_paid_minus_owed (expenses : list Expense)
  (memberIds : list string) (k : string) :
  load expenses <= budget -> inherited k = false ->
  get0 (calculateBalances expenses memberIds) k =
  Num (dec (paid_cents expenses k - owed_cents expenses k)).
Proof. apply balance_cents. Qed.

Lemma balance_is_paid_minus_owed_witness :
  get0 (calculateBalances
          [expense "U1" (of_Z 100) [share "U1" (of_Z 50); share "U2" (of_Z 50)];
           expense "U2" (dec 1000)
             [share "U1" (dec 334); share "U2" (dec 333); share "U3" (dec 333)]]
          ["U1"; "U2"; "U3"]) "U1"
  = Num (dec (10000 - (5000 + 334))).
Proof.
  apply (balance_is_paid_minus_owed
    [expense "U1" (of_Z 100) [share "U1" (of_Z 50); share "U2" (of_Z 50)];
     expense "U2" (dec 1000)
       [share "U1" (dec 334); share "U2" (dec 333); share "U3" (dec 333)]]
    ["U1"; "U2"; "U3"] "U1").
  - vm_compute. discriminate.
  - reflexivity.
Defined.

(** A payer called [constructor]: the balance is NaN, not the 100 paid. *)
Example balance_of_inherited_name :
  get0 (calculateBalances [expense "constructor" (of_Z 100) []] [])
    "constructor" = Num S754_nan /\
  paid_cents [expense "constructor" (of_Z 100) []] "constructor" = 10000.
Proof. evaluate. Qed.

(** * The breakdown of one viewer *)

Lemma tally_split_other (viewer payer : string) (t : Tally) (s : Split) :
  userId s <> viewer -> payer <> viewer -> tally_split viewer payer t s = t.
Proof.
  intros Hs Hp. unfold tally_split.
  apply String.eqb_neq in Hs, Hp. now rewrite Hs, Hp.
Qed.

Lemma tally_expense_other (viewer : string) (t : Tally) (e : Expense) :
  viewer ∉ touched e -> tally_expense viewer t e = t.
Proof.
  unfold touched, tally_expense. destruct (payerId e) as [p|]; [|reflexivity].
  intros Hv. assert (Hp : p <> viewer) by set_solver.
  assert (Hs : viewer ∉ map userId (splits e)).
  { intros Hin. apply Hv, elem_of_union_r. now apply elem_of_list_to_set. }
  apply String.eqb_neq in Hp as Hp'. rewrite Hp'. clear Hv.
  revert t. induction (splits e) as [|s ss IH]; intros t; [reflexivity|].
  cbn [map] in Hs. apply not_elem_of_cons in Hs as [Hs Hss].
  cbn [fold_left]. rewrite tally_split_other by congruence. now apply IH.
Qed.

(** X7.  For a viewer who neither paid nor has a split in any expense the
    breakdown is empty: the three totals are [+0] and both lists are
    empty. *)
Theorem breakdown_of_bystander (expenses : list Expense) (viewer : string) :
  Forall (fun e => viewer ∉ touched e) expenses ->
  getSettlementBreakdown expenses viewer =
  {| totalOwed := zero; totalPaid := zero; getBack := zero;
     youGive := []; youGet := [] |}.
Proof.
  intros H. unfold getSettlementBreakdown.
  assert (E : forall t, fold_left (tally_expense viewer) expenses t = t).
  { induction H as [|e es He Hes IH]; intros t; [reflexivity|].
    cbn [fold_left]. rewrite tally_expense_other by assumption. apply IH. }
  rewrite E. reflexivity.
Qed.

Lemma breakdown_of_bystander_witness :
  getSettlementBreakdown
    [expense "U1" (of_Z 100) [share "U1" (of_Z 50); share "U2" (of_Z 50)]] "U3"
  = {| totalOwed := zero; totalPaid := zero; getBack := zero;
       youGive := []; youGet := [] |}.
Proof.
  apply breakdown_of_bystander.
  repeat constructor. vm_compute. set_solver.
Defined.

(** ** The total paid *)

Lemma tally_split_totalPaid (viewer payer : string) (t : Tally) (s : Split) :
  t_totalPaid (tally_split viewer payer t s) = t_totalPaid t.
Proof.
  unfold tally_split.
  destruct (String.eqb (userId s) viewer), (String.eqb payer viewer);
    reflexivity.
Qed.

Lemma tally_splits_totalPaid (viewer payer : string) (ss : list Split) :
  forall t,
  t_totalPaid (fold_left (tally_split viewer payer) ss t) = t_totalPaid t.
Proof.
  induction ss as [|s ss IH]; intros t; [reflexivity|].
  cbn [fold_left]. now rewrite IH, tally_split_totalPaid.
Qed.

Lemma tally_totalPaid (viewer : string) (es : list Expense) :
  forall t,
  t_totalPaid (fold_left (tally_expense viewer) es t) =
  fold_left fadd (paid_amounts es viewer) (t_totalPaid t).
Proof.
  induction es as [|e es IH]; intros t; [reflexivity|].
  cbn [fold_left]. rewrite IH.
  unfold paid_amounts, tally_expense. cbn [List.filter].
  unfold paid_by_member at 2.
  destruct (payerId e) as [p|]; [|reflexivity].
  destruct (String.eqb p viewer); cbn [map fold_left t_totalPaid];
    now rewrite tally_splits_totalPaid.
Qed.

(** X8.  [totalPaid] is the rounded sum of the rounded amounts of the
    expenses the viewer paid, in the order of the expenses. *)
Theorem totalPaid_counts_own_expenses (expenses : list Expense)
  (viewer : string) :
  totalPaid (getSettlementBreakdown expenses viewer) =
  round2 (total (paid_amounts expenses viewer)).
Proof.
  unfold getSettlementBreakdown, total. cbn [totalPaid].
  now rewrite tally_totalPaid.
Qed.

(** ** Who is listed *)

Lemma entry_set_keys (o : entries) (k : string) (v : number) :
  (forall x, x ∈ map fst (entry_set o k v) <-> x = k \/ x ∈ map fst o) /\
  (NoDup (map fst o) -> NoDup (map fst (entry_set o k v))).
Proof.
  induction o as [|[k' v'] o [IHin IHnd]]; cbn [entry_set map fst].
  - split; [intros x; set_solver|]. intros _. apply NoDup_singleton.
  - destruct (String.eqb_spec k' k) as [->|Hne]; cbn [map fst].
    + split; [intros x; set_solver|trivial].
    + split.
      * intros x. rewrite !elem_of_cons, IHin. tauto.
      * rewrite !NoDup_cons, IHin. intros [Hk' Hnd]. split; [|auto].
        intros [->|Hin]; [congruence|contradiction].
Qed.

(** [Object.entries] lists every own property once. *)
Lemma place_permutation (n : N) (kv : string * number) (l : entries) :
  Permutation (place n kv l) (kv :: l).
Proof.
  induction l as [|kv' l IH]; cbn [place]; [reflexivity|].
  destruct (array_index (fst kv')) as [n'|]; [|reflexivity].
  destruct (n <? n')%N; [reflexivity|].
  rewrite IH. apply perm_swap.
Qed.

Lemma Object_entries_permutation (o : entries) :
  Permutation (Object_entries o) o.
Proof.
  unfold Object_entries, indexed.
  induction o as [|kv o IH]; cbn [fold_right List.filter]; [reflexivity|].
  destruct (array_index (fst kv)) as [n|].
  - rewrite place_permutation. cbn [app]. now apply perm_skip.
  - rewrite <- Permutation_middle. now apply perm_skip.
Qed.

Lemma Object_entries_In (o : entries) (kv : string * number) :
  In kv (Object_entries o) <-> In kv o.
Proof.
  split; apply Permutation_in;
    [|symmetry]; apply Object_entries_permutation.
Qed.

Lemma Object_entries_keys (o : entries) :
  (forall x, x ∈ map fst (Object_entries o) <-> x ∈ map fst o) /\
  (NoDup (map fst o) -> NoDup (map fst (Object_entries o))).
Proof.
  pose proof (Permutation_map fst (Object_entries_permutation o)) as Hp.
  split.
  - intros x. rewrite !list_elem_of_In.
    split; apply Permutation_in; [|symmetry]; exact Hp.
  - intros Hnd. now rewrite Hp.
Qed.

Lemma positive_entries_keys (o : entries) :
  (forall x, x ∈ map userId (positive_entries o) -> x ∈ map fst o) /\
  (NoDup (map fst o) -> NoDup (map userId (positive_entries o))).
Proof.
  unfold positive_entries.
  destruct (Object_entries_keys o) as [Hkeys Hnodup].
  assert (H : forall l : entries,
            (forall x, x ∈ map userId
                         (map (fun '(k, v) =>
                                 {| userId := k; split_amount := round2 v |})
                            (List.filter (fun kv => fgt (snd kv) zero) l)) ->
                       x ∈ map fst l) /\
            (NoDup (map fst l) ->
             NoDup (map userId
                      (map (fun '(k, v) =>
                              {| userId := k; split_amount := round2 v |})
                         (List.filter (fun kv => fgt (snd kv) zero) l))))).
  { induction l as [|[k v] l [IHin IHnd]]; cbn [List.filter map fst snd].
    - split; [trivial|]. intros _. apply NoDup_nil_2.
    - destruct (fgt v zero); cbn [map userId fst].
      + split.
        * intros x. rewrite !elem_of_cons. intros [->|Hin]; auto.
        * rewrite !NoDup_cons. intros [Hk Hnd]. split; auto.
      + split.
        * intros x Hin. apply elem_of_cons. auto.
        * rewrite NoDup_cons. intros [_ Hnd]. auto. }
  destruct (H (Object_entries o)) as [Hin Hnd]. split.
  - intros x Hx. now apply Hkeys, Hin.
  - intros Ho. now apply Hnd, Hnodup.
Qed.

Lemma bump_tidy (viewer k : string) (o : entries) (amt : number) :
  k <> viewer ->
  (viewer ∉ map fst o) /\ NoDup (map fst o) ->
  (viewer ∉ map fst (bump o k amt)) /\ NoDup (map fst (bump o k amt)).
Proof.
  intros Hk [Hv Hnd]. unfold bump.
  destruct (String.eqb k "__proto__"); [now split|].
  destruct (entry_set_keys o k
              (round2_plus (or_zero (entry_get o k) k) amt)) as [Hin Hnd'].
  split; [|auto]. rewrite Hin. intros [->|H]; [congruence|contradiction].
Qed.

Lemma tally_split_tidy (viewer payer : string) (t : Tally) (s : Split) :
  tidy viewer t -> tidy viewer (tally_split viewer payer t s).
Proof.
  intros [Hgive Hget]. unfold tally_split, tidy.
  destruct (String.eqb_spec (userId s) viewer) as [Hs|Hs],
           (String.eqb_spec payer viewer) as [Hp|Hp];
    cbn [negb andb giveMap getMap]; split; auto using bump_tidy.
Qed.

Lemma tally_expense_tidy (viewer : string) (t : Tally) (e : Expense) :
  tidy viewer t -> tidy viewer (tally_expense viewer t e).
Proof.
  unfold tally_expense. destruct (payerId e) as [p|]; [|trivial].
  intros Ht.
  assert (H : tidy viewer (fold_left (tally_split viewer p) (splits e) t)).
  { revert t Ht. induction (splits e) as [|s ss IH]; intros t Ht; [trivial|].
    cbn [fold_left]. apply IH. now apply tally_split_tidy. }
  now destruct (String.eqb p viewer).
Qed.

Lemma tally_tidy (viewer : string) (es : list Expense) :
  forall t, tidy viewer t -> tidy viewer (fold_left (tally_expense viewer) es t).
Proof.
  induction es as [|e es IH]; intros t Ht; [trivial|].
  cbn [fold_left]. apply IH. now apply tally_expense_tidy.
Qed.

Lemma breakdown_tidy (expenses : list Expense) (viewer : string) :
  tidy viewer
    (fold_left (tally_expense viewer) expenses
       {| t_totalOwed := zero; t_totalPaid := zero;
          giveMap := []; getMap := [] |}).
Proof.
  apply tally_tidy. unfold tidy. cbn [giveMap getMap map].
  repeat split; try apply NoDup_nil_2; apply not_elem_of_nil.
Qed.

(** X9.  The viewer is never listed in [youGive] or in [youGet]. *)
Theorem breakdown_never_lists_viewer (expenses : list Expense)
  (viewer : string) :
  (viewer ∉ map userId (youGive (getSettlementBreakdown expenses viewer))) /\
  viewer ∉ map userId (youGet (getSettlementBreakdown expenses viewer)).
Proof.
  destruct (breakdown_tidy expenses viewer) as [[Hgive _] [Hget _]].
  unfold getSettlementBreakdown. cbn [youGive youGet].
  split; intros Hin; apply positive_entries_keys in Hin; contradiction.
Qed.

(** X10.  Nobody is listed twice in [youGive], and nobody twice in
    [youGet]. *)
Theorem breakdown_lists_each_person_once (expenses : list Expense)
  (viewer : string) :
  NoDup (map userId (youGive (getSettlementBreakdown expenses viewer))) /\
  NoDup (map userId (youGet (getSettlementBreakdown expenses viewer))).
Proof.
  destruct (breakdown_tidy expenses viewer) as [[_ Hgive] [_ Hget]].
  unfold getSettlementBreakdown. cbn [youGive youGet].
  split; now apply positive_entries_keys.
Qed.

(** ** What the viewer gets back *)

Lemma unsigned_not_negative (x : number) : unsigned x -> flt x zero = false.
Proof. destruct x as [s|s| |s m e]; cbn [unsigned]; now intros; subst. Qed.

Lemma binary_round_aux_unsigned (mx ex : Z) (lx : location) :
  unsigned (binary_round_aux prec emax false mx ex lx).
Proof.
  rewrite binary_round_aux_sign.
  now destruct (binary_round_aux prec emax false mx ex lx).
Qed.

Lemma fmul_unsigned (x y : number) :
  unsigned x -> unsigned y -> unsigned (fmul x y).
Proof.
  destruct x as [sx|sx| |sx mx ex], y as [sy|sy| |sy my ey];
    cbn [unsigned]; intros; subst; try exact I; try reflexivity.
  apply binary_round_aux_unsigned.
Qed.

Lemma fdiv_unsigned (x y : number) :
  unsigned x -> unsigned y -> unsigned (fdiv x y).
Proof.
  destruct x as [sx|sx| |sx mx ex], y as [sy|sy| |sy my ey];
    cbn [unsigned]; intros; subst; try exact I; try reflexivity.
  unfold fdiv, SFdiv.
  destruct (SFdiv_core_binary prec emax (Z.pos mx) ex (Z.pos my) ey)
    as [[mz ez] lz].
  apply binary_round_aux_unsigned.
Qed.

Lemma of_Z_unsigned (n : Z) : 0 <= n -> unsigned (of_Z n).
Proof.
  destruct n as [|p|p]; [reflexivity| |lia]. intros _.
  unfold of_Z, binary_normalize, binary_round.
  destruct (shl_align p 0 _) as [mz ez].
  apply binary_round_aux_unsigned.
Qed.

Lemma Math_round_unsigned (x : number) : unsigned x -> unsigned (Math_round x).
Proof.
  destruct x as [s|s| |s m [|e|k]]; try trivial.
  cbn [unsigned Math_round]. intros ->. cbn [signed].
  destruct (Z.eqb_spec
    (Z.shiftr (Z.pos m + Z.shiftl 1 (Z.pos k - 1)) (Z.pos k)) 0) as [E|E].
  - reflexivity.
  - apply of_Z_unsigned, Z.shiftr_nonneg.
    assert (0 <= Z.shiftl 1 (Z.pos k - 1)) by (apply Z.shiftl_nonneg; lia).
    lia.
Qed.

Lemma round2_unsigned (x : number) : unsigned x -> unsigned (round2 x).
Proof.
  intros H. unfold round2.
  apply fdiv_unsigned; [|reflexivity].
  apply Math_round_unsigned, fmul_unsigned; [assumption|reflexivity].
Qed.

Lemma Math_max_zero_unsigned (x : number) : unsigned (Math_max zero x).
Proof. now destruct x as [[|]|[|]| |[|] m e]. Qed.

(** X11.  [getBack] is never below zero and never [-0], whatever the
    expenses are: it is NaN, [+0] or positive. *)
Theorem getBack_never_negative (expenses : list Expense) (viewer : string) :
  flt (getBack (getSettlementBreakdown expenses viewer)) zero = false /\
  getBack (getSettlementBreakdown expenses viewer) <> S754_zero true.
Proof.
  assert (H : unsigned (getBack (getSettlementBreakdown expenses viewer))).
  { unfold getSettlementBreakdown. cbn [getBack].
    apply round2_unsigned, Math_max_zero_unsigned. }
  split; [now apply unsigned_not_negative|].
  intros E. rewrite E in H. discriminate.
Qed.

(** * Loading and entering expenses *)

(** ** Rounding twice *)

Lemma round2_settled (x : number) (n : Z) :
  cents x = Some n -> Z.abs n <= 2 ^ 50 ->
  round2 (round2 x) = round2 x /\ cents (round2 x) = Some n.
Proof.
  intros Hx Hn. destruct (round2_shape x n Hx) as [Hnz Hz].
  destruct (Z.eq_dec n 0) as [->|Hn0].
  - destruct (Hz eq_refl) as [s ->]. now destruct s.
  - rewrite (Hnz Hn0). now apply round2_dec.
Qed.

(** X12.  Rounding twice is rounding once: for a number whose cents are at
    most 2^50 in absolute value, [round2 (round2 x) = round2 x], and the
    rounded number has the same cents. *)
Theorem round2_idempotent (x : number) (n : Z) :
  cents x = Some n -> Z.abs n <= 2 ^ 50 ->
  round2 (round2 x) = round2 x /\ cents (round2 x) = Some n.
Proof. apply round2_settled. Qed.

Lemma round2_idempotent_witness :
  round2 (round2 (fdiv (of_Z 1) (of_Z 3))) = round2 (fdiv (of_Z 1) (of_Z 3)) /\
  cents (round2 (fdiv (of_Z 1) (of_Z 3))) = Some 33.
Proof.
  apply (round2_idempotent (fdiv (of_Z 1) (of_Z 3)) 33).
  - vm_compute. reflexivity.
  - vm_compute. discriminate.
Defined.

(** X13.  In an expense loaded by [rowToExpense] from a row whose amounts
    are within the budget, the amount and every split amount are fixed
    points of [round2] with the cents of the stored amounts, and the splits
    keep their users, in order; so the rounding the calculator applies again
    changes nothing. *)
Theorem rowToExpense_amounts_are_rounded (row : ExpenseRow) :
  weight (row_amount row) <= budget ->
  Forall (fun s => weight (split_amount s) <= budget)
    (default [] (row_splits row)) ->
  let e := rowToExpense row in
  (round2 (amount e) = amount e /\
   cents (amount e) = cents (row_amount row)) /\
  map userId (splits e) = map userId (default [] (row_splits row)) /\
  Forall2 (fun s raw => round2 (split_amount s) = split_amount s /\
                        cents (split_amount s) = cents (split_amount raw))
    (splits e) (default [] (row_splits row)).
Proof.
  intros Ha Hs e. subst e. unfold rowToExpense. cbn [amount splits].
  assert (fix_ : forall x, weight x <= budget ->
            round2 (round2 x) = round2 x /\ cents (round2 x) = cents x).
  { intros x Hx. destruct (weight_cents x budget Hx) as (n & Hn & Hb); [lia|].
    rewrite Hn. apply round2_settled; [assumption|]. unfold budget in Hb. lia. }
  split; [now apply fix_|].
  induction Hs as [|s ss Hw Hss [IHid IH]]; cbn [map].
  - split; [reflexivity|constructor].
  - split; [now rewrite IHid|]. constructor; [|assumption].
    cbn [split_amount]. now apply fix_.
Qed.

Lemma rowToExpense_amounts_are_rounded_witness :
  let row := {| row_id := "e"; row_title := "Dinner";
                row_amount := fdiv (of_Z 100) (of_Z 3);
                paid_by := Some (user "U1"); split_type := custom;
                row_splits := Some [share "U2" (fdiv (of_Z 100) (of_Z 3))] |} in
  let e := rowToExpense row in
  (round2 (amount e) = amount e /\
   cents (amount e) = cents (row_amount row)) /\
  map userId (splits e) = map userId (default [] (row_splits row)) /\
  Forall2 (fun s raw => round2 (split_amount s) = split_amount s /\
                        cents (split_amount s) = cents (split_amount raw))
    (splits e) (default [] (row_splits row)).
Proof.
  intros row. apply (rowToExpense_amounts_are_rounded row).
  - vm_compute. discriminate.
  - repeat constructor. vm_compute. discriminate.
Defined.

(** ** The custom split of the drawer *)

Lemma others_fold (entered : string -> number) (others : list User) :
  forall (acc : list Split) (sum : number),
  fold_left
    (fun (st : list Split * number) (member : User) =>
       ((fst st ++ [{| userId := user_id member;
                       split_amount :=
                         Math_max zero (or0 (entered (user_id member))) |}])%list,
        fadd (snd st) (Math_max zero (or0 (entered (user_id member))))))
    others (acc, sum)
  = ((acc ++ map (entered_split entered) others)%list,
     fold_left (fun a s => fadd a (split_amount s))
       (map (entered_split entered) others) sum).
Proof.
  induction others as [|m ms IH]; intros acc sum; cbn [fold_left map].
  - now rewrite app_nil_r.
  - rewrite IH. cbn [fst snd]. now rewrite <- app_assoc.
Qed.

Lemma customSplitsParsed_splits (others : list User)
  (entered : string -> number) (numAmount : number) (me : option string) :
  let r := customSplitsParsed others entered numAmount me in
  cs_sumOthers r = sum_amounts (map (entered_split entered) others) /\
  cs_splits r =
  (map (entered_split entered) others ++
   own_split me (Math_max zero (round2 (fsub numAmount (cs_sumOthers r)))))%list.
Proof.
  unfold customSplitsParsed. rewrite others_fold. cbn [cs_sumOthers cs_splits].
  split; reflexivity.
Qed.

Lemma Math_max_zero_not_negative (x : number) : flt (Math_max zero x) zero = false.
Proof. now destruct x as [[|]|[|]| |[|] m e]. Qed.

(** X14.  No split built by the custom split of the drawer is negative,
    whatever was typed; for a positive finite amount the validator can
    therefore only object to the total of these splits. *)
Theorem drawer_splits_pass_sign_check (others : list User)
  (entered : string -> number) (numAmount : number) (me : option string) :
  Number_isFinite numAmount = true -> flt zero numAmount = true ->
  let ss := cs_splits (customSplitsParsed others entered numAmount me) in
  existsb (fun s => flt (split_amount s) zero) ss = false /\
  validateExpenseInput numAmount custom ss =
  if fgt (Math_abs (fsub (sum_amounts ss) numAmount)) FLOAT_EPSILON
  then failed (SplitTotalMismatch (sum_amounts ss) numAmount)
  else ok.
Proof.
  intros F P ss.
  assert (N : existsb (fun s => flt (split_amount s) zero) ss = false).
  { subst ss.
    destruct (customSplitsParsed_splits others entered numAmount me) as [_ ->].
    rewrite existsb_app. apply orb_false_iff. split.
    - induction others as [|m ms IH]; [reflexivity|].
      cbn [map existsb entered_split split_amount].
      now rewrite Math_max_zero_not_negative.
    - unfold own_split. destruct me as [id|]; [|reflexivity].
      destruct (String.eqb id ""); [reflexivity|].
      cbn [existsb split_amount]. now rewrite Math_max_zero_not_negative. }
  split; [assumption|].
  rewrite validateExpenseInput_head by assumption.
  unfold validateSplitTotals. rewrite N.
  now destruct (fgt _ FLOAT_EPSILON).
Qed.

Lemma drawer_splits_pass_sign_check_witness :
  let ss := cs_splits (customSplitsParsed [user "U2"]
              (fun _ => of_Z 40) (of_Z 100) (Some "U1")) in
  existsb (fun s => flt (split_amount s) zero) ss = false /\
  validateExpenseInput (of_Z 100) custom ss =
  if fgt (Math_abs (fsub (sum_amounts ss) (of_Z 100))) FLOAT_EPSILON
  then failed (SplitTotalMismatch (sum_amounts ss) (of_Z 100))
  else ok.
Proof.
  apply (drawer_splits_pass_sign_check [user "U2"] (fun _ => of_Z 40)
           (of_Z 100) (Some "U1")); reflexivity.
Defined.

Example drawer_one_cent_over :
  let r := customSplitsParsed [user "U2"] (fun _ => dec 10001) (of_Z 100)
             (Some "U1") in
  cs_valid r = true /\
  cs_splits r = [share "U2" (dec 10001); share "U1" zero] /\
  valid (validateExpenseInput (of_Z 100) custom (cs_splits r)) = false.
Proof. cbv zeta. evaluate. Qed.

Example drawer_negative_entry :
  let r := customSplitsParsed [user "U2"; user "U3"]
             (fun id => if String.eqb id "U2" then of_Z (-5) else S754_nan)
             (of_Z 100) (Some "U1") in
  cs_valid r = false /\
  cs_splits r = [share "U2" zero; share "U3" zero; share "U1" (of_Z 100)].
Proof. cbv zeta. evaluate. Qed.

Lemma others_and_self (members : list User) (me : string) :
  NoDup (map user_id members) -> me ∈ map user_id members -> me <> "" ->
  Permutation
    (map user_id (otherMembers (Some members) (Some me)) ++ [me])
    (map user_id members).
Proof.
  intros Hnd Hin Hme. unfold otherMembers.
  apply String.eqb_neq in Hme. rewrite Hme. clear Hme.
  induction members as [|m ms IH]; [now apply elem_of_nil in Hin|].
  cbn [map] in *. apply NoDup_cons in Hnd as [Hm Hnd].
  cbn [List.filter]. destruct (String.eqb_spec (user_id m) me) as [E|E].
  - cbn [negb]. rewrite <- E in *.
    assert (Hf : List.filter (fun m0 => negb (user_id m0 =? user_id m)%string) ms = ms).
    { clear -Hm. induction ms as [|x xs IH]; [reflexivity|].
      cbn [map] in Hm. apply not_elem_of_cons in Hm as [Hx Hxs].
      cbn [List.filter]. destruct (String.eqb_spec (user_id x) (user_id m));
        [congruence|]. cbn [negb]. now rewrite IH. }
    rewrite Hf. symmetry. apply Permutation_cons_append.
  - cbn [negb map app]. constructor. apply IH; [assumption|].
    apply elem_of_cons in Hin as [->|Hin]; [congruence|assumption].
Qed.

(** X15.  In a room whose members have distinct ids, the custom split of
    the drawer has one split for every member: the partners (the members
    but the user) in the order of the room, then the user. *)
Theorem drawer_splits_one_per_member (members : list User) (me : string)
  (entered : string -> number) (numAmount : number) :
  NoDup (map user_id members) -> me ∈ map user_id members -> me <> "" ->
  let others := otherMembers (Some members) (Some me) in
  let r := customSplitsParsed others entered numAmount (Some me) in
  (me ∉ map user_id others) /\
  Permutation (map userId (cs_splits r)) (map user_id members) /\
  last (map userId (cs_splits r)) = Some me.
Proof.
  intros Hnd Hin Hme others r.
  assert (Hids : map userId (cs_splits r) = (map user_id others ++ [me])%list).
  { subst r.
    destruct (customSplitsParsed_splits others entered numAmount (Some me))
      as [_ ->].
    rewrite List.map_app, List.map_map. unfold own_split.
    apply String.eqb_neq in Hme. rewrite Hme. reflexivity. }
  rewrite Hids. split; [|split].
  - subst others. unfold otherMembers.
    apply String.eqb_neq in Hme. rewrite Hme.
    intros H. apply list_elem_of_In, in_map_iff in H as (m & E & H).
    apply List.filter_In in H as [_ H].
    rewrite E, String.eqb_refl in H. discriminate.
  - now apply others_and_self.
  - apply last_snoc.
Qed.

Lemma drawer_splits_one_per_member_witness :
  let members := [user "U1"; user "U2"; user "U3"] in
  let others := otherMembers (Some members) (Some "U2") in
  let r := customSplitsParsed others (fun _ => of_Z 10) (of_Z 100)
             (Some "U2") in
  ("U2" ∉ map user_id others) /\
  Permutation (map userId (cs_splits r)) (map user_id members) /\
  last (map userId (cs_splits r)) = Some "U2".
Proof.
  intros members.
  apply (drawer_splits_one_per_member members "U2" (fun _ => of_Z 10)
           (of_Z 100)).
  - vm_compute. repeat constructor; set_solver.
  - vm_compute. set_solver.
  - discriminate.
Defined.

(** * Exact results *)

(** ** Results that are representable *)

(** A mantissa of 53 digits and its exponent are determined by the value. *)
Lemma canonical_unique (m1 m2 : positive) (e1 e2 : Z) :
  Z.pos (digits2_pos m1) = prec -> Z.pos (digits2_pos m2) = prec ->
  (IZR (Z.pos m1) * pow2 e1 = IZR (Z.pos m2) * pow2 e2)%R ->
  m1 = m2 /\ e1 = e2.
Proof.
  intros H1 H2 Hv.
  assert (He : e1 = e2).
  { pose proof (mag_pos m1 e1) as Hp.
    assert (Ha : (pow2 (prec + e1 - 1) <= IZR (Z.pos m1) * pow2 e1
                  < pow2 (prec + e1))%R).
    { pose proof (digits2_bounds m1) as [Hlo Hhi]. rewrite H1 in Hlo, Hhi.
      apply IZR_le in Hlo. apply IZR_lt in Hhi.
      rewrite <- pow2_IZR in Hlo, Hhi by (unfold prec; lia).
      pose proof (pow2_pos e1).
      replace (prec + e1 - 1) with (prec - 1 + e1) by lia.
      rewrite !pow2_add. nra. }
    assert (Hb : (pow2 (prec + e2 - 1) <= IZR (Z.pos m2) * pow2 e2
                  < pow2 (prec + e2))%R).
    { pose proof (digits2_bounds m2) as [Hlo Hhi]. rewrite H2 in Hlo, Hhi.
      apply IZR_le in Hlo. apply IZR_lt in Hhi.
      rewrite <- pow2_IZR in Hlo, Hhi by (unfold prec; lia).
      pose proof (pow2_pos e2).
      replace (prec + e2 - 1) with (prec - 1 + e2) by lia.
      rewrite !pow2_add. nra. }
    rewrite Hv in Ha.
    assert (prec + e1 - 1 < prec + e2) by (apply pow2_lt_inv; lra).
    assert (prec + e2 - 1 < prec + e1) by (apply pow2_lt_inv; lra).
    lia. }
  split; [|assumption]. subst e2. pose proof (pow2_pos e1).
  apply Rmult_eq_reg_r in Hv; [|lra]. apply eq_IZR in Hv. congruence.
Qed.

Lemma loc_ok_integer (l : location) (m n : Z) :
  loc_ok l m (IZR n) -> l = loc_Exact /\ m = n.
Proof.
  intros H. pose proof (loc_ok_bounds _ _ _ H) as [Hlo Hhi].
  apply le_IZR in Hlo. rewrite <- succ_IZR in Hhi. apply lt_IZR in Hhi.
  assert (E : m = n) by lia. subst n. split; [|reflexivity].
  destruct l as [|[]]; cbn [loc_ok] in H; [reflexivity|lra..].
Qed.

(** Rounding gives back a value that has a mantissa of 53 digits. *)
Lemma binary_round_aux_repr (mx : positive) (ex : Z) (lx : location) (x : R)
  (M : positive) (E : Z) :
  loc_ok lx (Z.pos mx) x ->
  prec <= Z.pos (digits2_pos mx) ->
  SpecFloat.emin prec emax + prec <= Z.pos (digits2_pos mx) + ex < emax ->
  Z.pos (digits2_pos M) = prec ->
  (x * pow2 ex = IZR (Z.pos M) * pow2 E)%R ->
  forall sx,
  binary_round_aux prec emax sx (Z.pos mx) ex lx = S754_finite sx M E.
Proof.
  intros Hx Hd Hrange HM Hv sx.
  pose proof (digits2_bounds mx) as Hmx.
  set (d := Z.pos (digits2_pos mx)) in *.
  pose proof (loc_ok_bounds _ _ _ Hx) as Hxb.
  (* the exponent of the result *)
  assert (HE : E = d + ex - prec).
  { assert (Ha : (pow2 (d - 1 + ex) <= x * pow2 ex < pow2 (d + ex))%R).
    { destruct Hmx as [Hlo Hhi]. apply IZR_le in Hlo.
      assert (Hhi' : Z.pos mx + 1 <= 2 ^ d) by lia. apply IZR_le in Hhi'.
      rewrite plus_IZR in Hhi'.
      rewrite <- pow2_IZR in Hlo, Hhi' by lia.
      pose proof (pow2_pos ex). rewrite !pow2_add. nra. }
    rewrite Hv in Ha. apply digits2_range in Ha. lia. }
  unfold binary_round_aux, shr_fexp. cbn [Zdigits2]. fold d.
  rewrite fexp_normal by lia.
  replace (d + ex - prec - ex) with (d - prec) by lia.
  destruct (shr_spec (shr_record_of_loc (Z.pos mx) lx) ex (d - prec) x)
    as [[Hm1 Hl1] He1];
    [lia | apply shr_record_of_loc_ok; [lia|assumption] |].
  destruct (shr (shr_record_of_loc (Z.pos mx) lx) ex (d - prec)) as [mrs1 e1].
  cbn [fst snd] in Hm1, Hl1, He1.
  assert (Hx1 : (x / pow2 (d - prec) = IZR (Z.pos M))%R).
  { pose proof (pow2_pos (d - prec)). pose proof (pow2_pos ex).
    apply (Rmult_eq_reg_r (pow2 E)); [|pose proof (pow2_pos E); lra].
    rewrite <- Hv, HE.
    replace (d + ex - prec) with ((d - prec) + ex) by lia.
    rewrite pow2_add. field. lra. }
  rewrite Hx1 in Hl1. apply loc_ok_integer in Hl1 as [-> ->].
  cbn [round_nearest_even Zdigits2]. rewrite HM, fexp_normal by lia.
  replace (prec + e1 - prec - e1) with 0 by lia.
  cbn [shr shr_record_of_loc shr_m].
  replace (e1 <=? emax - prec) with true
    by (symmetry; apply Z.leb_le; unfold SpecFloat.emin, emax, prec in *; lia).
  f_equal. lia.
Qed.

Lemma canonical_target (t : number) (s : bool) (X : R) :
  canonical t -> (0 < X)%R -> val t = (sgn s * X)%R ->
  exists M E, t = S754_finite s M E /\ Z.pos (digits2_pos M) = prec /\
              (IZR (Z.pos M) * pow2 E = X)%R.
Proof.
  destruct t as [| | |st M E]; try contradiction. cbn [canonical].
  intros Hd HX Hv. rewrite val_finite in Hv. pose proof (mag_pos M E).
  exists M, E. destruct st, s; cbn [sgn] in Hv;
    first [split; [reflexivity|split; [assumption|lra]] | lra].
Qed.

(** A product that is representable is computed exactly. *)
Lemma fmul_exact (x y t : number) (sx : bool) (mx : positive) (ex : Z) :
  x = S754_finite sx mx ex -> canonical y ->
  in_range (val x * val y) ->
  canonical t -> val t = (val x * val y)%R ->
  fmul x y = t.
Proof.
  intros -> Hy Hr Ht Hv. destruct y as [| | |sy my ey]; try contradiction.
  cbn [canonical] in Hy. unfold in_range in Hr.
  rewrite !val_finite in *.
  set (X := (IZR (Z.pos mx) * pow2 ex * (IZR (Z.pos my) * pow2 ey))%R) in *.
  assert (HX : (0 < X)%R)
    by (apply Rmult_lt_0_compat; apply mag_pos).
  replace (sgn sx * (IZR (Z.pos mx) * pow2 ex) *
           (sgn sy * (IZR (Z.pos my) * pow2 ey)))%R
    with (sgn (xorb sx sy) * X)%R in * by (rewrite sgn_xorb; unfold X; ring).
  rewrite Rabs_sgn, (Rabs_pos_eq X) in Hr by lra.
  assert (HXe : X = (IZR (Z.pos (mx * my)) * pow2 (ex + ey))%R).
  { unfold X. rewrite Pos2Z.inj_mul, mult_IZR, pow2_add. ring. }
  destruct (canonical_target t _ X Ht HX Hv) as (M & E & -> & HM & HME).
  unfold fmul. cbn [SFmul].
  apply (binary_round_aux_repr (mx * my) (ex + ey) loc_Exact
           (IZR (Z.pos (mx * my)))).
  - reflexivity.
  - apply digits2_ge. rewrite Pos2Z.inj_mul.
    pose proof (digits2_bounds my) as [Hlo _]. rewrite Hy in Hlo. nia.
  - rewrite HXe in Hr. apply digits2_range in Hr.
    unfold SpecFloat.emin, emax, prec. lia.
  - assumption.
  - now rewrite HME, <- HXe.
Qed.

(** A quotient that is representable is computed exactly. *)
Lemma fdiv_exact (x y t : number) :
  canonical x -> canonical y -> in_range (val x / val y) ->
  canonical t -> val t = (val x / val y)%R ->
  fdiv x y = t.
Proof.
  destruct x as [| | |sx mx ex], y as [| | |sy my ey]; try contradiction.
  cbn [canonical]. intros Hx Hy Hr Ht Hv. unfold in_range in Hr.
  rewrite !val_finite in *.
  pose proof (mag_pos mx ex) as HA. pose proof (mag_pos my ey) as HB.
  set (A := (IZR (Z.pos mx) * pow2 ex)%R) in *.
  set (B := (IZR (Z.pos my) * pow2 ey)%R) in *.
  assert (HX : (0 < A / B)%R) by (apply Rdiv_lt_0_compat; assumption).
  replace (sgn sx * A / (sgn sy * B))%R
    with (sgn (xorb sx sy) * (A / B))%R in *
    by (rewrite sgn_xorb; destruct sy; cbn [sgn]; field; lra).
  rewrite Rabs_sgn, (Rabs_pos_eq (A / B)) in Hr by lra.
  destruct (canonical_target t _ (A / B)%R Ht HX Hv) as (M & E & -> & HM & HME).
  pose proof (digits2_bounds mx) as [Hmx1 Hmx2].
  pose proof (digits2_bounds my) as [Hmy1 Hmy2].
  rewrite Hx in Hmx1, Hmx2. rewrite Hy in Hmy1, Hmy2.
  assert (Hmx1' := IZR_le _ _ Hmx1). assert (Hmx2' := IZR_lt _ _ Hmx2).
  assert (Hmy1' := IZR_le _ _ Hmy1). assert (Hmy2' := IZR_lt _ _ Hmy2).
  assert (HAB : (A / B = IZR (Z.pos mx) / IZR (Z.pos my) * pow2 (ex - ey))%R).
  { unfold A, B. rewrite <- pow2_div. pose proof (pow2_pos ey).
    field. split; [lra|]. apply not_0_IZR. lia. }
  set (rho := (IZR (Z.pos mx) / IZR (Z.pos my))%R) in *.
  assert (Hmy0 : (0 < IZR (Z.pos my))%R) by (apply (IZR_lt 0); lia).
  assert (Hrho : (/ 2 < rho < 2)%R).
  { change (2 ^ prec) with (2 * 2 ^ (prec - 1)) in Hmx2', Hmy2'.
    rewrite mult_IZR in Hmx2', Hmy2'. unfold rho. split.
    - apply (Rmult_lt_reg_r (IZR (Z.pos my))); [assumption|].
      unfold Rdiv. rewrite Rmult_assoc, Rinv_l by lra. lra.
    - apply (Rmult_lt_reg_r (IZR (Z.pos my))); [assumption|].
      unfold Rdiv. rewrite Rmult_assoc, Rinv_l by lra. lra. }
  assert (Hk : -1001 < ex - ey < 1001).
  { pose proof (pow2_pos (ex - ey)) as Hp. rewrite HAB in Hr. split.
    - assert (pow2 (-1000) < pow2 (ex - ey + 1))%R
        by (rewrite pow2_add, pow2_1; nra).
      apply pow2_lt_inv in H. lia.
    - assert (pow2 (ex - ey + -1) < pow2 1000)%R
        by (rewrite pow2_add, pow2_m1; nra).
      apply pow2_lt_inv in H. lia. }
  unfold fdiv. cbn [SFdiv]. unfold SFdiv_core_binary. cbn [Zdigits2].
  rewrite Hx, Hy.
  replace (prec + ex - (prec + ey)) with (ex - ey) by lia.
  rewrite fexp_normal by (unfold SpecFloat.emin, emax, prec; lia).
  rewrite Z.min_l by (unfold prec; lia).
  replace (ex - ey - (ex - ey - prec)) with prec by lia.
  change (match prec with Z.pos _ => Z.shiftl (Z.pos mx) prec | _ => _ end)
    with (Z.shiftl (Z.pos mx) prec).
  rewrite Z.shiftl_mul_pow2 by (unfold prec; lia).
  pose proof (Z_div_mod (Z.pos mx * 2 ^ prec) (Z.pos my) ltac:(lia)) as Hdiv.
  destruct (Z.div_eucl (Z.pos mx * 2 ^ prec) (Z.pos my)) as [q r].
  destruct Hdiv as [Hqr Hrb].
  assert (Hq : 2 ^ (prec - 1) <= q).
  { change (2 ^ prec) with (2 * 2 ^ (prec - 1)) in *.
    assert (0 < 2 ^ (prec - 1)) by (unfold prec; lia).
    set (P := 2 ^ (prec - 1)) in *. nia. }
  destruct q as [|qp|qp]; [unfold prec in Hq; lia| |lia].
  set (e' := ex - ey - prec).
  set (x := (IZR (Z.pos qp) + IZR r / IZR (Z.pos my))%R).
  assert (Hxe : (x * pow2 e' = A / B)%R).
  { rewrite HAB. unfold x, rho, e'.
    replace (ex - ey - prec) with ((ex - ey) + - prec) by lia.
    rewrite pow2_add.
    replace (IZR (Z.pos qp) + IZR r / IZR (Z.pos my))%R
      with (IZR (Z.pos my * Z.pos qp + r) / IZR (Z.pos my))%R
      by (rewrite plus_IZR, mult_IZR; field; lra).
    rewrite <- Hqr, mult_IZR, <- pow2_IZR by (unfold prec; lia).
    replace (IZR (Z.pos mx) * pow2 prec / IZR (Z.pos my) *
             (pow2 (ex - ey) * pow2 (- prec)))%R
      with (IZR (Z.pos mx) / IZR (Z.pos my) * pow2 (ex - ey) *
            (pow2 prec * pow2 (- prec)))%R by (field; lra).
    rewrite <- pow2_add. replace (prec + - prec) with 0 by lia.
    rewrite pow2_0. ring. }
  assert (Hloc : loc_ok (new_location (Z.pos my) r) (Z.pos qp) x)
    by (apply new_location_ok; lia).
  apply (binary_round_aux_repr qp e' _ x M E Hloc).
  - now apply digits2_ge.
  - pose proof (loc_ok_bounds _ _ _ Hloc) as [Hlo Hhi].
    pose proof (pow2_pos e') as Hp.
    assert (1 <= IZR (Z.pos qp))%R by (apply (IZR_le 1); lia).
    assert (Hrange : (pow2 (-1001) <= IZR (Z.pos qp) * pow2 e' < pow2 1000)%R).
    { split.
      - replace (-1001) with (-1000 + -1) by lia. rewrite pow2_add, pow2_m1.
        nra.
      - nra. }
    apply digits2_range in Hrange.
    unfold SpecFloat.emin, emax, prec. lia.
  - assumption.
  - now rewrite Hxe, HME.
Qed.

Lemma binary_round_repr (mx : positive) (ex : Z) (M : positive) (E : Z) :
  SpecFloat.emin prec emax + prec <= Z.pos (digits2_pos mx) + ex < emax ->
  Z.pos (digits2_pos M) = prec ->
  (IZR (Z.pos mx) * pow2 ex = IZR (Z.pos M) * pow2 E)%R ->
  forall sx, binary_round prec emax sx mx ex = S754_finite sx M E.
Proof.
  intros Hrange HM Hv sx. unfold binary_round.
  rewrite fexp_normal by lia.
  pose proof (shl_align_spec mx ex (Z.pos (digits2_pos mx) + ex - prec)) as Hs.
  destruct (shl_align mx ex _) as [mz ez]. destruct Hs as (Hez & Hmz & Hdz).
  assert (Hvz : (IZR (Z.pos mz) * pow2 ez = IZR (Z.pos mx) * pow2 ex)%R).
  { rewrite Hmz, mult_IZR, <- pow2_IZR by lia.
    rewrite Rmult_assoc, <- pow2_add. do 2 f_equal. lia. }
  apply (binary_round_aux_repr mz ez loc_Exact (IZR (Z.pos mz)));
    [reflexivity|lia|lia|assumption|congruence].
Qed.

(** A sum that is representable is computed exactly. *)
Lemma fadd_exact (sx : bool) (mx : positive) (ex : Z)
  (sy : bool) (my : positive) (ey : Z) (t : number) :
  let x := S754_finite sx mx ex in
  let y := S754_finite sy my ey in
  in_range (val x + val y) ->
  canonical t -> val t = (val x + val y)%R ->
  fadd x y = t.
Proof.
  intros x y. unfold x, y, fadd. cbn [SFadd]. rewrite !val_finite.
  set (ez := Z.min ex ey).
  set (z := cond_Zopp sx (Z.pos (fst (shl_align mx ex ez))) +
            cond_Zopp sy (Z.pos (fst (shl_align my ey ez)))).
  assert (Hz : (IZR z * pow2 ez =
                sgn sx * (IZR (Z.pos mx) * pow2 ex) +
                sgn sy * (IZR (Z.pos my) * pow2 ey))%R).
  { unfold z. rewrite plus_IZR, !IZR_cond_Zopp.
    rewrite <- (aligned_value mx ex ez), <- (aligned_value my ey ez)
      by (unfold ez; lia). ring. }
  rewrite <- Hz. clearbody z. intros Hr Ht Hv.
  assert (H : forall (s : bool) (m : positive),
            in_range (sgn s * (IZR (Z.pos m) * pow2 ez)) ->
            val t = (sgn s * (IZR (Z.pos m) * pow2 ez))%R ->
            binary_round prec emax s m ez = t).
  { intros s m Hm Hvt. unfold in_range in Hm.
    pose proof (mag_pos m ez) as Hpos.
    rewrite Rabs_sgn, Rabs_pos_eq in Hm by lra.
    destruct (canonical_target t s _ Ht Hpos Hvt) as (M & E & -> & HM & HME).
    apply binary_round_repr; [|assumption|now rewrite HME].
    apply digits2_range in Hm. unfold SpecFloat.emin, emax, prec. lia. }
  destruct z as [|m|m]; cbn [binary_normalize].
  - exfalso. unfold in_range in Hr. rewrite Rmult_0_l, Rabs_R0 in Hr.
    pose proof (pow2_pos (-1000)). lra.
  - apply (H false m); cbn [sgn]; rewrite Rmult_1_l; assumption.
  - apply (H true m); cbn [sgn];
      change (Z.neg m) with (- Z.pos m) in *; rewrite opp_IZR in *;
      replace (-1 * (IZR (Z.pos m) * pow2 ez))%R
        with (- IZR (Z.pos m) * pow2 ez)%R by ring; assumption.
Qed.

(** ** Whole numbers *)

Lemma int_in_range (z : Z) : z <> 0 -> Z.abs z < 2 ^ prec -> in_range (IZR z).
Proof.
  intros Hz Hb. apply money_in_range.
  assert (H1 : 1 <= Z.abs z) by lia. assert (H2 : Z.abs z <= 2 ^ 60)
    by (unfold prec in Hb; lia).
  apply IZR_le in H1, H2. rewrite abs_IZR in H1, H2. lra.
Qed.

Lemma of_Z_pos (n : Z) :
  0 < n < 2 ^ prec ->
  exists m e, of_Z n = S754_finite false m e /\
              Z.pos (digits2_pos m) = prec /\
              (IZR (Z.pos m) * pow2 e = IZR n)%R.
Proof.
  intros Hn. destruct (of_Z_spec n) as [Hc Hv]; [lia..|].
  apply (canonical_target _ false (IZR n) Hc).
  - apply (IZR_lt 0). lia.
  - rewrite Hv. cbn [sgn]. ring.
Qed.

Lemma fadd_of_Z (a b : Z) :
  Z.abs a < 2 ^ prec -> Z.abs b < 2 ^ prec -> Z.abs (a + b) < 2 ^ prec ->
  fadd (of_Z a) (of_Z b) = of_Z (a + b).
Proof.
  intros Ha Hb Hab.
  destruct (Z.eq_dec a 0) as [->|Ha0]; [|destruct (Z.eq_dec b 0) as [->|Hb0]].
  - change (of_Z 0) with zero. destruct (Z.eq_dec b 0) as [->|Hb0];
      [reflexivity|]. apply fadd_zero_l. now apply of_Z_spec.
  - change (of_Z 0) with zero. rewrite Z.add_0_r.
    apply fadd_zero_r. now apply of_Z_spec.
  - destruct (of_Z_spec a Ha0 Ha) as [Hca Hva].
    destruct (of_Z_spec b Hb0 Hb) as [Hcb Hvb].
    destruct (canonical_finite _ Hca) as (sa & ma & ea & Ea).
    destruct (canonical_finite _ Hcb) as (sb & mb & eb & Eb).
    rewrite Ea, Eb in *.
    destruct (Z.eq_dec (a + b) 0) as [E0|Hne].
    + rewrite E0. apply (fadd_spec sa ma ea sb mb eb).
      rewrite Hva, Hvb, <- plus_IZR, E0. reflexivity.
    + destruct (of_Z_spec (a + b) Hne Hab) as [Hc Hv].
      apply fadd_exact; rewrite ?Hva, ?Hvb, <- ?plus_IZR;
        [now apply int_in_range|assumption|assumption].
Qed.

Lemma fsub_of_Z (a b : Z) :
  Z.abs a < 2 ^ prec -> Z.abs b < 2 ^ prec -> Z.abs (a - b) < 2 ^ prec ->
  fsub (of_Z a) (of_Z b) = of_Z (a - b).
Proof.
  intros Ha Hb Hab. rewrite fsub_fadd_opp.
  destruct (Z.eq_dec b 0) as [->|Hb0].
  - change (SFopp (of_Z 0)) with (S754_zero true). rewrite Z.sub_0_r.
    destruct (Z.eq_dec a 0) as [->|Ha0]; [reflexivity|].
    apply fadd_zero_r. now apply of_Z_spec.
  - rewrite <- of_Z_opp by assumption.
    replace (a - b) with (a + - b) in * by lia. apply fadd_of_Z; lia.
Qed.

Lemma fmul_of_Z (a b : Z) :
  a <> 0 -> b <> 0 -> Z.abs (a * b) < 2 ^ prec ->
  fmul (of_Z a) (of_Z b) = of_Z (a * b).
Proof.
  intros Ha Hb Hab.
  assert (Z.abs a < 2 ^ prec /\ Z.abs b < 2 ^ prec) as [Ha' Hb'] by nia.
  destruct (of_Z_spec a Ha Ha') as [Hca Hva].
  destruct (of_Z_spec b Hb Hb') as [Hcb Hvb].
  destruct (of_Z_spec (a * b)) as [Hc Hv]; [lia|assumption|].
  destruct (canonical_finite _ Hca) as (sa & ma & ea & Ea).
  apply (fmul_exact _ _ _ sa ma ea Ea Hcb); rewrite ?Hva, ?Hvb, <- ?mult_IZR;
    [apply int_in_range; [lia|assumption]|assumption|assumption].
Qed.

Lemma mantissa_bounds (m : positive) :
  Z.pos (digits2_pos m) = prec ->
  (IZR (2 ^ 52) <= IZR (Z.pos m) < IZR (2 ^ 53))%R.
Proof.
  intros Hd. pose proof (digits2_bounds m) as [Hlo Hhi].
  rewrite Hd in Hlo, Hhi. split; [apply IZR_le|apply IZR_lt]; assumption.
Qed.

(** [Math.floor] of a number of moderate size is the integer below it. *)
Lemma Math_floor_spec (s : bool) (m : positive) (e q : Z) :
  Z.pos (digits2_pos m) = prec ->
  (IZR q <= val (S754_finite s m e) < IZR q + 1)%R ->
  Z.abs q < 2 ^ 51 ->
  Math_floor (S754_finite s m e) = if Z.eqb q 0 then S754_zero s else of_Z q.
Proof.
  intros Hd Hq Hb. pose proof (mantissa_bounds m Hd) as [Hm _].
  assert (Hqb : (- IZR (2 ^ 51) < IZR q < IZR (2 ^ 51))%R).
  { split; [rewrite <- opp_IZR|]; apply IZR_lt; lia. }
  assert (H51 : (IZR (2 ^ 52) = 2 * IZR (2 ^ 51))%R)
    by (rewrite <- mult_IZR; reflexivity).
  assert (H51' : (1 <= IZR (2 ^ 51))%R) by (apply (IZR_le 1); lia).
  rewrite val_finite in Hq.
  destruct e as [|p|k].
  - exfalso. rewrite pow2_0 in Hq. destruct s; cbn [sgn] in Hq; lra.
  - exfalso. assert (Hp : (1 <= pow2 (Z.pos p))%R).
    { rewrite <- pow2_0. apply pow2_le. lia. }
    destruct s; cbn [sgn] in Hq; nra.
  - cbn [Math_floor].
    assert (E : Z.shiftr (signed s m) (Z.pos k) = q).
    { rewrite Z.shiftr_div_pow2 by lia.
      assert (HP : 0 < 2 ^ Z.pos k) by lia.
      assert (HPr : (0 < IZR (2 ^ Z.pos k))%R) by (apply (IZR_lt 0); lia).
      change (Z.neg k) with (- Z.pos k) in Hq.
      rewrite pow2_opp, pow2_IZR in Hq by lia.
      replace (sgn s * (IZR (Z.pos m) * / IZR (2 ^ Z.pos k)))%R
        with (IZR (signed s m) / IZR (2 ^ Z.pos k))%R in Hq.
      2:{ destruct s; cbn [sgn signed];
            change (Z.neg m) with (- Z.pos m); rewrite ?opp_IZR; field; lra. }
      destruct Hq as [Hlo Hhi].
      assert (Hlo' : q * 2 ^ Z.pos k <= signed s m).
      { apply le_IZR. rewrite mult_IZR.
        apply (Rmult_le_compat_r (IZR (2 ^ Z.pos k))) in Hlo; [|lra].
        unfold Rdiv in Hlo. rewrite Rmult_assoc, Rinv_l, Rmult_1_r in Hlo by lra.
        assumption. }
      assert (Hhi' : signed s m < (q + 1) * 2 ^ Z.pos k).
      { apply lt_IZR. rewrite mult_IZR, plus_IZR.
        apply (Rmult_lt_compat_r (IZR (2 ^ Z.pos k))) in Hhi; [|lra].
        unfold Rdiv in Hhi. rewrite Rmult_assoc, Rinv_l, Rmult_1_r in Hhi by lra.
        assumption. }
      symmetry. apply (Z.div_unique_pos _ _ _ (signed s m - q * 2 ^ Z.pos k));
        lia. }
    now rewrite E.
Qed.

Lemma ratio_in_range (T n : Z) :
  T <> 0 -> Z.abs T <= 2 ^ 48 -> 0 < n <= 2 ^ 48 ->
  in_range (IZR T / IZR n).
Proof.
  intros HT HTb Hn. unfold in_range.
  assert (Hn0 : (0 < IZR n)%R) by (apply (IZR_lt 0); lia).
  assert (Hn1 : (1 <= IZR n)%R) by (apply (IZR_le 1); lia).
  assert (Hn2 : (IZR n <= IZR (2 ^ 48))%R) by (apply IZR_le; lia).
  assert (HT1 : (1 <= Rabs (IZR T))%R) by now apply Rabs_IZR_nonzero.
  assert (HT2 : (Rabs (IZR T) <= IZR (2 ^ 48))%R) by now apply Rabs_IZR_le.
  unfold Rdiv. rewrite Rabs_mult, (Rabs_pos_eq (/ IZR n))
    by (left; now apply Rinv_0_lt_compat).
  assert (Hlo : (pow2 (-1000) <= / IZR (2 ^ 48))%R).
  { change (-1000) with (- (1000)). rewrite pow2_opp, (pow2_IZR 1000) by lia.
    apply Rinv_le_contravar; [apply (IZR_lt 0); lia|apply IZR_le; lia]. }
  assert (Hhi : (IZR (2 ^ 48) < pow2 1000)%R).
  { rewrite (pow2_IZR 1000) by lia. apply IZR_lt. lia. }
  assert (Hinv : (/ IZR (2 ^ 48) <= / IZR n <= 1)%R).
  { split.
    - apply Rinv_le_contravar; assumption.
    - rewrite <- Rinv_1. apply Rinv_le_contravar; lra. }
  assert (0 < / IZR (2 ^ 48))%R
    by (apply Rinv_0_lt_compat, (IZR_lt 0); lia).
  split; nra.
Qed.

(** The floor of the rounded quotient of two whole numbers is their integer
    quotient. *)
Lemma floor_fdiv_of_Z (T n : Z) :
  T <> 0 -> Z.abs T <= 2 ^ 48 -> 0 < n <= 2 ^ 48 ->
  Math_floor (fdiv (of_Z T) (of_Z n)) = of_Z (T / n).
Proof.
  intros HT HTb Hn.
  destruct (of_Z_spec T HT) as [HcT HvT]; [unfold prec; lia|].
  destruct (of_Z_spec n) as [Hcn Hvn]; [lia|unfold prec; lia|].
  pose proof (ratio_in_range T n HT HTb Hn) as Hr.
  pose proof (Z.div_mod T n ltac:(lia)) as Hdiv.
  pose proof (Z.mod_pos_bound T n ltac:(lia)) as Hmod.
  set (q := T / n) in *. set (r := T mod n) in *.
  assert (Hn0 : (0 < IZR n)%R) by (apply (IZR_lt 0); lia).
  assert (Hq : Z.abs q < 2 ^ 51) by (unfold q; nia).
  assert (Hv : (IZR T / IZR n = IZR q + IZR r / IZR n)%R).
  { rewrite Hdiv, plus_IZR, mult_IZR. field. lra. }
  destruct (Z.eq_dec r 0) as [Hr0|Hr0].
  - (* the quotient is whole *)
    assert (Hq0 : q <> 0) by nia.
    destruct (of_Z_spec q Hq0) as [Hcq Hvq]; [unfold prec; lia|].
    rewrite (fdiv_exact (of_Z T) (of_Z n) (of_Z q)); try assumption.
    + destruct (canonical_finite _ Hcq) as (s & m & e & E). rewrite E in *.
      rewrite (Math_floor_spec s m e q Hcq); [|rewrite Hvq; lra|assumption].
      now destruct (Z.eqb_spec q 0).
    + now rewrite HvT, Hvn.
    + rewrite HvT, Hvn, Hvq, Hv, Hr0. unfold Rdiv. ring.
  - destruct (fdiv_spec (of_Z T) (of_Z n) HcT Hcn) as [Hc Herr];
      [now rewrite HvT, Hvn|].
    rewrite HvT, Hvn in Herr.
    destruct (canonical_finite _ Hc) as (s & m & e & E). rewrite E in *.
    set (y := val (S754_finite s m e)) in *.
    (* the error is below [1/n] *)
    assert (Hd : (Rabs (y - IZR T / IZR n) * IZR n <= / 32)%R).
    { rewrite unit_roundoff in Herr.
      assert (HTr : (Rabs (IZR T) <= IZR (2 ^ 48))%R) by now apply Rabs_IZR_le.
      unfold Rdiv in Herr at 2. rewrite Rabs_mult in Herr.
      rewrite (Rabs_pos_eq (/ IZR n)) in Herr
        by (left; now apply Rinv_0_lt_compat).
      apply (Rmult_le_compat_r (IZR n)) in Herr; [|lra].
      replace (/ IZR (2 ^ 53) * (Rabs (IZR T) * / IZR n) * IZR n)%R
        with (/ IZR (2 ^ 53) * Rabs (IZR T))%R in Herr by (field; lra).
      assert (H53 : (IZR (2 ^ 53) = 32 * IZR (2 ^ 48))%R)
        by (rewrite <- mult_IZR; reflexivity).
      assert (H48 : (0 < IZR (2 ^ 48))%R) by (apply (IZR_lt 0); lia).
      assert (/ IZR (2 ^ 53) * Rabs (IZR T) <= / 32)%R.
      { rewrite H53. rewrite Rinv_mult.
        assert (/ IZR (2 ^ 48) * Rabs (IZR T) <= 1)%R.
        { apply (Rmult_le_reg_l (IZR (2 ^ 48))); [assumption|].
          rewrite <- Rmult_assoc, Rinv_r, Rmult_1_l, Rmult_1_r by lra.
          assumption. }
        pose proof (Rabs_pos (IZR T)). nra. }
      lra. }
    assert (Hr1 : (1 <= IZR r <= IZR n - 1)%R).
    { split; [apply (IZR_le 1); lia|]. rewrite <- minus_IZR. apply IZR_le. lia. }
    assert (Hy : (IZR q < y < IZR q + 1)%R).
    { pose proof (Rabs_interval _ _ (Rle_refl (Rabs (y - IZR T / IZR n))))
        as [Hlo Hhi].
      set (d := Rabs (y - IZR T / IZR n)) in *.
      assert (Hy' : (y * IZR n = IZR q * IZR n + IZR r
                                 + (y - IZR T / IZR n) * IZR n)%R).
      { rewrite Hv. field. lra. }
      split.
      - apply (Rmult_lt_reg_r (IZR n)); [assumption|]. nra.
      - apply (Rmult_lt_reg_r (IZR n)); [assumption|]. nra. }
    rewrite (Math_floor_spec s m e q Hc); [|fold y; lra|assumption].
    destruct (Z.eqb_spec q 0) as [Hq0|Hq0]; [|reflexivity].
    rewrite Hq0 in *. unfold y in Hy. rewrite val_finite in Hy.
    pose proof (mag_pos m e).
    destruct s; cbn [sgn] in Hy; [lra|reflexivity].
Qed.

Lemma binade (m : positive) (e : Z) :
  Z.pos (digits2_pos m) = prec ->
  (pow2 (52 + e) <= IZR (Z.pos m) * pow2 e < pow2 (53 + e))%R.
Proof.
  intros Hd. pose proof (mantissa_bounds m Hd) as [Hlo Hhi].
  rewrite <- pow2_IZR in Hlo, Hhi by lia.
  pose proof (pow2_pos e). rewrite !pow2_add. nra.
Qed.

(** Comparing positive numbers with full mantissas compares their values. *)
Lemma flt_positive (m1 m2 : positive) (e1 e2 : Z) :
  Z.pos (digits2_pos m1) = prec -> Z.pos (digits2_pos m2) = prec ->
  (flt (S754_finite false m1 e1) (S754_finite false m2 e2) = true <->
   (IZR (Z.pos m1) * pow2 e1 < IZR (Z.pos m2) * pow2 e2)%R).
Proof.
  intros H1 H2. pose proof (binade m1 e1 H1) as B1.
  pose proof (binade m2 e2 H2) as B2.
  unfold flt, SFltb. cbn [SFcompare].
  destruct (Z.compare_spec e1 e2) as [E|E|E].
  - subst e2. pose proof (pow2_pos e1) as Hp.
    change (Pos.compare_cont Eq m1 m2) with (Pos.compare m1 m2).
    destruct (Pos.compare_spec m1 m2) as [C|C|C].
    + subst m2. split; [discriminate|lra].
    + split; [intros _|reflexivity].
      apply Rmult_lt_compat_r; [assumption|]. apply IZR_lt. lia.
    + split; [discriminate|]. intros H. exfalso.
      apply Rmult_lt_reg_r in H; [|assumption]. apply lt_IZR in H. lia.
  - split; [intros _|reflexivity].
    assert (pow2 (53 + e1) <= pow2 (52 + e2))%R by (apply pow2_le; lia). lra.
  - split; [discriminate|]. intros H. exfalso.
    assert (pow2 (53 + e2) <= pow2 (52 + e1))%R by (apply pow2_le; lia). lra.
Qed.

Lemma flt_of_Z (a b : Z) :
  0 <= a < 2 ^ prec -> 0 <= b < 2 ^ prec ->
  flt (of_Z a) (of_Z b) = (a <? b).
Proof.
  intros Ha Hb.
  destruct (Z.eq_dec a 0) as [->|Ha0], (Z.eq_dec b 0) as [->|Hb0].
  - reflexivity.
  - destruct (of_Z_pos b) as (m & e & -> & _); [lia|].
    symmetry. apply Z.ltb_lt. lia.
  - destruct (of_Z_pos a) as (m & e & -> & _); [lia|].
    symmetry. apply Z.ltb_ge. lia.
  - destruct (of_Z_pos a) as (m1 & e1 & -> & H1 & V1); [lia|].
    destruct (of_Z_pos b) as (m2 & e2 & -> & H2 & V2); [lia|].
    pose proof (flt_positive m1 m2 e1 e2 H1 H2) as H. rewrite V1, V2 in H.
    destruct (Z.ltb_spec a b) as [L|L].
    + apply H. now apply IZR_lt.
    + destruct (flt _ _); [|reflexivity].
      destruct H as [H _]. specialize (H eq_refl). apply lt_IZR in H. lia.
Qed.

(** ** Equal splits in whole cents *)

Lemma totalCents_shape (amount : number) (T : Z) :
  cents amount = Some T ->
  exists s, Math_round (fmul amount hundred)
            = if Z.eqb T 0 then S754_zero s else of_Z T.
Proof.
  unfold cents.
  destruct (fmul amount hundred) as [s|s| |s m [|p|k]]; try discriminate;
    intros [= <-]; exists s; reflexivity.
Qed.

Lemma flt_of_Z_zero (i : Z) (s : bool) :
  0 <= i < 2 ^ prec -> flt (of_Z i) (S754_zero s) = false.
Proof.
  intros Hi. destruct (Z.eq_dec i 0) as [->|Hi0]; [reflexivity|].
  now destruct (of_Z_pos i) as (m & e & -> & _); [lia|].
Qed.

Lemma equal_share_number (s : bool) (T n : Z) (i : nat) :
  Z.abs T <= 2 ^ 48 -> 0 < n <= 2 ^ 48 -> Z.of_nat i < n ->
  let totalCents := if Z.eqb T 0 then S754_zero s else of_Z T in
  let shareCents := Math_floor (fdiv totalCents (of_Z n)) in
  let remainder := fsub totalCents (fmul shareCents (of_Z n)) in
  fdiv (fadd shareCents
          (if flt (of_Z (Z.of_nat i)) remainder then one else zero)) hundred
  = dec (equal_share T n i).
Proof.
  intros HT Hn Hi. unfold equal_share.
  destruct (Z.eqb_spec T 0) as [->|HT0]; cbv zeta.
  - destruct (of_Z_pos n) as (m & e & -> & _); [unfold prec; lia|].
    rewrite Z.div_0_l, Z.mod_0_l by lia.
    replace (Z.of_nat i <? 0) with false by (symmetry; apply Z.ltb_ge; lia).
    assert (Hz : forall s', flt (of_Z (Z.of_nat i)) (S754_zero s') = false)
      by (intros s'; apply flt_of_Z_zero; unfold prec; lia).
    destruct s; cbn [fdiv SFdiv Math_floor fmul SFmul fsub SFsub xorb];
      rewrite Hz; reflexivity.
  - pose proof (Z.div_mod T n ltac:(lia)) as Hdiv.
    pose proof (Z.mod_pos_bound T n ltac:(lia)) as Hmod.
    rewrite floor_fdiv_of_Z by assumption.
    set (q := T / n) in *. set (r := T mod n) in *.
    assert (Hqn : Z.abs (q * n) < 2 ^ 50) by nia.
    assert (Hq : Z.abs q < 2 ^ 50) by nia.
    assert (Hmul : fmul (of_Z q) (of_Z n) = of_Z (q * n)).
    { destruct (Z.eq_dec q 0) as [->|Hq0].
      - destruct (of_Z_pos n) as (m & e & -> & _); [unfold prec; lia|].
        reflexivity.
      - apply fmul_of_Z; [assumption|lia|unfold prec; lia]. }
    rewrite Hmul, fsub_of_Z by (unfold prec; lia).
    replace (T - q * n) with r by lia.
    rewrite flt_of_Z by (unfold prec; lia).
    change one with (of_Z 1). change zero with (of_Z 0).
    replace (if Z.of_nat i <? r then of_Z 1 else of_Z 0)
      with (of_Z (if Z.of_nat i <? r then 1 else 0))
      by now destruct (Z.of_nat i <? r).
    rewrite fadd_of_Z; [reflexivity|unfold prec..];
      destruct (Z.of_nat i <? r); lia.
Qed.

Lemma buildEqualSplits_shape (amount : number) (ids : list string) (T : Z) :
  cents amount = Some T -> Z.abs T <= budget ->
  Z.of_nat (length ids) <= budget ->
  buildEqualSplits amount ids =
  imap (fun i id =>
          {| userId := id;
             split_amount := dec (equal_share T (Z.of_nat (length ids)) i) |})
       ids.
Proof.
  intros HT Hb Hn. destruct (totalCents_shape amount T HT) as [s Hs].
  unfold buildEqualSplits. rewrite Hs.
  destruct ids as [|id0 ids']; [reflexivity|].
  set (ids := id0 :: ids') in *.
  apply imap_ext. intros i id Hi. apply lookup_lt_Some in Hi.
  f_equal. apply equal_share_number; unfold budget in *; [assumption| |lia].
  subst ids. cbn [length] in *. lia.
Qed.

(** The cents of an amount are the integer nearest to the computed
    hundredfold, the upper one of two that are equally near. *)
Lemma cents_nearest (x : number) (T : Z) :
  cents x = Some T ->
  (IZR T - / 2 <= val (fmul x hundred) < IZR T + / 2)%R.
Proof.
  unfold cents.
  destruct (fmul x hundred) as [s|s| |s m [|p|k]]; try discriminate;
    intros [= <-].
  - cbn [val]. lra.
  - pose proof (shiftr_nearest (signed s m) (Z.pos k) ltac:(lia)) as H.
    cbv zeta in H.
    set (n := Z.shiftr (signed s m + Z.shiftl 1 (Z.pos k - 1)) (Z.pos k)) in *.
    cbn [val]. change (Z.neg k) with (- Z.pos k).
    rewrite pow2_opp, pow2_IZR by lia.
    destruct H as [H1 H2]. apply IZR_le in H1. apply IZR_lt in H2.
    rewrite !mult_IZR in H1, H2.
    rewrite minus_IZR, mult_IZR in H1. rewrite plus_IZR, mult_IZR in H2.
    assert (HP : (0 < IZR (2 ^ Z.pos k))%R) by (apply (IZR_lt 0); lia).
    set (P := IZR (2 ^ Z.pos k)) in *.
    split.
    + apply (Rmult_le_reg_r P); [assumption|].
      rewrite Rmult_assoc, Rinv_l by lra. lra.
    + apply (Rmult_lt_reg_r P); [assumption|].
      rewrite Rmult_assoc, Rinv_l by lra. lra.
Qed.

(** C7. The split at position [i] goes to the [i]-th participant and is
    [(shareCents + (i < remainder ? 1 : 0)) / 100] for the total, the share
    and the remainder of the specification, as numbers.  In whole cents,
    for an amount of [T] cents, [|T| <= 2^48], and at most 2^48
    participants: [T] is the integer nearest to the computed [amount * 100]
    (the upper one on a tie), the share is the integer quotient of [T] by
    the number of participants rounded down, the remainder is what is left
    of [T], between 0 and the number of participants, and the split is the
    double nearest to [(share + 1) / 100] at the positions below the
    remainder and to [share / 100] at the others. *)
Theorem buildEqualSplits_shares (amount : number) (ids : list string)
  (i : nat) (id : string) :
  ids !! i = Some id ->
  (let n := of_Z (Z.of_nat (length ids)) in
   let totalCents := Math_round (fmul amount hundred) in
   let shareCents := Math_floor (fdiv totalCents n) in
   let remainder := fsub totalCents (fmul shareCents n) in
   length (buildEqualSplits amount ids) = length ids /\
   buildEqualSplits amount ids !! i =
   Some {| userId := id;
           split_amount :=
             fdiv (fadd shareCents
                     (if flt (of_Z (Z.of_nat i)) remainder then one else zero))
                  hundred |}) /\
  (forall T : Z,
   cents amount = Some T -> Z.abs T <= budget ->
   Z.of_nat (length ids) <= budget ->
   let n := Z.of_nat (length ids) in
   let shareCents := T / n in
   let remainder := T - shareCents * n in
   (IZR T - / 2 <= val (fmul amount hundred) < IZR T + / 2)%R /\
   0 <= remainder < n /\
   buildEqualSplits amount ids !! i =
   Some {| userId := id;
           split_amount :=
             dec (shareCents + (if Z.of_nat i <? remainder then 1 else 0)) |}).
Proof.
  intros Hi. split.
  - unfold buildEqualSplits.
    destruct ids as [|id0 ids]; [discriminate|].
    cbv zeta. split.
    + apply length_imap.
    + rewrite list_lookup_imap, Hi. reflexivity.
  - intros T HT Hb Hn n shareCents remainder.
    assert (Hn0 : 0 < n).
    { apply lookup_lt_Some in Hi. subst n. lia. }
    assert (Er : remainder = T mod n).
    { subst remainder shareCents. rewrite Z.mod_eq by lia. lia. }
    split; [now apply cents_nearest|].
    split; [rewrite Er; apply Z.mod_pos_bound; lia|].
    rewrite (buildEqualSplits_shape amount ids T) by assumption.
    rewrite list_lookup_imap, Hi, Er. reflexivity.
Qed.

(** The example of the specification: 100 over a, b, c. *)
Lemma buildEqualSplits_shares_witness :
  buildEqualSplits (of_Z 100) ["a"; "b"; "c"] !! 0%nat
  = Some (share "a" (dec 3334)) /\
  buildEqualSplits (of_Z 100) ["a"; "b"; "c"] !! 1%nat
  = Some (share "b" (dec 3333)) /\
  buildEqualSplits (of_Z 100) ["a"; "b"; "c"] !! 2%nat
  = Some (share "c" (dec 3333)).
Proof.
  assert (HT : cents (of_Z 100) = Some 10000) by (vm_compute; reflexivity).
  assert (Hb : Z.abs 10000 <= budget) by (vm_compute; discriminate).
  assert (Hn : Z.of_nat (length ["a"; "b"; "c"]) <= budget)
    by (vm_compute; discriminate).
  conjuncts.
  - destruct (buildEqualSplits_shares (of_Z 100) ["a"; "b"; "c"] 0 "a" eq_refl)
      as [_ H]. destruct (H 10000 HT Hb Hn) as (_ & _ & ->). reflexivity.
  - destruct (buildEqualSplits_shares (of_Z 100) ["a"; "b"; "c"] 1 "b" eq_refl)
      as [_ H]. destruct (H 10000 HT Hb Hn) as (_ & _ & ->). reflexivity.
  - destruct (buildEqualSplits_shares (of_Z 100) ["a"; "b"; "c"] 2 "c" eq_refl)
      as [_ H]. destruct (H 10000 HT Hb Hn) as (_ & _ & ->). reflexivity.
Defined.

(** The amount is rounded to cents first: a third gives 33 cents, and an
    eighth, half way between 12 and 13 cents, gives 13 cents, 7 for the
    first of two participants and 6 for the second. *)
Example buildEqualSplits_rounds_first :
  buildEqualSplits (fdiv one (of_Z 3)) ["a"] = [share "a" (dec 33)] /\
  buildEqualSplits (fdiv one (of_Z 8)) ["a"; "b"]
  = [share "a" (dec 7); share "b" (dec 6)].
Proof. evaluate. Qed.

Lemma sumZ_equal_shares {A : Type} (q r : Z) (l : list A) :
  0 <= r ->
  sumZ (imap (fun i _ => q + (if Z.of_nat i <? r then 1 else 0)) l)
  = q * Z.of_nat (length l) + Z.min r (Z.of_nat (length l)).
Proof.
  intros Hr. induction l as [|x l IH] using rev_ind; [cbn; lia|].
  rewrite imap_app, sumZ_app, IH, length_app. cbn [imap sumZ length].
  rewrite Nat.add_0_r.
  destruct (Z.ltb_spec (Z.of_nat (length l)) r); lia.
Qed.

Lemma equal_share_bound (T n : Z) (i : nat) :
  0 < n -> Z.abs (equal_share T n i) <= Z.abs T + 1.
Proof.
  intros Hn. unfold equal_share.
  pose proof (Z.div_mod T n ltac:(lia)).
  pose proof (Z.mod_pos_bound T n ltac:(lia)).
  destruct (Z.of_nat i <? T mod n); nia.
Qed.

(** X17.  For an amount of [T] cents, [|T| <= 2^48], and at most 2^48
    participants, the floating-point computation of [buildEqualSplits] is
    exact: participant [i] of [n] gets the double nearest to
    [(T div n + (i < T mod n ? 1 : 0)) / 100]. *)
Theorem buildEqualSplits_exact (amount : number) (ids : list string) (T : Z) :
  cents amount = Some T -> Z.abs T <= budget ->
  Z.of_nat (length ids) <= budget ->
  buildEqualSplits amount ids =
  imap (fun i id =>
          {| userId := id;
             split_amount := dec (equal_share T (Z.of_nat (length ids)) i) |})
       ids.
Proof. apply buildEqualSplits_shape. Qed.

Lemma buildEqualSplits_exact_witness :
  buildEqualSplits (dec 1000) ["a"; "b"; "c"] =
  [share "a" (dec 334); share "b" (dec 333); share "c" (dec 333)].
Proof.
  apply (buildEqualSplits_exact (dec 1000) ["a"; "b"; "c"] 1000);
    vm_compute; congruence.
Defined.

Lemma equal_split_covered (amount : number) (ids : list string) (T : Z) :
  cents amount = Some T -> Z.abs T <= budget ->
  Z.of_nat (length ids) <= budget -> ids <> [] ->
  sumZ (map (fun s => cents0 (split_amount s)) (buildEqualSplits amount ids))
  = T.
Proof.
  intros HT Hb Hn Hne. rewrite (buildEqualSplits_shape amount ids T) by assumption.
  set (n := Z.of_nat (length ids)) in *.
  assert (Hn0 : 0 < n) by (destruct ids; [congruence|cbn [length] in n; lia]).
  assert (E : map (fun s => cents0 (split_amount s))
                (imap (fun i id => {| userId := id;
                         split_amount := dec (equal_share T n i) |}) ids)
              = imap (fun i _ => T / n
                        + (if Z.of_nat i <? T mod n then 1 else 0)) ids).
  { change (map ?f ?l) with (f <$> l). rewrite fmap_imap.
    apply imap_ext. intros i id _. unfold compose, cents0. cbn [split_amount].
    destruct (round2_dec (equal_share T n i)) as [_ ->]; [|reflexivity].
    pose proof (equal_share_bound T n i Hn0). unfold budget in Hb. lia. }
  rewrite E, sumZ_equal_shares by (apply Z.mod_pos_bound; lia).
  fold n. pose proof (Z.div_mod T n ltac:(lia)).
  pose proof (Z.mod_pos_bound T n ltac:(lia)). lia.
Qed.

(** X18.  Within the same bounds and with at least one participant, the
    cents of the splits of [buildEqualSplits] add up to the cents of the
    amount: an equal split covers its expense, cent for cent. *)
Theorem buildEqualSplits_cents_add_up (amount : number) (ids : list string)
  (T : Z) :
  cents amount = Some T -> Z.abs T <= budget ->
  Z.of_nat (length ids) <= budget -> ids <> [] ->
  sumZ (map (fun s => cents0 (split_amount s)) (buildEqualSplits amount ids))
  = T.
Proof. apply equal_split_covered. Qed.

Lemma buildEqualSplits_cents_add_up_witness :
  sumZ (map (fun s => cents0 (split_amount s))
          (buildEqualSplits (dec 30) ["a"; "b"; "c"])) = 30.
Proof.
  apply (buildEqualSplits_cents_add_up (dec 30) ["a"; "b"; "c"] 30);
    vm_compute; congruence.
Defined.

(** X16.  [buildEqualSplits] returns one split for every participant, in
    the order of the participants, for every amount. *)
Theorem buildEqualSplits_participants (amount : number) (ids : list string) :
  map userId (buildEqualSplits amount ids) = ids.
Proof.
  unfold buildEqualSplits. destruct ids as [|id0 ids']; [reflexivity|].
  generalize (id0 :: ids'). intros ids.
  change (map ?f ?l) with (f <$> l). rewrite fmap_imap.
  unfold compose. cbn [userId].
  induction ids as [|x l IH] using rev_ind; [reflexivity|].
  rewrite imap_app. cbn [imap]. f_equal.
  rewrite <- IH at 2. apply imap_ext. reflexivity.
Qed.

(** * Totals in whole cents *)

Lemma near_budget (B k : Z) :
  0 <= B -> 0 <= k -> k * (2 * B + 1) <= 2 ^ 51 ->
  (0 <= IZR k * (/ IZR (2 ^ 53) * (2 * IZR B + 1)) <= / 4)%R.
Proof.
  intros HB Hk H. apply IZR_le in H, HB, Hk.
  rewrite mult_IZR, plus_IZR, mult_IZR in H.
  assert (H53 : (IZR (2 ^ 53) = 4 * IZR (2 ^ 51))%R)
    by (rewrite <- mult_IZR; reflexivity).
  assert (H51 : (0 < IZR (2 ^ 51))%R) by (apply (IZR_lt 0); lia).
  replace (IZR k * (/ IZR (2 ^ 53) * (2 * IZR B + 1)))%R
    with (IZR k * (2 * IZR B + 1) / IZR (2 ^ 53))%R by (field; lra).
  split.
  - apply Rmult_le_pos; [nra|]. left. apply Rinv_0_lt_compat. lra.
  - apply (Rmult_le_reg_r (IZR (2 ^ 53))); [lra|].
    unfold Rdiv. rewrite Rmult_assoc, Rinv_l by lra. lra.
Qed.

Lemma near_step (B k : Z) (acc x : number) (S c : Z) :
  0 <= k -> 0 <= S -> 0 <= c -> S + c <= B -> B <= 2 ^ 48 ->
  (k + 1) * (2 * B + 1) <= 2 ^ 51 ->
  cents x = Some c ->
  near B k acc S ->
  near B (k + 1) (fadd acc (round2 x)) (S + c).
Proof.
  intros Hk HS Hc HB HB48 Hcount Hx [Hzero Hpos].
  assert (HBr : (0 <= IZR B <= IZR (2 ^ 48))%R)
    by (split; apply IZR_le; lia).
  assert (HU : (0 < / IZR (2 ^ 53))%R)
    by (apply Rinv_0_lt_compat, (IZR_lt 0); lia).
  assert (H48 : (/ IZR (2 ^ 53) * IZR (2 ^ 48) = / 32)%R).
  { change (2 ^ 53) with (2 ^ 48 * 32). rewrite mult_IZR.
    assert (0 < IZR (2 ^ 48))%R by (apply (IZR_lt 0); lia).
    rewrite Rinv_mult. field. lra. }
  set (U := (/ IZR (2 ^ 53))%R) in *.
  set (W := (U * (2 * IZR B + 1))%R).
  assert (HW : (0 <= W)%R) by (unfold W; nra).
  pose proof (near_budget B k ltac:(lia) Hk ltac:(nia)) as [_ Ek].
  pose proof (near_budget B (k + 1) ltac:(lia) ltac:(lia) Hcount) as [_ Ek1].
  fold U in Ek, Ek1. fold W in Ek, Ek1. rewrite plus_IZR in Ek1.
  assert (Hmono : (IZR k * W <= (IZR k + 1) * W)%R) by nra.
  assert (Hkr : (0 <= IZR k)%R) by (apply (IZR_le 0); assumption).
  destruct (round2_shape x c Hx) as [Hnz Hz].
  destruct (Z.eq_dec c 0) as [->|Hc0].
  - (* nothing is added *)
    destruct (Hz eq_refl) as [s ->]. rewrite Z.add_0_r. split.
    + intros E. rewrite (Hzero E). now destruct s.
    + intros HS'. destruct (Hpos HS') as [Hca Hea].
      rewrite fadd_zero_r by assumption. split; [assumption|].
      rewrite plus_IZR. fold U W in Hea |- *. lra.
  - rewrite (Hnz Hc0).
    assert (Hcb : Z.abs c <= 2 ^ 50) by lia.
    destruct (dec_near c Hc0 Hcb) as [Hcc Hec]. fold U in Hec.
    assert (Hcr : (1 <= IZR c <= IZR B)%R)
      by (split; [apply (IZR_le 1)|apply IZR_le]; lia).
    rewrite (Rabs_pos_eq (IZR c)) in Hec by lra.
    assert (Hec' : (U * IZR c <= / 32)%R) by nra.
    split; [lia|]. intros _.
    destruct (Z.eq_dec S 0) as [->|HS0].
    + rewrite (Hzero eq_refl), Z.add_0_l. change zero with (S754_zero false).
      rewrite fadd_zero_l by assumption.
      split; [assumption|]. rewrite plus_IZR. fold U W.
      assert (U * IZR c <= W)%R by (unfold W; nra).
      pose proof (Rabs_pos (val (dec c) * 100 - IZR c)). nra.
    + destruct (Hpos ltac:(lia)) as [Hca Hea]. fold U W in Hea.
      destruct (canonical_finite _ Hca) as (sa & ma & ea & Ea).
      destruct (canonical_finite _ Hcc) as (sb & mb & eb & Eb).
      pose proof (fadd_spec sa ma ea sb mb eb) as [_ Hadd]. cbv zeta in Hadd.
      rewrite <- Ea, <- Eb in Hadd.
      assert (HSr : (1 <= IZR S)%R) by (apply (IZR_le 1); lia).
      assert (HSc : (IZR S + IZR c <= IZR B)%R)
        by (rewrite <- plus_IZR; apply IZR_le; lia).
      set (a := (val acc * 100)%R) in *.
      set (X := (val (dec c) * 100)%R) in *.
      apply Rabs_interval in Hea as Hea', Hec as Hec''.
      assert (Hsum : (val acc + val (dec c) = (a + X) / 100)%R)
        by (unfold a, X; field).
      assert (Hlo : (1 <= a + X)%R) by lra.
      assert (Hhi : (a + X <= IZR B + 1)%R) by lra.
      destruct Hadd as [Hcz Hez].
      { rewrite Hsum. lra. }
      { rewrite Hsum. apply money_in_range.
        rewrite Rabs_pos_eq by lra.
        assert (IZR (2 ^ 60) = 4096 * IZR (2 ^ 48))%R
          by (rewrite <- mult_IZR; reflexivity).
        split; lra. }
      split; [assumption|].
      rewrite unit_roundoff, Hsum in Hez. fold U in Hez.
      rewrite (Rabs_pos_eq ((a + X) / 100)) in Hez by lra.
      rewrite !plus_IZR. fold U W.
      replace (val (fadd acc (dec c)) * 100 - (IZR S + IZR c))%R
        with ((val (fadd acc (dec c)) - (a + X) / 100) * 100
              + (a - IZR S) + (X - IZR c))%R by field.
      eapply Rle_trans; [apply Rabs_triang|].
      eapply Rle_trans; [apply Rplus_le_compat_r, Rabs_triang|].
      rewrite Rabs_mult, (Rabs_pos_eq 100) by lra.
      assert (U * (a + X) + U * IZR c <= W)%R by (unfold W; nra).
      nra.
Qed.

Lemma near_total (B : Z) (xs : list number) :
  B <= 2 ^ 48 ->
  Forall (fun x => exists c, cents x = Some c /\ 0 <= c) xs ->
  forall (k : Z) (acc : number) (S : Z),
  0 <= k -> 0 <= S ->
  S + sumZ (map cents0 xs) <= B ->
  (k + Z.of_nat (length xs)) * (2 * B + 1) <= 2 ^ 51 ->
  near B k acc S ->
  near B (k + Z.of_nat (length xs))
    (fold_left fadd (map round2 xs) acc) (S + sumZ (map cents0 xs)).
Proof.
  intros HB Hxs.
  induction Hxs as [|x xs (c & Hx & Hc) Hxs IH]; intros k acc S Hk HS Hsum Hn Hacc.
  - cbn [map sumZ fold_left length]. now rewrite !Z.add_0_r.
  - cbn [map sumZ fold_left length] in *.
    assert (Ec : cents0 x = c) by (unfold cents0; now rewrite Hx).
    rewrite Ec in *.
    assert (Hrest : 0 <= sumZ (map cents0 xs)).
    { clear -Hxs. induction Hxs as [|y ys (d & Hy & Hd) _ IHs]; [cbn; lia|].
      cbn [map sumZ]. unfold cents0 at 1. rewrite Hy. simpl default. lia. }
    replace (k + Z.of_nat (Datatypes.S (length xs)))
      with (k + 1 + Z.of_nat (length xs)) in * by lia.
    replace (S + (c + sumZ (map cents0 xs)))
      with (S + c + sumZ (map cents0 xs)) in * by lia.
    apply IH; [lia|lia|assumption|assumption|].
    apply near_step; try assumption; try lia. nia.
Qed.

(** The rounded sum of rounded amounts that are not negative is the sum of
    their cents, when the number of amounts times the sum stays small. *)
Lemma total_in_cents (B : Z) (xs : list number) :
  B <= 2 ^ 48 ->
  Forall (fun x => exists c, cents x = Some c /\ 0 <= c) xs ->
  sumZ (map cents0 xs) <= B ->
  Z.of_nat (length xs) * (2 * B + 1) <= 2 ^ 51 ->
  round2 (fold_left fadd (map round2 xs) zero) = dec (sumZ (map cents0 xs)).
Proof.
  intros HB Hxs Hsum Hn.
  destruct (near_total B xs HB Hxs 0 zero 0) as [Hzero Hpos];
    [lia|lia|lia|lia| |].
  { split; [reflexivity|lia]. }
  rewrite !Z.add_0_l in *.
  set (S := sumZ (map cents0 xs)) in *.
  assert (HS : 0 <= S).
  { subst S. clear -Hxs. induction Hxs as [|y ys (d & Hy & Hd) _ IHs]; [cbn; lia|].
    cbn [map sumZ]. unfold cents0 at 1. rewrite Hy. simpl default. lia. }
  destruct (Z.eq_dec S 0) as [E|E].
  - rewrite (Hzero E), E. reflexivity.
  - destruct (Hpos ltac:(lia)) as [Hc Herr].
    destruct (canonical_finite _ Hc) as (s & m & e & Eacc).
    apply (round2_near _ s m e); [assumption| |assumption|lia].
    eapply Rle_trans; [exact Herr|].
    apply near_budget; lia.
Qed.

(** ** Signs *)

Lemma rounds_to_sign (y : number) (v : R) :
  rounds_to y v -> v <> 0%R ->
  exists m e, y = S754_finite (if Rlt_dec v 0 then true else false) m e.
Proof.
  intros [Hc Herr] Hv. destruct (canonical_finite _ Hc) as (s & m & e & ->).
  exists m, e. f_equal. rewrite val_finite in Herr. pose proof (mag_pos m e).
  rewrite unit_roundoff in Herr.
  assert (HU : (0 < / IZR (2 ^ 53) <= / 2)%R).
  { split; [apply Rinv_0_lt_compat, (IZR_lt 0); lia|].
    apply Rinv_le_contravar; [lra|apply (IZR_le 2); lia]. }
  set (U := (/ IZR (2 ^ 53))%R) in *.
  apply Rabs_interval in Herr.
  destruct (Rlt_dec v 0) as [Hneg|Hpos].
  - rewrite Rabs_left in Herr by assumption.
    destruct s; [reflexivity|]. cbn [sgn] in Herr. exfalso. nra.
  - assert (0 < v)%R by lra. rewrite Rabs_pos_eq in Herr by lra.
    destruct s; [|reflexivity]. cbn [sgn] in Herr. exfalso. nra.
Qed.

Lemma dec_sign (n : Z) :
  n <> 0 -> Z.abs n <= 2 ^ 50 ->
  exists m e, dec n = S754_finite (n <? 0) m e.
Proof.
  intros Hn Hb.
  destruct (rounds_to_sign (dec n) (IZR n / 100)) as (m & e & E).
  - apply dec_spec; [assumption|lia].
  - assert (IZR n <> 0)%R by now apply not_0_IZR. intros H0.
    apply H. apply (Rmult_eq_reg_r (/ 100)); lra.
  - exists m, e. rewrite E. f_equal.
    destruct (Rlt_dec (IZR n / 100) 0) as [H|H], (Z.ltb_spec n 0) as [L|L];
      try reflexivity; exfalso.
    + apply IZR_le in L. lra.
    + apply IZR_lt in L. lra.
Qed.

(** The larger of zero and an amount of [n] cents. *)
Lemma Math_max_zero_dec (n : Z) :
  Z.abs n <= 2 ^ 50 -> Math_max zero (dec n) = dec (Z.max 0 n).
Proof.
  intros Hb. destruct (Z.eq_dec n 0) as [->|Hn]; [reflexivity|].
  destruct (dec_sign n Hn Hb) as (m & e & E).
  destruct (Z.ltb_spec n 0) as [L|L].
  - rewrite Z.max_l by lia. now rewrite E.
  - rewrite Z.max_r by lia. now rewrite E.
Qed.

Lemma getBack_in_cents (P O : Z) :
  0 <= P <= budget -> 0 <= O <= budget ->
  round2 (Math_max zero (fsub (dec P) (dec O))) = dec (Z.max 0 (P - O)).
Proof.
  unfold budget. intros HP HO.
  assert (Hd : round2 (fsub (dec P) (dec O)) = dec (P - O)).
  { destruct (round2_dec O) as [Hr Hc]; [lia|].
    rewrite <- Hr at 1. apply debit_exact; unfold budget; try lia. assumption. }
  destruct (Z.eq_dec P O) as [->|Hne].
  - rewrite Z.sub_diag, Z.max_id.
    destruct (Z.eq_dec O 0) as [->|HO0]; [reflexivity|].
    rewrite fsub_fadd_opp, fadd_opp_self by (apply dec_canonical; lia).
    reflexivity.
  - assert (Hs : exists m e,
              fsub (dec P) (dec O) = S754_finite (P <? O) m e).
    { destruct (Z.eq_dec O 0) as [->|HO0].
      - change (dec 0) with (S754_zero false).
        destruct (dec_sign P) as (m & e & E); [lia..|].
        exists m, e. rewrite E.
        replace (P <? 0) with false by (symmetry; apply Z.ltb_ge; lia).
        replace (P <? 0) with false in E by (symmetry; apply Z.ltb_ge; lia).
        reflexivity.
      - rewrite fsub_fadd_opp, <- dec_opp by (unfold prec; lia).
        destruct (Z.eq_dec P 0) as [->|HP0].
        + change (dec 0) with (S754_zero false).
          rewrite fadd_zero_l by (apply dec_canonical; lia).
          destruct (dec_sign (- O)) as (m & e & E); [lia..|].
          exists m, e. rewrite E. f_equal.
          destruct (Z.ltb_spec (- O) 0), (Z.ltb_spec 0 O); lia || reflexivity.
        + destruct (dec_near P HP0 ltac:(lia)) as [HcP HeP].
          destruct (dec_near (- O) ltac:(lia) ltac:(lia)) as [HcO HeO].
          destruct (canonical_finite _ HcP) as (sa & ma & ea & Ea).
          destruct (canonical_finite _ HcO) as (sb & mb & eb & Eb).
          pose proof (fadd_spec sa ma ea sb mb eb) as [_ Hadd].
          cbv zeta in Hadd. rewrite <- Ea, <- Eb in Hadd.
          assert (HU : (0 < / IZR (2 ^ 53))%R)
            by (apply Rinv_0_lt_compat, (IZR_lt 0); lia).
          assert (H48 : (/ IZR (2 ^ 53) * IZR (2 ^ 48) = / 32)%R).
          { change (2 ^ 53) with (2 ^ 48 * 32). rewrite mult_IZR.
            assert (0 < IZR (2 ^ 48))%R by (apply (IZR_lt 0); lia).
            rewrite Rinv_mult. field. lra. }
          pose proof (Rabs_IZR_le P (2 ^ 48) ltac:(lia)) as HA.
          pose proof (Rabs_IZR_le (- O) (2 ^ 48) ltac:(lia)) as HB.
          set (U := (/ IZR (2 ^ 53))%R) in *.
          set (X := val (dec P)) in *. set (Y := val (dec (- O))) in *.
          assert (HeP' : (Rabs (X * 100 - IZR P) <= / 32)%R) by nra.
          assert (HeO' : (Rabs (Y * 100 - IZR (- O)) <= / 32)%R) by nra.
          apply Rabs_interval in HeP', HeO'.
          assert (Hdiff : (IZR P + IZR (- O) = IZR (P - O))%R)
            by (rewrite <- plus_IZR; f_equal; lia).
          assert (Hone : (1 <= Rabs (IZR (P - O)))%R)
            by (apply Rabs_IZR_nonzero; lia).
          assert (Hbig : (Rabs (IZR (P - O)) <= 2 * IZR (2 ^ 48))%R).
          { rewrite <- Hdiff. eapply Rle_trans; [apply Rabs_triang|]. lra. }
          assert (Hv : (Rabs ((X + Y) * 100 - IZR (P - O)) <= / 16)%R)
            by (apply Rabs_le; lra).
          apply Rabs_interval in Hv.
          assert (Hsign : (0 < IZR (P - O) -> 15 / 16 <= (X + Y) * 100)%R
                          /\ (IZR (P - O) < 0 -> (X + Y) * 100 <= - (15 / 16))%R).
          { split; intros Hs.
            - rewrite Rabs_pos_eq in Hone by lra. lra.
            - rewrite Rabs_left in Hone by lra. lra. }
          assert (Hnz : (X + Y <> 0)%R).
          { destruct (Rlt_dec 0 (IZR (P - O))) as [Hp|Hp].
            - destruct Hsign as [Hs _]. specialize (Hs Hp). lra.
            - assert (IZR (P - O) < 0)%R.
              { assert (IZR (P - O) <> 0)%R by (apply not_0_IZR; lia). lra. }
              destruct Hsign as [_ Hs]. specialize (Hs H). lra. }
          destruct (rounds_to_sign (fadd (dec P) (dec (- O))) (X + Y))
            as (m & e & E); [|assumption|].
          { apply Hadd; [assumption|]. apply money_in_range.
            assert (IZR (2 ^ 60) = 4096 * IZR (2 ^ 48))%R
              by (rewrite <- mult_IZR; reflexivity).
            assert (1 <= IZR (2 ^ 48))%R by (apply (IZR_le 1); lia).
            destruct (Rlt_dec 0 (IZR (P - O))) as [Hp|Hp].
            - destruct Hsign as [Hs _]. specialize (Hs Hp).
              rewrite Rabs_pos_eq in Hbig |- * by lra. split; lra.
            - assert (Hn : (IZR (P - O) < 0)%R).
              { assert (IZR (P - O) <> 0)%R by (apply not_0_IZR; lia). lra. }
              destruct Hsign as [_ Hs]. specialize (Hs Hn).
              rewrite Rabs_left in Hbig |- * by lra. split; lra. }
          exists m, e. rewrite E. f_equal.
          destruct (Rlt_dec (X + Y) 0) as [Hl|Hl], (Z.ltb_spec P O) as [L|L];
            try reflexivity; exfalso.
          * assert (Hp : (0 < IZR (P - O))%R) by (apply (IZR_lt 0); lia).
            destruct Hsign as [Hs _]. specialize (Hs Hp). lra.
          * assert (Hn : (IZR (P - O) < 0)%R) by (apply (IZR_lt _ 0); lia).
            destruct Hsign as [_ Hs]. specialize (Hs Hn). lra. }
    destruct Hs as (m & e & E).
    destruct (Z.ltb_spec P O) as [L|L].
    + rewrite Z.max_l by lia. now rewrite E.
    + rewrite Z.max_r by lia. rewrite <- Hd, E. reflexivity.
Qed.

(** ** The totals of the breakdown *)

Lemma paid_amounts_list (es : list Expense) (v : string) :
  paid_amounts es v = map round2 (paid_list es v).
Proof. unfold paid_amounts, paid_list. now rewrite List.map_map. Qed.

Lemma paid_cents_list (es : list Expense) (v : string) :
  paid_cents es v = sumZ (map cents0 (paid_list es v)).
Proof. unfold paid_cents, paid_list. now rewrite List.map_map. Qed.

Lemma owed_cents_list (es : list Expense) (v : string) :
  owed_cents es v = sumZ (map cents0 (owed_list es v)).
Proof. unfold owed_cents, owed_list. now rewrite List.map_map. Qed.

Lemma own_shares_list (es : list Expense) (v : string) :
  own_shares es v = map round2 (owed_list es v).
Proof.
  unfold owed_list. induction es as [|e es IH]; [reflexivity|].
  rewrite settled_cons. cbn [own_shares flat_map].
  fold (own_shares es v). rewrite IH.
  destruct (payerId e); [|reflexivity].
  cbn [flat_map]. now rewrite List.filter_app, !List.map_app, !List.map_map.
Qed.

Lemma cents0_weight (x : number) : cents0 x <= weight x.
Proof. unfold cents0, weight, budget. destruct (cents x); simpl default; lia. Qed.

Lemma sumZ_filter_le {A : Type} (f g : A -> Z) (p : A -> bool) (l : list A) :
  (forall a, f a <= g a) -> (forall a, 0 <= g a) ->
  sumZ (map f (List.filter p l)) <= sumZ (map g l).
Proof.
  intros Hfg Hg. induction l as [|a l IH]; [reflexivity|].
  cbn [List.filter map sumZ]. specialize (Hfg a). specialize (Hg a).
  destruct (p a); cbn [map sumZ]; lia.
Qed.

Lemma sumZ_member_le {A : Type} (g : A -> Z) (l : list A) (a : A) :
  (forall a, 0 <= g a) -> In a l -> g a <= sumZ (map g l).
Proof.
  intros Hg. induction l as [|b l IH]; [contradiction|].
  intros [->|Hin]; cbn [map sumZ].
  - assert (0 <= sumZ (map g l)).
    { clear -Hg. induction l as [|c l IH]; cbn [map sumZ]; [lia|].
      specialize (Hg c). lia. }
    lia.
  - specialize (IH Hin). specialize (Hg b). lia.
Qed.

Lemma paid_in_settled (es : list Expense) (v : string) (e : Expense) :
  In e (List.filter (paid_by_member v) es) -> In e (settled es).
Proof.
  unfold settled, paid_by_member. rewrite !List.filter_In.
  intros [Hin Hp]. split; [assumption|]. now destruct (payerId e).
Qed.

(** What a viewer paid and owes is within the load of the expenses. *)
Lemma stake_load (es : list Expense) (v : string) :
  paid_cents es v <= load es /\ owed_cents es v <= load es /\
  Forall (fun x => weight x <= load es) (stake es v).
Proof.
  pose proof (sumZ_weights_nonneg amount (settled es)) as Ha.
  pose proof (sumZ_weights_nonneg split_amount
                (flat_map splits (settled es))) as Hs.
  assert (HP : paid_cents es v
               <= sumZ (map (fun e => weight (amount e)) (settled es))).
  { unfold paid_cents.
    assert (E : List.filter (paid_by_member v) es
                = List.filter (paid_by_member v) (settled es)).
    { clear. unfold settled, paid_by_member.
      induction es as [|e es IH]; [reflexivity|]. cbn [List.filter].
      destruct (payerId e) as [p|] eqn:Ep; cbn [List.filter];
        rewrite ?Ep, <- IH; reflexivity. }
    rewrite E. apply sumZ_filter_le; intros e.
    - apply cents0_weight.
    - apply weight_nonneg. }
  assert (HO : owed_cents es v
               <= sumZ (map (fun s => weight (split_amount s))
                         (flat_map splits (settled es)))).
  { unfold owed_cents. apply sumZ_filter_le; intros s.
    - apply cents0_weight.
    - apply weight_nonneg. }
  unfold load. split; [lia|]. split; [lia|].
  unfold stake. apply Forall_app. split; apply List.Forall_forall; intros x Hx.
  - unfold paid_list in Hx. apply in_map_iff in Hx as (e & <- & He).
    apply paid_in_settled in He.
    pose proof (sumZ_member_le (fun e => weight (amount e)) (settled es) e
                  (fun e => weight_nonneg _) He) as H.
    cbv beta in H. lia.
  - unfold owed_list in Hx. apply in_map_iff in Hx as (s & <- & Hin).
    apply List.filter_In in Hin as [Hin _].
    pose proof (sumZ_member_le (fun s => weight (split_amount s))
                  (flat_map splits (settled es)) s
                  (fun s => weight_nonneg _) Hin) as H.
    cbv beta in H. lia.
Qed.

Lemma breakdown_cents (expenses : list Expense) (viewer : string) :
  load expenses <= budget ->
  Forall (fun x => 0 <= cents0 x) (stake expenses viewer) ->
  Z.of_nat (length (stake expenses viewer)) * (2 * load expenses + 1)
  <= 2 ^ 51 ->
  let b := getSettlementBreakdown expenses viewer in
  totalPaid b = dec (paid_cents expenses viewer) /\
  totalOwed b = dec (owed_cents expenses viewer) /\
  getBack b =
  dec (Z.max 0 (paid_cents expenses viewer - owed_cents expenses viewer)).
Proof.
  intros Hl Hpos Hn b.
  destruct (stake_load expenses viewer) as (HP & HO & Hw).
  assert (Hall : Forall (fun x => exists c, cents x = Some c /\ 0 <= c)
                   (stake expenses viewer)).
  { rewrite List.Forall_forall in *. intros x Hx.
    destruct (weight_cents x (load expenses) (Hw x Hx) Hl) as (c & Hc & _).
    exists c. split; [assumption|].
    specialize (Hpos x Hx). unfold cents0 in Hpos. now rewrite Hc in Hpos. }
  unfold stake in Hall, Hn. apply Forall_app in Hall as [HallP HallO].
  rewrite length_app in Hn.
  assert (HtP : totalPaid b = dec (paid_cents expenses viewer)).
  { subst b. unfold getSettlementBreakdown. cbn [totalPaid].
    rewrite tally_totalPaid. cbn [t_totalPaid].
    rewrite paid_amounts_list, paid_cents_list.
    apply (total_in_cents (load expenses)); unfold budget in Hl;
      [assumption|assumption|now rewrite <- paid_cents_list|nia]. }
  assert (HtO : totalOwed b = dec (owed_cents expenses viewer)).
  { subst b. unfold getSettlementBreakdown. cbn [totalOwed].
    rewrite tally_totalOwed. cbn [t_totalOwed].
    rewrite own_shares_list, owed_cents_list.
    apply (total_in_cents (load expenses)); unfold budget in Hl;
      [assumption|assumption|now rewrite <- owed_cents_list|nia]. }
  split; [assumption|]. split; [assumption|].
  assert (Hg : getBack b
               = round2 (Math_max zero (fsub (totalPaid b) (totalOwed b))))
    by reflexivity.
  rewrite Hg, HtP, HtO. apply getBack_in_cents.
  - split; [|lia]. rewrite paid_cents_list. clear -HallP.
    induction HallP as [|y ys (d & Hy & Hd) _ IHs]; [cbn; lia|].
    cbn [map sumZ]. unfold cents0 at 1. rewrite Hy. simpl default. lia.
  - split; [|lia]. rewrite owed_cents_list. clear -HallO.
    induction HallO as [|y ys (d & Hy & Hd) _ IHs]; [cbn; lia|].
    cbn [map sumZ]. unfold cents0 at 1. rewrite Hy. simpl default. lia.
Qed.

(** X19.  When the amounts that enter the totals of the viewer (the amounts
    of the expenses the viewer paid, the splits in the viewer's name) are
    not negative, the load is within the budget and the number of these
    amounts times twice the load stays below 2^51, the totals of the
    breakdown are exact in cents: [totalPaid] is the sum of the cents paid,
    [totalOwed] the sum of the cents owed and [getBack] the positive part of
    their difference. *)
Theorem breakdown_totals_in_cents (expenses : list Expense) (viewer : string) :
  load expenses <= budget ->
  Forall (fun x => 0 <= cents0 x) (stake expenses viewer) ->
  Z.of_nat (length (stake expenses viewer)) * (2 * load expenses + 1)
  <= 2 ^ 51 ->
  let b := getSettlementBreakdown expenses viewer in
  totalPaid b = dec (paid_cents expenses viewer) /\
  totalOwed b = dec (owed_cents expenses viewer) /\
  getBack b =
  dec (Z.max 0 (paid_cents expenses viewer - owed_cents expenses viewer)).
Proof. apply breakdown_cents. Qed.

Lemma breakdown_totals_in_cents_witness :
  let es :=
    [expense "U1" (of_Z 100) [share "U1" (of_Z 50); share "U2" (of_Z 50)];
     expense "U2" (dec 1000)
       [share "U1" (dec 334); share "U2" (dec 333); share "U3" (dec 333)]] in
  let b := getSettlementBreakdown es "U1" in
  totalPaid b = dec (paid_cents es "U1") /\
  totalOwed b = dec (owed_cents es "U1") /\
  getBack b = dec (Z.max 0 (paid_cents es "U1" - owed_cents es "U1")).
Proof.
  intros es. apply (breakdown_totals_in_cents es "U1").
  - vm_compute. discriminate.
  - repeat constructor; vm_compute; discriminate.
  - vm_compute. discriminate.
Defined.

(** X20.  Under the same conditions, and for a viewer whose id is not the
    name of a member of [Object.prototype], the breakdown agrees with the
    balances: [getBack] is [Math.max(0, balance)] for the balance of the
    viewer computed by [calculateBalances], whatever the member list. *)
Theorem getBack_is_positive_balance (expenses : list Expense)
  (memberIds : list string) (viewer : string) :
  load expenses <= budget ->
  Forall (fun x => 0 <= cents0 x) (stake expenses viewer) ->
  Z.of_nat (length (stake expenses viewer)) * (2 * load expenses + 1)
  <= 2 ^ 51 ->
  inherited viewer = false ->
  exists balance,
    get0 (calculateBalances expenses memberIds) viewer = Num balance /\
    getBack (getSettlementBreakdown expenses viewer) = Math_max zero balance.
Proof.
  intros Hl Hpos Hn Hv.
  destruct (breakdown_cents expenses viewer Hl Hpos Hn) as (_ & _ & ->).
  eexists. split; [now apply balance_cents|].
  symmetry. apply Math_max_zero_dec.
  destruct (stake_load expenses viewer) as (HP & HO & _).
  assert (0 <= paid_cents expenses viewer /\ 0 <= owed_cents expenses viewer)
    as [HP0 HO0].
  { unfold stake in Hpos. apply Forall_app in Hpos as [H1 H2].
    rewrite paid_cents_list, owed_cents_list. split.
    - clear -H1. induction H1 as [|y ys Hy _ IHs]; cbn [map sumZ]; lia.
    - clear -H2. induction H2 as [|y ys Hy _ IHs]; cbn [map sumZ]; lia. }
  unfold budget in Hl. lia.
Qed.

Lemma getBack_is_positive_balance_witness :
  let es :=
    [expense "U1" (of_Z 100) [share "U1" (of_Z 50); share "U2" (of_Z 50)];
     expense "U2" (dec 1000)
       [share "U1" (dec 334); share "U2" (dec 333); share "U3" (dec 333)]] in
  exists balance,
    get0 (calculateBalances es ["U1"; "U2"; "U3"]) "U1" = Num balance /\
    getBack (getSettlementBreakdown es "U1") = Math_max zero balance.
Proof.
  intros es.
  apply (getBack_is_positive_balance es ["U1"; "U2"; "U3"] "U1").
  - vm_compute. discriminate.
  - repeat constructor; vm_compute; discriminate.
  - vm_compute. discriminate.
  - reflexivity.
Defined.

(** A viewer called [constructor] who paid 100: 100 to get back, and a
    balance of NaN. *)
Example getBack_of_inherited_name :
  getBack (getSettlementBreakdown [expense "constructor" (of_Z 100) []]
             "constructor") = of_Z 100 /\
  get0 (calculateBalances [expense "constructor" (of_Z 100) []] [])
    "constructor" = Num S754_nan.
Proof. evaluate. Qed.

(** * Who owes whom *)

Lemma tally_split_maps (viewer payer : string) (t : Tally) (s : Split) :
  giveMap (tally_split viewer payer t s) = give_step viewer (giveMap t) (payer, s)
  /\ getMap (tally_split viewer payer t s) = get_step viewer (getMap t) (payer, s).
Proof.
  unfold tally_split, give_step, get_step. cbn [fst snd].
  destruct (String.eqb (userId s) viewer), (String.eqb payer viewer);
    split; reflexivity.
Qed.

Lemma tally_splits_maps (viewer payer : string) (ss : list Split) :
  forall t,
  giveMap (fold_left (tally_split viewer payer) ss t)
  = fold_left (give_step viewer) (map (fun s => (payer, s)) ss) (giveMap t) /\
  getMap (fold_left (tally_split viewer payer) ss t)
  = fold_left (get_step viewer) (map (fun s => (payer, s)) ss) (getMap t).
Proof.
  induction ss as [|s ss IH]; intros t; [split; reflexivity|].
  cbn [fold_left map]. destruct (IH (tally_split viewer payer t s)) as [-> ->].
  now destruct (tally_split_maps viewer payer t s) as [-> ->].
Qed.

Lemma tally_maps (viewer : string) (es : list Expense) :
  forall t,
  giveMap (fold_left (tally_expense viewer) es t)
  = fold_left (give_step viewer) (events es) (giveMap t) /\
  getMap (fold_left (tally_expense viewer) es t)
  = fold_left (get_step viewer) (events es) (getMap t).
Proof.
  induction es as [|e es IH]; intros t; [split; reflexivity|].
  cbn [fold_left events flat_map]. fold (events es).
  rewrite !fold_left_app.
  destruct (IH (tally_expense viewer t e)) as [-> ->].
  unfold tally_expense. destruct (payerId e) as [p|]; [|split; reflexivity].
  destruct (tally_splits_maps viewer p (splits e) t) as [Hg Ht].
  destruct (String.eqb p viewer); cbn [giveMap getMap]; now rewrite Hg, Ht.
Qed.

Lemma entry_get_set (o : entries) (k k' : string) (v : number) :
  entry_get (entry_set o k v) k' =
  if String.eqb k k' then Some v else entry_get o k'.
Proof.
  induction o as [|[k0 v0] o IH]; cbn [entry_set entry_get].
  - reflexivity.
  - destruct (String.eqb_spec k0 k) as [->|Hne]; cbn [entry_get].
    + now destruct (String.eqb k k').
    + destruct (String.eqb_spec k0 k') as [->|Hne'].
      * apply String.eqb_neq in Hne. rewrite String.eqb_sym in Hne.
        now rewrite Hne.
      * apply IH.
Qed.

Lemma tracks_bump (o : entries) (g : string -> Z) (S : Z) (k : string)
  (x : number) :
  0 <= S -> S + weight x <= budget -> tracks o g S ->
  tracks (bump o k (round2 x))
    (fun k' => g k' + (if String.eqb k k' then cents0 x else 0))
    (S + weight x).
Proof.
  intros HS Hb Ht k'.
  pose proof (weight_nonneg x) as Hw.
  destruct (weight_cents x (weight x) ltac:(lia) ltac:(lia)) as (c & Hc & Hcw).
  assert (Ec : cents0 x = c) by (unfold cents0; now rewrite Hc).
  rewrite Ec. destruct (Ht k') as [Hk' Hv'].
  split; [destruct (String.eqb k k'); lia|].
  unfold bump. destruct (String.eqb_spec k "__proto__") as [Ep|Ep].
  - (* nothing is written *)
    destruct (String.eqb_spec k k') as [E|_].
    + assert (Ei : inherited k' = true) by (rewrite <- E, Ep; reflexivity).
      rewrite Ei in *. destruct (entry_get o k'); [assumption|discriminate].
    + now rewrite Z.add_0_r.
  - rewrite entry_get_set. destruct (String.eqb_spec k k') as [->|Hne].
    + destruct (inherited k') eqn:Ei.
      * destruct (entry_get o k') as [v|]; cbn [or_zero].
        -- subst v. apply round2_nan_plus.
        -- now rewrite Ei.
      * replace (or_zero (entry_get o k') k') with (Num (dec (g k'))).
        -- cbn [round2_plus]. apply credit_exact; [lia|assumption|lia].
        -- destruct (entry_get o k') as [v|]; cbn [or_zero];
             [now subst v|now rewrite Ei, (Hv' eq_refl)].
    + now rewrite Z.add_0_r.
Qed.

Lemma tracks_ext (o : entries) (g g' : string -> Z) (S S' : Z) :
  (forall k, g k = g' k) -> S <= S' -> tracks o g S -> tracks o g' S'.
Proof.
  intros Hg HS Ht k. destruct (Ht k) as [Hk Hv]. rewrite <- Hg.
  split; [lia|assumption].
Qed.

Lemma tracks_steps (sel : string * Split -> bool)
  (key : string * Split -> string) (l : list (string * Split)) :
  forall (o : entries) (g : string -> Z) (S : Z),
  0 <= S ->
  S + sumZ (map (fun ev => weight (split_amount (snd ev))) l) <= budget ->
  tracks o g S ->
  tracks (fold_left (step sel key) l o) (fun k => g k + posted sel key k l)
    (S + sumZ (map (fun ev => weight (split_amount (snd ev))) l)).
Proof.
  induction l as [|ev l IH]; intros o g S HS Hb Ht.
  - cbn [fold_left map sumZ]. apply (tracks_ext o g _ S); [|lia|assumption].
    intros k. unfold posted. cbn. lia.
  - cbn [fold_left map sumZ] in *.
    pose proof (weight_nonneg (split_amount (snd ev))) as Hw.
    pose proof (sumZ_weights_nonneg (fun ev : string * Split =>
                  split_amount (snd ev)) l) as Hl.
    set (w := weight (split_amount (snd ev))) in *.
    set (W := sumZ (map (fun ev => weight (split_amount (snd ev))) l)) in *.
    assert (Hstep : tracks (step sel key o ev)
              (fun k => g k + (if sel ev && String.eqb (key ev) k
                               then cents0 (split_amount (snd ev)) else 0))
              (S + w)).
    { unfold step. destruct (sel ev); cbn [andb].
      - apply tracks_bump; [assumption|lia|assumption].
      - apply (tracks_ext o g _ S); [intros k; lia|lia|assumption]. }
    apply IH in Hstep as IH'; [|lia|lia]. clear IH.
    replace (S + (w + W)) with (S + w + W) by lia.
    eapply tracks_ext; [|reflexivity|exact IH'].
    intros k. cbv beta. unfold posted. cbn [List.filter].
    destruct (sel ev && String.eqb (key ev) k); cbn [map sumZ]; lia.
Qed.

Lemma events_splits (es : list Expense) :
  map snd (events es) = flat_map splits (settled es).
Proof.
  induction es as [|e es IH]; [reflexivity|].
  rewrite settled_cons. cbn [events flat_map]. fold (events es).
  rewrite List.map_app, IH. destruct (payerId e); [|reflexivity].
  cbn [flat_map]. f_equal. rewrite List.map_map. cbn [snd]. apply List.map_id.
Qed.

Lemma events_load (es : list Expense) :
  sumZ (map (fun ev => weight (split_amount (snd ev))) (events es)) <= load es.
Proof.
  rewrite <- (sumZ_map_map snd (fun s => weight (split_amount s))).
  rewrite events_splits. unfold load.
  pose proof (sumZ_weights_nonneg amount (settled es)). lia.
Qed.

Lemma tracks_nothing : tracks [] (fun _ => 0) 0.
Proof. intros k. cbn [entry_get]. split; [lia|reflexivity]. Qed.

Lemma given_cents (viewer k : string) (es : list Expense) :
  posted (fun ev => String.eqb (userId (snd ev)) viewer
                    && negb (String.eqb (fst ev) viewer)) fst k (events es)
  = if String.eqb k viewer then 0 else debt es viewer k.
Proof.
  unfold posted, debt, owes. induction (events es) as [|[p s] l IH];
    cbn [List.filter fst snd].
  - now destruct (String.eqb k viewer).
  - destruct (String.eqb_spec (userId s) viewer) as [Hs|Hs],
             (String.eqb_spec p viewer) as [Hp|Hp],
             (String.eqb_spec p k) as [Hk|Hk],
             (String.eqb_spec k viewer) as [Hv|Hv];
      cbn [andb negb map sumZ fst snd] in *; try congruence; try lia.
Qed.

Lemma got_cents (viewer k : string) (es : list Expense) :
  posted (fun ev => String.eqb (fst ev) viewer
                    && negb (String.eqb (userId (snd ev)) viewer))
    (fun ev => userId (snd ev)) k (events es)
  = if String.eqb k viewer then 0 else debt es k viewer.
Proof.
  unfold posted, debt, owes. induction (events es) as [|[p s] l IH];
    cbn [List.filter fst snd].
  - now destruct (String.eqb k viewer).
  - destruct (String.eqb_spec (userId s) viewer) as [Hs|Hs],
             (String.eqb_spec p viewer) as [Hp|Hp],
             (String.eqb_spec (userId s) k) as [Hk|Hk],
             (String.eqb_spec k viewer) as [Hv|Hv];
      cbn [andb negb map sumZ fst snd] in *; try congruence; try lia.
Qed.

Lemma entry_get_In (o : entries) (k : string) (v : number) :
  entry_get o k = Some v -> In (k, v) o.
Proof.
  induction o as [|[k0 v0] o IH]; cbn [entry_get]; [discriminate|].
  destruct (String.eqb_spec k0 k) as [->|Hne].
  - intros [= ->]. now left.
  - intros H. right. now apply IH.
Qed.

Lemma In_entry_get (o : entries) (k : string) (v : number) :
  NoDup (map fst o) -> In (k, v) o -> entry_get o k = Some v.
Proof.
  induction o as [|[k0 v0] o IH]; [contradiction|].
  cbn [map fst]. rewrite NoDup_cons. intros [Hk0 Hnd] [[= -> ->]|Hin];
    cbn [entry_get].
  - now rewrite String.eqb_refl.
  - destruct (String.eqb_spec k0 k) as [->|Hne]; [|now apply IH].
    exfalso. apply Hk0. apply list_elem_of_In, in_map_iff.
    exists (k, v). split; [reflexivity|assumption].
Qed.

Lemma fgt_dec_zero (n : Z) :
  Z.abs n <= 2 ^ 50 -> fgt (dec n) zero = (0 <? n).
Proof.
  intros Hb. destruct (Z.eq_dec n 0) as [->|Hn]; [reflexivity|].
  destruct (dec_sign n Hn Hb) as (m & e & ->).
  destruct (Z.ltb_spec n 0), (Z.ltb_spec 0 n); reflexivity || lia.
Qed.

(** The entries listed from a map that tracks [g]. *)
Lemma listed_entries (o : entries) (g : string -> Z) (S : Z) (k : string)
  (a : number) :
  tracks o g S -> S <= 2 ^ 50 -> NoDup (map fst o) ->
  In {| userId := k; split_amount := a |} (positive_entries o) <->
  inherited k = false /\ 0 < g k /\ a = dec (g k).
Proof.
  intros Ht HS Hnd. destruct (Ht k) as [Hk Hv]. unfold positive_entries.
  rewrite in_map_iff. split.
  - intros ([k' v] & Heq & Hin). injection Heq as Hk' Ha. subst k'.
    apply List.filter_In in Hin as [Hin Hp].
    apply (proj1 (Object_entries_In o (k, v))) in Hin.
    cbn [snd] in Hp. rewrite (In_entry_get o k v Hnd Hin) in Hv. subst v.
    destruct (inherited k); [discriminate|]. split; [reflexivity|].
    rewrite fgt_dec_zero in Hp by lia. apply Z.ltb_lt in Hp.
    split; [assumption|]. rewrite <- Ha. apply round2_dec. lia.
  - intros (Hin & Hpos & ->). rewrite Hin in Hv.
    destruct (entry_get o k) as [v|] eqn:E; [|specialize (Hv eq_refl); lia].
    subst v. exists (k, dec (g k)). split.
    + f_equal. apply round2_dec. lia.
    + apply List.filter_In. split.
      * now apply Object_entries_In, entry_get_In.
      * cbn [snd]. rewrite fgt_dec_zero by lia. now apply Z.ltb_lt.
Qed.

Lemma breakdown_lists (expenses : list Expense) (viewer k : string)
  (a : number) :
  load expenses <= budget ->
  (In {| userId := k; split_amount := a |}
      (youGive (getSettlementBreakdown expenses viewer)) <->
   k <> viewer /\ inherited k = false /\ 0 < debt expenses viewer k /\
   a = dec (debt expenses viewer k)) /\
  (In {| userId := k; split_amount := a |}
      (youGet (getSettlementBreakdown expenses viewer)) <->
   k <> viewer /\ inherited k = false /\ 0 < debt expenses k viewer /\
   a = dec (debt expenses k viewer)).
Proof.
  intros Hl. pose proof (events_load expenses) as Hev.
  pose proof (sumZ_weights_nonneg (fun ev : string * Split =>
                split_amount (snd ev)) (events expenses)) as Hw.
  destruct (breakdown_tidy expenses viewer) as [[_ Hgive] [_ Hget]].
  unfold getSettlementBreakdown. cbn [youGive youGet].
  destruct (tally_maps viewer expenses
              {| t_totalOwed := zero; t_totalPaid := zero;
                 giveMap := []; getMap := [] |}) as [Eg Et].
  rewrite Eg in *. rewrite Et in *. cbn [giveMap getMap] in *.
  assert (Hb : 0 + sumZ (map (fun ev => weight (split_amount (snd ev)))
                       (events expenses)) <= budget) by lia.
  split.
  - pose proof (tracks_steps
      (fun ev => String.eqb (userId (snd ev)) viewer
                 && negb (String.eqb (fst ev) viewer)) fst
      (events expenses) [] (fun _ => 0) 0 ltac:(lia) Hb tracks_nothing) as Ht.
    rewrite (listed_entries _ _ _ k a Ht); [|unfold budget in *; lia|exact Hgive].
    cbv beta. rewrite given_cents.
    destruct (String.eqb_spec k viewer) as [->|Hne]; [split; [lia|tauto]|].
    rewrite Z.add_0_l. tauto.
  - pose proof (tracks_steps
      (fun ev => String.eqb (fst ev) viewer
                 && negb (String.eqb (userId (snd ev)) viewer))
      (fun ev => userId (snd ev))
      (events expenses) [] (fun _ => 0) 0 ltac:(lia) Hb tracks_nothing) as Ht.
    rewrite (listed_entries _ _ _ k a Ht); [|unfold budget in *; lia|exact Hget].
    cbv beta. rewrite got_cents.
    destruct (String.eqb_spec k viewer) as [->|Hne]; [split; [lia|tauto]|].
    rewrite Z.add_0_l. tauto.
Qed.

(** X21.  Within the budget the two lists of the breakdown are exact in
    cents: [k] is listed in [youGive] with the amount [a] exactly when [k]
    is not the viewer and not the name of a member of [Object.prototype],
    the shares of the viewer in the expenses [k] paid add up to a positive
    number of cents, and [a] is that amount; [k] is listed in [youGet]
    exactly when the shares of [k] in the expenses the viewer paid do. *)
Theorem breakdown_lists_in_cents (expenses : list Expense) (viewer k : string)
  (a : number) :
  load expenses <= budget ->
  (In {| userId := k; split_amount := a |}
      (youGive (getSettlementBreakdown expenses viewer)) <->
   k <> viewer /\ inherited k = false /\ 0 < debt expenses viewer k /\
   a = dec (debt expenses viewer k)) /\
  (In {| userId := k; split_amount := a |}
      (youGet (getSettlementBreakdown expenses viewer)) <->
   k <> viewer /\ inherited k = false /\ 0 < debt expenses k viewer /\
   a = dec (debt expenses k viewer)).
Proof. apply breakdown_lists. Qed.

Lemma breakdown_lists_in_cents_witness :
  let es :=
    [expense "U1" (of_Z 100) [share "U1" (of_Z 50); share "U2" (of_Z 50)];
     expense "U2" (dec 1000)
       [share "U1" (dec 334); share "U2" (dec 333); share "U3" (dec 333)]] in
  (In (share "U2" (dec 334)) (youGive (getSettlementBreakdown es "U1")) <->
   "U2" <> "U1" /\ inherited "U2" = false /\ 0 < debt es "U1" "U2" /\
   dec 334 = dec (debt es "U1" "U2"))
  /\
  (In (share "U2" (dec 334)) (youGet (getSettlementBreakdown es "U1")) <->
   "U2" <> "U1" /\ inherited "U2" = false /\ 0 < debt es "U2" "U1" /\
   dec 334 = dec (debt es "U2" "U1")).
Proof.
  intros es. apply (breakdown_lists_in_cents es "U1" "U2" (dec 334)).
  vm_compute. discriminate.
Defined.

(** X22.  Within the budget two viewers whose ids are not names of members
    of [Object.prototype] see the same debt: [b] is listed with the amount
    [x] in the [youGive] of [a] exactly when [a] is listed with [x] in the
    [youGet] of [b]. *)
Theorem give_and_get_agree (expenses : list Expense) (a b : string)
  (x : number) :
  load expenses <= budget -> inherited a = false -> inherited b = false ->
  In {| userId := b; split_amount := x |}
     (youGive (getSettlementBreakdown expenses a)) <->
  In {| userId := a; split_amount := x |}
     (youGet (getSettlementBreakdown expenses b)).
Proof.
  intros Hl Ha Hb.
  destruct (breakdown_lists expenses a b x Hl) as [-> _].
  destruct (breakdown_lists expenses b a x Hl) as [_ ->].
  split; intros (Hne & _ & Hd & Hx); repeat split; congruence || assumption.
Qed.

Lemma give_and_get_agree_witness :
  let es :=
    [expense "U1" (of_Z 100) [share "U1" (of_Z 50); share "U2" (of_Z 50)];
     expense "U2" (dec 1000)
       [share "U1" (dec 334); share "U2" (dec 333); share "U3" (dec 333)]] in
  In (share "U2" (dec 334)) (youGive (getSettlementBreakdown es "U1")) <->
  In (share "U1" (dec 334)) (youGet (getSettlementBreakdown es "U2")).
Proof.
  intros es. apply (give_and_get_agree es "U1" "U2" (dec 334)).
  - vm_compute. discriminate.
  - reflexivity.
  - reflexivity.
Defined.

(** A payer called [constructor] is never listed: the viewer v owes 10, the
    entry of the give map is NaN and is filtered out, while the payer's own
    breakdown lists v. *)
Example inherited_name_is_not_listed :
  let es := [expense "constructor" (of_Z 10) [share "v" (of_Z 10)]] in
  debt es "v" "constructor" = 1000 /\
  youGive (getSettlementBreakdown es "v") = [] /\
  youGet (getSettlementBreakdown es "constructor") = [share "v" (of_Z 10)].
Proof. cbv zeta. evaluate. Qed.

(** [Object.entries] lists the ids that are array indices first, in
    ascending order: "2" and "10" come before "U7", whatever the order of
    the expenses. *)
Example listed_in_index_order :
  youGive (getSettlementBreakdown
    [expense "U7" (of_Z 3) [share "v" (of_Z 3)];
     expense "10" (of_Z 2) [share "v" (of_Z 2)];
     expense "2" (of_Z 1) [share "v" (of_Z 1)]] "v")
  = [share "2" (of_Z 1); share "10" (of_Z 2); share "U7" (of_Z 3)].
Proof. vm_compute; reflexivity. Qed.

Example who_owes_whom :
  let es :=
    [expense "U1" (of_Z 100) [share "U1" (of_Z 50); share "U2" (of_Z 50)];
     expense "U2" (dec 1000)
       [share "U1" (dec 334); share "U2" (dec 333); share "U3" (dec 333)]] in
  youGive (getSettlementBreakdown es "U1") = [share "U2" (dec 334)] /\
  youGet (getSettlementBreakdown es "U1") = [share "U2" (of_Z 50)] /\
  youGive (getSettlementBreakdown es "U2") = [share "U1" (of_Z 50)] /\
  youGet (getSettlementBreakdown es "U2")
  = [share "U1" (dec 334); share "U3" (dec 333)].
Proof. cbv zeta. evaluate. Qed.

(** * Equal splits in the balances *)

(** X23.  Expenses that are split with [buildEqualSplits] neither create
    nor lose a cent: within the budget, when the splits of every expense
    with a payer are [buildEqualSplits] of its amount for some participants
    and no payer or participant id is the name of a member of
    [Object.prototype], the balances of [calculateBalances] add up to 0
    cents. *)
Theorem equal_splits_balance (expenses : list Expense)
  (memberIds : list string) :
  load expenses <= budget -> plain expenses ->
  Forall (fun e => exists ids, ids <> [] /\
                     Z.of_nat (length ids) <= budget /\
                     splits e = buildEqualSplits (amount e) ids)
    (settled expenses) ->
  total_cents (calculateBalances expenses memberIds) = 0.
Proof.
  intros Hl Hplain Heq.
  assert (Hc : Forall covered (settled expenses)).
  { rewrite List.Forall_forall in *. intros e He.
    destruct (Heq e He) as (ids & Hne & Hn & Hs).
    pose proof (sumZ_member_le (fun e => weight (amount e)) (settled expenses)
                  e (fun e => weight_nonneg _) He) as Hw. cbv beta in Hw.
    pose proof (sumZ_weights_nonneg split_amount
                  (flat_map splits (settled expenses))) as Hs0.
    assert (Hwl : weight (amount e) <= load expenses) by (unfold load; lia).
    destruct (weight_cents _ _ Hwl Hl) as (T & HT & HTb).
    unfold covered, cents0 at 2. rewrite Hs, HT. simpl default.
    apply equal_split_covered; [assumption|lia|assumption|assumption]. }
  rewrite (balances_total expenses memberIds Hl Hplain), (covered_cents _ Hc).
  lia.
Qed.

Lemma equal_splits_balance_witness :
  total_cents (calculateBalances
    [expense "U1" (of_Z 100) (buildEqualSplits (of_Z 100) ["U1"; "U2"; "U3"]);
     expense "U2" (dec 1001) (buildEqualSplits (dec 1001) ["U1"; "U2"])]
    ["U1"; "U2"; "U3"]) = 0.
Proof.
  apply equal_splits_balance.
  - vm_compute. discriminate.
  - repeat constructor.
  - repeat constructor.
    + exists ["U1"; "U2"; "U3"]. split; [discriminate|].
      split; [vm_compute; discriminate|reflexivity].
    + exists ["U1"; "U2"]. split; [discriminate|].
      split; [vm_compute; discriminate|reflexivity].
Defined.

(** * The member list as a set *)

Lemma members_as_set (memberIds memberIds' : list string) :
  (forall k, k ∈ memberIds <-> k ∈ memberIds') ->
  fold_left (fun (b : Balances) id => put b id zero) memberIds ∅
  = fold_left (fun (b : Balances) id => put b id zero) memberIds' ∅.
Proof.
  intros Hset. apply map_eq. intros k. rewrite !lookup_members_put.
  now rewrite (bool_decide_ext _ _ (Hset k)).
Qed.

(** X24.  [calculateBalances] reads the member list as a set: two lists
    with the same members, in any order and with any repetitions, give the
    same balances. *)
Theorem calculateBalances_members_as_set (expenses : list Expense)
  (memberIds memberIds' : list string) :
  (forall k, k ∈ memberIds <-> k ∈ memberIds') ->
  calculateBalances expenses memberIds = calculateBalances expenses memberIds'.
Proof.
  intros Hset. unfold calculateBalances. f_equal.
  now apply members_as_set.
Qed.

Lemma calculateBalances_members_as_set_witness :
  calculateBalances
    [expense "U1" (of_Z 100) [share "U1" (of_Z 50); share "U2" (of_Z 50)]]
    ["U1"; "U2"; "U1"]
  = calculateBalances
    [expense "U1" (of_Z 100) [share "U1" (of_Z 50); share "U2" (of_Z 50)]]
    ["U2"; "U1"].
Proof.
  apply calculateBalances_members_as_set. intros k. set_solver.
Defined.

(** * Ids that are not members *)









(** A payer and a split user who are not members start from 0: the
    balances are those computed with both among the members. *)
Example non_members_start_from_zero :
  calculateBalances
    [expense "guest" (of_Z 30) [share "U1" (of_Z 10); share "visitor" (of_Z 20)]]
    ["U1"; "U2"]
  = {[ "U1" := of_Z (-10); "U2" := zero; "guest" := of_Z 30;
       "visitor" := of_Z (-20) ]} /\
  calculateBalances
    [expense "guest" (of_Z 30) [share "U1" (of_Z 10); share "visitor" (of_Z 20)]]
    ["U1"; "U2"]
  = calculateBalances
    [expense "guest" (of_Z 30) [share "U1" (of_Z 10); share "visitor" (of_Z 20)]]
    ["guest"; "visitor"; "U1"; "U2"].
Proof. evaluate. Qed.


(** * The breakdown does not depend on the order *)

Lemma filter_permutation {A : Type} (p : A -> bool) (l l' : list A) :
  Permutation l l' -> Permutation (List.filter p l) (List.filter p l').
Proof.
  induction 1 as [|x l l' _ IH|x y l|l l' l'' _ IH1 _ IH2]; cbn [List.filter].
  - constructor.
  - destruct (p x); [now constructor|assumption].
  - destruct (p x), (p y); try reflexivity. constructor.
  - now transitivity (List.filter p l').
Qed.

Lemma settled_permutation (es es' : list Expense) :
  Permutation es es' -> Permutation (settled es) (settled es').
Proof. apply filter_permutation. Qed.

Lemma events_permutation (es es' : list Expense) :
  Permutation es es' -> Permutation (events es) (events es').
Proof. apply Permutation_flat_map. Qed.

Lemma stake_permutation (es es' : list Expense) (v : string) :
  Permutation es es' -> Permutation (stake es v) (stake es' v).
Proof.
  intros H. unfold stake, paid_list, owed_list. apply Permutation_app.
  - now apply Permutation_map, filter_permutation.
  - apply Permutation_map, filter_permutation, Permutation_flat_map.
    now apply settled_permutation.
Qed.

Lemma cents_permutation (es es' : list Expense) (v k : string) :
  Permutation es es' ->
  paid_cents es v = paid_cents es' v /\ owed_cents es v = owed_cents es' v /\
  debt es v k = debt es' v k.
Proof.
  intros H. unfold paid_cents, owed_cents, debt.
  split; [|split]; apply sumZ_permutation, Permutation_map, filter_permutation.
  - assumption.
  - now apply Permutation_flat_map, settled_permutation.
  - now apply events_permutation.
Qed.

(** X25.  Under the conditions of X19 the breakdown does not depend on the
    order of the expenses: for a permutation of the expenses the three
    totals are the same and both lists have the same entries (their order
    may differ). *)
Theorem breakdown_order_independent (es es' : list Expense) (viewer : string) :
  Permutation es es' ->
  load es <= budget ->
  Forall (fun x => 0 <= cents0 x) (stake es viewer) ->
  Z.of_nat (length (stake es viewer)) * (2 * load es + 1) <= 2 ^ 51 ->
  let b := getSettlementBreakdown es viewer in
  let b' := getSettlementBreakdown es' viewer in
  totalPaid b = totalPaid b' /\ totalOwed b = totalOwed b' /\
  getBack b = getBack b' /\
  (forall s, In s (youGive b) <-> In s (youGive b')) /\
  (forall s, In s (youGet b) <-> In s (youGet b')).
Proof.
  intros Hp Hl Hpos Hn b b'.
  pose proof (stake_permutation es es' viewer Hp) as Hs.
  assert (Hl' : load es' <= budget) by now rewrite <- (load_permutation es es').
  destruct (breakdown_cents es viewer Hl Hpos Hn) as (HP & HO & HG).
  destruct (breakdown_cents es' viewer Hl') as (HP' & HO' & HG').
  { now apply (Permutation_Forall Hs). }
  { now rewrite <- (Permutation_length Hs), <- (load_permutation es es'). }
  destruct (cents_permutation es es' viewer viewer Hp) as (EP & EO & _).
  fold b in HP, HO, HG. fold b' in HP', HO', HG'.
  rewrite HP, HO, HG, HP', HO', HG', EP, EO. subst b b'.
  split; [reflexivity|]. split; [reflexivity|]. split; [reflexivity|].
  split; intros [k a].
  - destruct (breakdown_lists es viewer k a Hl) as [-> _].
    destruct (breakdown_lists es' viewer k a Hl') as [-> _].
    destruct (cents_permutation es es' viewer k Hp) as (_ & _ & <-). tauto.
  - destruct (breakdown_lists es viewer k a Hl) as [_ ->].
    destruct (breakdown_lists es' viewer k a Hl') as [_ ->].
    destruct (cents_permutation es es' k viewer Hp) as (_ & _ & <-). tauto.
Qed.

Lemma breakdown_order_independent_witness :
  let e1 := expense "U1" (of_Z 100) [share "U1" (of_Z 50); share "U2" (of_Z 50)] in
  let e2 := expense "U2" (dec 1000)
              [share "U1" (dec 334); share "U2" (dec 333); share "U3" (dec 333)] in
  let b := getSettlementBreakdown [e1; e2] "U1" in
  let b' := getSettlementBreakdown [e2; e1] "U1" in
  totalPaid b = totalPaid b' /\ totalOwed b = totalOwed b' /\
  getBack b = getBack b' /\
  (forall s, In s (youGive b) <-> In s (youGive b')) /\
  (forall s, In s (youGet b) <-> In s (youGet b')).
Proof.
  intros e1 e2. apply (breakdown_order_independent [e1; e2] [e2; e1] "U1").
  - apply perm_swap.
  - vm_compute. discriminate.
  - repeat constructor; vm_compute; discriminate.
  - vm_compute. discriminate.
Defined.

(** * The lists and the balance *)

Lemma entries_cents_set (o : entries) (k : string) (v : number) :
  entries_cents (entry_set o k v)
  = entries_cents o - cents0 (default zero (entry_get o k)) + cents0 v.
Proof.
  unfold entries_cents.
  induction o as [|[k0 v0] o IH]; cbn [entry_set entry_get map sumZ snd].
  - change (cents0 (default zero None)) with 0. lia.
  - destruct (String.eqb_spec k0 k) as [->|Hne]; cbn [map sumZ snd].
    + simpl default. lia.
    + rewrite IH. lia.
Qed.

Lemma cents0_dec (n : Z) : Z.abs n <= 2 ^ 50 -> cents0 (dec n) = n.
Proof.
  intros Hb. unfold cents0. now destruct (round2_dec n Hb) as [_ ->].
Qed.

Lemma bump_plain (o : entries) (k : string) (amt : number) :
  inherited k = false ->
  bump o k amt = entry_set o k (round2 (fadd (default zero (entry_get o k)) amt)).
Proof.
  intros Hk. unfold bump, or_zero.
  destruct (String.eqb_spec k "__proto__") as [->|_]; [discriminate|].
  rewrite Hk. now destruct (entry_get o k).
Qed.

Lemma entries_cents_bump (o : entries) (g : string -> Z) (S : Z) (k : string)
  (x : number) :
  0 <= S -> S + weight x <= budget -> tracks o g S -> inherited k = false ->
  entries_cents (bump o k (round2 x)) = entries_cents o + cents0 x.
Proof.
  intros HS Hb Ht Hplain. pose proof (weight_nonneg x) as Hw.
  destruct (tracks_bump o g S k x HS Hb Ht k) as [Hk' Hnew].
  destruct (Ht k) as [Hk Hold].
  rewrite bump_plain in * by assumption.
  rewrite entry_get_set, String.eqb_refl, Hplain in Hnew.
  rewrite String.eqb_refl in Hk'. rewrite Hplain in Hold.
  rewrite entries_cents_set, Hnew.
  assert (Eold : cents0 (default zero (entry_get o k)) = g k).
  { destruct (entry_get o k) as [v|]; simpl default.
    - subst v. apply cents0_dec. unfold budget in Hb. lia.
    - now rewrite Hold. }
  rewrite Eold, cents0_dec by (unfold budget in Hb; lia). lia.
Qed.

Lemma entries_cents_steps (sel : string * Split -> bool)
  (key : string * Split -> string) (l : list (string * Split)) :
  Forall (fun ev => inherited (key ev) = false) l ->
  forall (o : entries) (g : string -> Z) (S : Z),
  0 <= S ->
  S + sumZ (map (fun ev => weight (split_amount (snd ev))) l) <= budget ->
  tracks o g S ->
  entries_cents (fold_left (step sel key) l o)
  = entries_cents o + posted_all sel l.
Proof.
  induction 1 as [|ev l Hev _ IH]; intros o g S HS Hb Ht.
  - unfold posted_all. cbn [fold_left List.filter map sumZ]. lia.
  - cbn [fold_left map sumZ] in *.
    pose proof (weight_nonneg (split_amount (snd ev))) as Hw.
    pose proof (sumZ_weights_nonneg (fun ev : string * Split =>
                  split_amount (snd ev)) l) as Hl.
    pose proof (tracks_steps sel key [ev] o g S HS) as Hstep.
    cbn [fold_left map sumZ] in Hstep. rewrite Z.add_0_r in Hstep.
    cbv beta in Hl. specialize (Hstep ltac:(lia) Ht).
    pose proof (fun H1 H2 => IH _ _ _ H1 H2 Hstep) as IH'.
    rewrite IH' by lia.
    unfold posted_all. cbn [List.filter]. unfold step.
    destruct (sel ev); cbn [map sumZ]; [|lia].
    rewrite (entries_cents_bump o g S) by (assumption || lia). lia.
Qed.

Lemma positive_entries_cents (o : entries) :
  Forall (fun kv => exists n, 0 <= n <= 2 ^ 50 /\ snd kv = dec n) o ->
  splits_cents (positive_entries o) = entries_cents o.
Proof.
  intros Ho.
  pose proof (Object_entries_permutation o) as Hp.
  assert (Hl : Forall (fun kv => exists n, 0 <= n <= 2 ^ 50 /\ snd kv = dec n)
                 (Object_entries o)).
  { rewrite List.Forall_forall in *. intros kv Hin.
    now apply Ho, Object_entries_In. }
  unfold entries_cents.
  rewrite <- (sumZ_permutation _ _ (Permutation_map _ Hp)).
  unfold splits_cents, positive_entries. clear Hp Ho.
  induction Hl as [|[k v] l (n & Hn & Hv) _ IH]; [reflexivity|].
  cbn [snd] in Hv. subst v. cbn [List.filter map sumZ snd].
  rewrite fgt_dec_zero by lia.
  destruct (Z.ltb_spec 0 n) as [Hpos|Hzero]; cbn [map sumZ split_amount].
  - rewrite IH. destruct (round2_dec n) as [-> _]; [lia|]. lia.
  - rewrite IH, cents0_dec by lia. lia.
Qed.

Lemma posted_nonneg (sel : string * Split -> bool)
  (key : string * Split -> string) (k : string) (l : list (string * Split)) :
  Forall (fun ev => 0 <= cents0 (split_amount (snd ev))) l ->
  0 <= posted sel key k l.
Proof.
  unfold posted. induction 1 as [|ev l Hev _ IH]; cbn [List.filter map sumZ].
  - lia.
  - destruct (sel ev && String.eqb (key ev) k); cbn [map sumZ]; lia.
Qed.

(** The keys of a map built by steps are keys of the steps. *)
Lemma steps_keys (sel : string * Split -> bool)
  (key : string * Split -> string) (l : list (string * Split)) :
  forall (o : entries) (k : string),
  k ∈ map fst (fold_left (step sel key) l o) ->
  k ∈ map fst o \/ k ∈ map key l.
Proof.
  induction l as [|ev l IH]; intros o k Hk; cbn [fold_left map] in *.
  - now left.
  - apply IH in Hk as [Hk|Hk]; [|right; apply elem_of_cons; now right].
    unfold step, bump in Hk.
    destruct (sel ev); [|now left].
    destruct (String.eqb (key ev) "__proto__"); [now left|].
    apply entry_set_keys in Hk as [->|Hk]; [right; apply elem_of_cons; now left|].
    now left.
Qed.

(** The entries of a map built by steps from the empty map add up to what
    was posted. *)
Lemma listed_cents (sel : string * Split -> bool)
  (key : string * Split -> string) (l : list (string * Split)) :
  sumZ (map (fun ev => weight (split_amount (snd ev))) l) <= budget ->
  Forall (fun ev => 0 <= cents0 (split_amount (snd ev))) l ->
  Forall (fun ev => inherited (key ev) = false) l ->
  NoDup (map fst (fold_left (step sel key) l [])) ->
  splits_cents (positive_entries (fold_left (step sel key) l []))
  = posted_all sel l.
Proof.
  intros Hb Hpos Hplain Hnd.
  pose proof (sumZ_weights_nonneg (fun ev : string * Split =>
                split_amount (snd ev)) l) as Hl. cbv beta in Hl.
  pose proof (tracks_steps sel key l [] (fun _ => 0) 0 ltac:(lia)
                ltac:(lia) tracks_nothing) as Ht.
  rewrite positive_entries_cents.
  - rewrite (entries_cents_steps sel key l Hplain [] (fun _ => 0) 0);
      [reflexivity|lia|lia|apply tracks_nothing].
  - apply List.Forall_forall. intros [k v] Hin. cbn [snd].
    assert (Hk : inherited k = false).
    { destruct (steps_keys sel key l [] k) as [Hk|Hk].
      - apply list_elem_of_In, in_map_iff. now exists (k, v).
      - now apply elem_of_nil in Hk.
      - apply list_elem_of_In, in_map_iff in Hk as (ev & <- & Hev).
        rewrite List.Forall_forall in Hplain. now apply Hplain. }
    destruct (Ht k) as [Hb' Hv]. rewrite (In_entry_get _ k v Hnd Hin), Hk in Hv.
    exists (0 + posted sel key k l). split; [|assumption].
    pose proof (posted_nonneg sel key k l Hpos). unfold budget in Hb. lia.
Qed.

(** The payers and the users of the splits of plain expenses. *)
Lemma events_plain (es : list Expense) :
  plain es ->
  Forall (fun ev => inherited (fst ev) = false) (events es) /\
  Forall (fun ev => inherited (userId (snd ev)) = false) (events es).
Proof.
  unfold plain. induction es as [|e es IH]; intros Hp; [now split|].
  cbn [flat_map events] in *. fold (events es).
  apply Forall_app in Hp as [He Hes]. destruct (IH Hes) as [IH1 IH2].
  rewrite !Forall_app. unfold users in He.
  destruct (payerId e) as [p|]; [|now repeat split].
  inversion He as [|? ? Hp Hss]; subst.
  repeat split; try assumption.
  - clear -Hp. induction (splits e); constructor; auto.
  - clear -Hss. induction (splits e) as [|s ss IHs]; [constructor|].
    cbn [map] in *. inversion Hss; subst. constructor; auto.
Qed.

Lemma net_events (v : string) (l : list (string * Split)) :
  posted_all (fun ev => String.eqb (fst ev) v
                        && negb (String.eqb (userId (snd ev)) v)) l
  - posted_all (fun ev => String.eqb (userId (snd ev)) v
                          && negb (String.eqb (fst ev) v)) l
  = posted_all (fun ev => String.eqb (fst ev) v) l
    - posted_all (fun ev => String.eqb (userId (snd ev)) v) l.
Proof.
  unfold posted_all. induction l as [|[p s] l IH]; [reflexivity|].
  cbn [List.filter fst snd].
  destruct (String.eqb p v), (String.eqb (userId s) v);
    cbn [andb negb map sumZ snd]; lia.
Qed.

Lemma owed_events (es : list Expense) (v : string) :
  posted_all (fun ev => String.eqb (userId (snd ev)) v) (events es)
  = owed_cents es v.
Proof.
  unfold posted_all, owed_cents. rewrite <- events_splits.
  rewrite filter_map_swap, List.map_map. reflexivity.
Qed.

Lemma paid_events (es : list Expense) (v : string) :
  Forall covered (List.filter (paid_by_member v) es) ->
  posted_all (fun ev => String.eqb (fst ev) v) (events es) = paid_cents es v.
Proof.
  unfold posted_all. induction es as [|e es IH]; intros Hc; [reflexivity|].
  rewrite paid_cents_cons. cbn [events flat_map]. fold (events es).
  rewrite List.filter_app, List.map_app, sumZ_app.
  cbn [List.filter] in Hc. unfold paid_by_member in *.
  destruct (payerId e) as [p|].
  - destruct (String.eqb p v) eqn:Epv.
    + inversion Hc as [|? ? He Hrest]. rewrite (IH Hrest).
      unfold covered in He. rewrite <- He. f_equal.
      clear -Epv. induction (splits e) as [|s ss IHs]; [reflexivity|].
      cbn [map List.filter fst]. rewrite Epv.
      cbn [map sumZ snd]. now rewrite IHs.
    + rewrite (IH Hc). f_equal.
      clear -Epv. induction (splits e) as [|s ss IHs]; [reflexivity|].
      cbn [map List.filter fst]. now rewrite Epv.
  - rewrite (IH Hc). reflexivity.
Qed.

(** X26.  The balance is what the lists net to: within the budget, when no
    split is negative, the splits of the expenses the viewer paid cover
    their amounts cent for cent, and neither the viewer's id nor a payer or
    split user id is the name of a member of [Object.prototype], the
    balance of the viewer is the cents listed in [youGet] minus the cents
    listed in [youGive]. *)
Theorem balance_is_get_minus_give (expenses : list Expense)
  (memberIds : list string) (viewer : string) :
  load expenses <= budget ->
  Forall (fun s => 0 <= cents0 (split_amount s))
    (flat_map splits (settled expenses)) ->
  Forall covered (List.filter (paid_by_member viewer) expenses) ->
  plain expenses -> inherited viewer = false ->
  let b := getSettlementBreakdown expenses viewer in
  get0 (calculateBalances expenses memberIds) viewer =
  Num (dec (splits_cents (youGet b) - splits_cents (youGive b))).
Proof.
  intros Hl Hpos Hc Hplain Hviewer b.
  destruct (events_plain expenses Hplain) as [Hpayers Husers].
  pose proof (events_load expenses) as Hev.
  assert (Hpos' : Forall (fun ev => 0 <= cents0 (split_amount (snd ev)))
                    (events expenses)).
  { rewrite <- events_splits in Hpos. rewrite List.Forall_forall in *.
    intros ev Hin. apply (Hpos (snd ev)). now apply in_map. }
  destruct (breakdown_tidy expenses viewer) as [[_ Hgive] [_ Hget]].
  subst b. unfold getSettlementBreakdown. cbn [youGive youGet].
  destruct (tally_maps viewer expenses
              {| t_totalOwed := zero; t_totalPaid := zero;
                 giveMap := []; getMap := [] |}) as [Eg Et].
  rewrite Eg in *. rewrite Et in *. cbn [giveMap getMap] in *.
  change (fold_left (give_step viewer))
    with (fold_left (step (fun ev => String.eqb (userId (snd ev)) viewer
                                     && negb (String.eqb (fst ev) viewer)) fst))
    in *.
  change (fold_left (get_step viewer))
    with (fold_left (step (fun ev => String.eqb (fst ev) viewer
                             && negb (String.eqb (userId (snd ev)) viewer))
                       (fun ev => userId (snd ev)))) in *.
  rewrite !listed_cents by (assumption || lia).
  rewrite net_events, owed_events, paid_events by assumption.
  now apply balance_cents.
Qed.

Lemma balance_is_get_minus_give_witness :
  let es :=
    [expense "U1" (of_Z 100) [share "U1" (of_Z 50); share "U2" (of_Z 50)];
     expense "U2" (dec 1000)
       [share "U1" (dec 334); share "U2" (dec 333); share "U3" (dec 333)]] in
  let b := getSettlementBreakdown es "U2" in
  get0 (calculateBalances es ["U1"; "U2"; "U3"]) "U2" =
  Num (dec (splits_cents (youGet b) - splits_cents (youGive b))).
Proof.
  intros es. apply (balance_is_get_minus_give es ["U1"; "U2"; "U3"] "U2").
  - vm_compute. discriminate.
  - repeat constructor; vm_compute; discriminate.
  - repeat constructor; vm_compute; reflexivity.
  - repeat constructor.
  - reflexivity.
Defined.

(** The viewer v owes 10 to a payer called [constructor]: the balance of v
    is -10, and nothing is listed. *)
Example lists_without_inherited_name :
  let es := [expense "constructor" (of_Z 10) [share "v" (of_Z 10)]] in
  get0 (calculateBalances es []) "v" = Num (of_Z (-10)) /\
  youGive (getSettlementBreakdown es "v") = [] /\
  youGet (getSettlementBreakdown es "v") = [].
Proof. cbv zeta. evaluate. Qed.

(** * A custom split typed with two decimals *)

(** ** Small differences *)

Lemma canonical_exponent (m : positive) (e lo : Z) :
  Z.pos (digits2_pos m) = prec ->
  (pow2 lo <= IZR (Z.pos m) * pow2 e)%R -> lo - 53 < e.
Proof.
  intros Hd Hv. pose proof (binade m e Hd) as [_ Hhi].
  assert (lo < 53 + e) by (apply pow2_lt_inv; lra). lia.
Qed.

(** A sum of two finite numbers that is not zero is at least one unit of
    the smaller exponent. *)
Lemma fadd_grain (sx : bool) (mx : positive) (ex : Z)
  (sy : bool) (my : positive) (ey : Z) :
  let v := (val (S754_finite sx mx ex) + val (S754_finite sy my ey))%R in
  v <> 0%R -> (pow2 (Z.min ex ey) <= Rabs v)%R.
Proof.
  intros v Hv. unfold v in *. rewrite !val_finite in *.
  set (ez := Z.min ex ey).
  set (z := cond_Zopp sx (Z.pos (fst (shl_align mx ex ez))) +
            cond_Zopp sy (Z.pos (fst (shl_align my ey ez)))).
  assert (Hz : (IZR z * pow2 ez =
                sgn sx * (IZR (Z.pos mx) * pow2 ex) +
                sgn sy * (IZR (Z.pos my) * pow2 ey))%R).
  { unfold z. rewrite plus_IZR, !IZR_cond_Zopp.
    rewrite <- (aligned_value mx ex ez), <- (aligned_value my ey ez)
      by (unfold ez; lia). ring. }
  rewrite <- Hz in *. pose proof (pow2_pos ez) as Hp.
  assert (Hz0 : z <> 0) by (intros E; apply Hv; rewrite E; ring).
  pose proof (Rabs_IZR_nonzero z Hz0).
  rewrite Rabs_mult, (Rabs_pos_eq (pow2 ez)) by lra. nra.
Qed.

(** [Math.round] of a number below one half. *)
Lemma Math_round_small (y : number) :
  canonical y -> (Rabs (val y) < / 2)%R ->
  exists s, Math_round y = S754_zero s.
Proof.
  intros Hc Hv. destruct (canonical_finite _ Hc) as (s & m & e & ->).
  cbn [canonical] in Hc. exists s.
  pose proof (mantissa_bounds m Hc) as [Hm _].
  assert (H52 : (1 <= IZR (2 ^ 52))%R) by (apply (IZR_le 1); lia).
  rewrite val_finite, Rabs_sgn, Rabs_pos_eq in Hv
    by (left; apply mag_pos).
  destruct e as [|p|k].
  - exfalso. rewrite pow2_0 in Hv. lra.
  - exfalso. assert (1 <= pow2 (Z.pos p))%R.
    { rewrite <- pow2_0. apply pow2_le. lia. }
    nra.
  - cbn [Math_round].
    change (Z.neg k) with (- Z.pos k) in Hv.
    rewrite pow2_opp, pow2_IZR in Hv by lia.
    assert (HP : (0 < IZR (2 ^ Z.pos k))%R) by (apply (IZR_lt 0); lia).
    assert (Hlt : 2 * Z.pos m < 2 ^ Z.pos k).
    { apply lt_IZR. rewrite mult_IZR.
      apply (Rmult_lt_compat_r (IZR (2 ^ Z.pos k))) in Hv; [|assumption].
      rewrite Rmult_assoc, Rinv_l in Hv by lra. lra. }
    assert (Hk : 2 ^ Z.pos k = 2 * 2 ^ (Z.pos k - 1)).
    { rewrite <- Z.pow_succ_r by lia. f_equal. lia. }
    rewrite Z.shiftl_1_l, Z.shiftr_div_pow2 by lia.
    rewrite Z.div_small; [reflexivity|].
    destruct s; cbn [signed]; lia.
Qed.

(** Rounding a number of less than a quarter of a cent gives a zero. *)
Lemma round2_tiny (x : number) :
  canonical x -> (pow2 (-1001) <= Rabs (val x))%R ->
  (Rabs (val x * 100) <= / 4)%R ->
  exists s, round2 x = S754_zero s.
Proof.
  intros Hc Hlo Hhi. destruct (canonical_finite _ Hc) as (s & m & e & E).
  destruct hundred_spec as [Hch Hvh].
  assert (Hr : in_range (val x * val hundred)).
  { rewrite Hvh. unfold in_range. rewrite Rabs_mult, (Rabs_pos_eq 100) by lra.
    rewrite Rabs_mult, (Rabs_pos_eq 100) in Hhi by lra.
    assert (2 * pow2 (-1001) = pow2 (-1000))%R.
    { replace (-1000) with (1 + -1001) by lia. now rewrite pow2_add, pow2_1. }
    pose proof (pow2_pos (-1001)).
    assert (1 <= pow2 1000)%R by (rewrite <- pow2_0; apply pow2_le; lia).
    split; nra. }
  destruct (fmul_spec x hundred s m e E Hch Hr) as [Hcy Hey].
  rewrite Hvh, unit_roundoff in Hey.
  assert (HU : (0 < / IZR (2 ^ 53) <= / 2)%R).
  { split; [apply Rinv_0_lt_compat, (IZR_lt 0); lia|].
    apply Rinv_le_contravar; [lra|apply (IZR_le 2); lia]. }
  destruct (Math_round_small (fmul x hundred) Hcy) as [s' Hs'].
  { apply Rabs_interval in Hey. apply Rabs_interval in Hhi as Hhi'.
    pose proof (Rabs_pos (val x * 100)).
    set (U := (/ IZR (2 ^ 53))%R) in *.
    apply Rabs_def1; nra. }
  exists s'. unfold round2. rewrite Hs', hundred_eq. now destruct s'.
Qed.

(** What is left for the user: the amount less the rounded sum of the
    partners. *)
Lemma rest_rounded (B k : Z) (acc : number) (T S : Z) :
  0 <= k -> 0 <= S <= T -> 0 < T <= B -> B <= 2 ^ 48 ->
  k * (2 * B + 1) <= 2 ^ 50 ->
  near B k acc S ->
  exists s, round2 (fsub (dec T) acc)
            = if Z.eqb (T - S) 0 then S754_zero s else dec (T - S).
Proof.
  intros Hk HS HT HB Hcount [Hzero Hpos].
  destruct (Z.eq_dec S 0) as [->|HS0].
  { rewrite (Hzero eq_refl), Z.sub_0_r. exists false.
    destruct (dec_sign T) as (m & e & E); [lia..|].
    replace (T <? 0) with false in E by (symmetry; apply Z.ltb_ge; lia).
    assert (fsub (dec T) zero = dec T) as -> by now rewrite E.
    destruct (round2_dec T) as [-> _]; [lia|].
    now destruct (Z.eqb_spec T 0); [lia|]. }
  destruct (Hpos ltac:(lia)) as [Hca Hea].
  assert (HE : (IZR k * (/ IZR (2 ^ 53) * (2 * IZR B + 1)) <= / 8)%R).
  { apply IZR_le in Hcount. apply IZR_le in Hk.
    assert (HBr : (0 <= IZR B)%R) by (apply (IZR_le 0); lia).
    rewrite mult_IZR, plus_IZR, mult_IZR in Hcount.
    assert (H53 : (IZR (2 ^ 53) = 8 * IZR (2 ^ 50))%R)
      by (rewrite <- mult_IZR; reflexivity).
    assert (H50 : (0 < IZR (2 ^ 50))%R) by (apply (IZR_lt 0); lia).
    replace (IZR k * (/ IZR (2 ^ 53) * (2 * IZR B + 1)))%R
      with (IZR k * (2 * IZR B + 1) / IZR (2 ^ 53))%R by (field; lra).
    apply (Rmult_le_reg_r (IZR (2 ^ 53))); [lra|].
    unfold Rdiv. rewrite Rmult_assoc, Rinv_l by lra. lra. }
  assert (Hea' : (Rabs (val acc * 100 - IZR S) <= / 8)%R) by lra.
  clear Hea HE.
  destruct (dec_near T ltac:(lia) ltac:(lia)) as [HcT HeT].
  assert (HeT' : (Rabs (val (dec T) * 100 - IZR T) <= / 32)%R).
  { assert (HU : (0 < / IZR (2 ^ 53))%R)
      by (apply Rinv_0_lt_compat, (IZR_lt 0); lia).
    assert (H48 : (/ IZR (2 ^ 53) * IZR (2 ^ 48) = / 32)%R).
    { change (2 ^ 53) with (2 ^ 48 * 32). rewrite mult_IZR.
      assert (0 < IZR (2 ^ 48))%R by (apply (IZR_lt 0); lia).
      rewrite Rinv_mult. field. lra. }
    pose proof (Rabs_IZR_le T (2 ^ 48) ltac:(lia)). nra. }
  clear HeT.
  destruct (canonical_finite _ HcT) as (sa & ma & ea & Ea).
  destruct (canonical_finite _ Hca) as (sb & mb & eb & Eb).
  rewrite fsub_fadd_opp.
  pose proof (fadd_spec sa ma ea (negb sb) mb eb) as [Hz Hnz].
  pose proof (fadd_grain sa ma ea (negb sb) mb eb) as Hgrain.
  cbv zeta in Hz, Hnz, Hgrain.
  assert (Eopp : SFopp acc = S754_finite (negb sb) mb eb) by now rewrite Eb.
  rewrite <- Ea, <- Eopp in Hz, Hnz, Hgrain. rewrite val_opp in Hz, Hnz, Hgrain.
  set (X := val (dec T)) in *. set (Y := val acc) in *.
  apply Rabs_interval in Hea', HeT'.
  assert (HSr : (1 <= IZR S <= IZR T)%R)
    by (split; [apply (IZR_le 1)|apply IZR_le]; lia).
  assert (HTr : (IZR T <= IZR (2 ^ 48))%R) by (apply IZR_le; lia).
  assert (Hd : (Rabs ((X + - Y) * 100 - IZR (T - S)) <= 5 / 32)%R).
  { rewrite minus_IZR. apply Rabs_le. lra. }
  (* the exponents of the two numbers *)
  assert (Hgr : (X + - Y <> 0 -> pow2 (-1000) <= Rabs (X + - Y))%R).
  { intros Hne. eapply Rle_trans; [|apply Hgrain; assumption].
    apply pow2_le.
    assert (Hcb : Z.pos (digits2_pos mb) = prec) by (rewrite Eb in Hca; exact Hca).
    assert (Hcm : Z.pos (digits2_pos ma) = prec) by (rewrite Ea in HcT; exact HcT).
    assert (Hxa : (pow2 (-7) <= IZR (Z.pos ma) * pow2 ea)%R).
    { assert (Hv : (X = sgn sa * (IZR (Z.pos ma) * pow2 ea))%R)
        by (unfold X; rewrite Ea, val_finite; reflexivity).
      pose proof (mag_pos ma ea).
      change (pow2 (-7)) with (pow2 (- (7))). rewrite pow2_opp, pow2_IZR by lia.
      change (IZR (2 ^ 7)) with 128%R.
      destruct sa; cbn [sgn] in Hv; lra. }
    assert (Hxb : (pow2 (-7) <= IZR (Z.pos mb) * pow2 eb)%R).
    { assert (Hv : (Y = sgn sb * (IZR (Z.pos mb) * pow2 eb))%R)
        by (unfold Y; rewrite Eb, val_finite; reflexivity).
      pose proof (mag_pos mb eb).
      change (pow2 (-7)) with (pow2 (- (7))). rewrite pow2_opp, pow2_IZR by lia.
      change (IZR (2 ^ 7)) with 128%R.
      destruct sb; cbn [sgn] in Hv; lra. }
    apply canonical_exponent in Hxa, Hxb; try assumption. lia. }
  destruct (Z.eq_dec S T) as [->|Hlt].
  - (* the partners take everything *)
    rewrite Z.sub_diag in *. cbn [Z.eqb].
    destruct (Req_dec (X + - Y) 0) as [E0|Hne].
    + rewrite (Hz E0). now exists false.
    + destruct Hnz as [Hcr Her]; [assumption| |].
      { split; [now apply Hgr|].
        apply Rabs_interval in Hd.
        assert (1 <= pow2 1000)%R by (rewrite <- pow2_0; apply pow2_le; lia).
        apply Rabs_def1; lra. }
      rewrite unit_roundoff in Her.
      assert (HU : (0 < / IZR (2 ^ 53) <= / 2)%R).
      { split; [apply Rinv_0_lt_compat, (IZR_lt 0); lia|].
        apply Rinv_le_contravar; [lra|apply (IZR_le 2); lia]. }
      set (R := val (fadd (dec T) (SFopp acc))) in *.
      set (U := (/ IZR (2 ^ 53))%R) in *.
      apply Rabs_interval in Hd as Hd'.
      assert (Hv : (Rabs (X + - Y) * 100 <= 5 / 32)%R).
      { rewrite <- (Rabs_pos_eq 100), <- Rabs_mult by lra. apply Rabs_le. lra. }
      apply (round2_tiny (fadd (dec T) (SFopp acc)) Hcr).
      * fold R. specialize (Hgr Hne).
        pose proof (Rabs_triang_inv (X + - Y) (X + - Y - R)) as Htri.
        replace (X + - Y - (X + - Y - R))%R with R in Htri by ring.
        rewrite <- (Rabs_Ropp (X + - Y - R)), Ropp_minus_distr in Htri.
        assert (pow2 (-1001) <= / 2 * pow2 (-1000))%R.
        { replace (-1001) with (-1 + -1000) by lia.
          rewrite pow2_add, pow2_m1. lra. }
        pose proof (Rabs_pos (X + - Y)).
        nra.
      * fold R. rewrite Rabs_mult, (Rabs_pos_eq 100) by lra.
        pose proof (Rabs_triang (R - (X + - Y)) (X + - Y)) as Htri.
        replace (R - (X + - Y) + (X + - Y))%R with R in Htri by ring.
        pose proof (Rabs_pos (X + - Y)). nra.
  - assert (HTS : (1 <= IZR (T - S))%R) by (apply (IZR_le 1); lia).
    apply Rabs_interval in Hd as Hd'.
    assert (Hpos' : (27 / 32 <= (X + - Y) * 100)%R) by lra.
    destruct Hnz as [Hcr Her]; [lra| |].
    { apply money_in_range. rewrite Rabs_pos_eq by lra.
      assert (IZR (2 ^ 60) = 4096 * IZR (2 ^ 48))%R
        by (rewrite <- mult_IZR; reflexivity).
      assert (IZR (T - S) <= IZR (2 ^ 48))%R by (apply IZR_le; lia).
      split; lra. }
    destruct (canonical_finite _ Hcr) as (sr & mr & er & Er).
    exists false. destruct (Z.eqb_spec (T - S) 0) as [|_]; [lia|].
    apply (round2_near _ sr mr er (T - S) Er); [|lia|lia].
    + rewrite unit_roundoff, (Rabs_pos_eq (X + - Y)) in Her by lra.
      set (R := val (fadd (dec T) (SFopp acc))) in *.
      assert (HU : (0 < / IZR (2 ^ 53))%R)
        by (apply Rinv_0_lt_compat, (IZR_lt 0); lia).
      assert (H48 : (/ IZR (2 ^ 53) * IZR (2 ^ 48) = / 32)%R).
      { change (2 ^ 53) with (2 ^ 48 * 32). rewrite mult_IZR.
        assert (0 < IZR (2 ^ 48))%R by (apply (IZR_lt 0); lia).
        rewrite Rinv_mult. field. lra. }
      assert (IZR (T - S) <= IZR (2 ^ 48))%R by (apply IZR_le; lia).
      set (U := (/ IZR (2 ^ 53))%R) in *.
      replace (R * 100 - IZR (T - S))%R
        with ((R - (X + - Y)) * 100 + ((X + - Y) * 100 - IZR (T - S)))%R
        by ring.
      eapply Rle_trans; [apply Rabs_triang|].
      rewrite Rabs_mult, (Rabs_pos_eq 100) by lra.
      assert (U * ((X + - Y) * 100) <= / 16)%R by nra.
      nra.
Qed.

Lemma rest_exact (B k : Z) (acc : number) (T S : Z) :
  0 <= k -> 0 <= S <= T -> 0 < T <= B -> B <= 2 ^ 48 ->
  k * (2 * B + 1) <= 2 ^ 50 ->
  near B k acc S ->
  Math_max zero (round2 (fsub (dec T) acc)) = dec (T - S) /\
  fle (SFopp (dec 1)) (round2 (fsub (dec T) acc)) = true.
Proof.
  intros Hk HS HT HB Hcount Hn.
  destruct (rest_rounded B k acc T S Hk HS HT HB Hcount Hn) as [s ->].
  destruct (Z.eqb_spec (T - S) 0) as [E|E].
  - rewrite E. now destruct s.
  - rewrite Math_max_zero_dec by lia. split; [f_equal; lia|].
    destruct (dec_sign (T - S)) as (m & e & ->); [lia..|].
    now replace (T - S <? 0) with false by (symmetry; apply Z.ltb_ge; lia).
Qed.

(** A rounded sum within an eighth of a cent of the amount passes the
    tolerance. *)
Lemma total_accepted (B k : Z) (sum : number) (T : Z) :
  0 <= k -> 0 < T <= B -> B <= 2 ^ 48 -> k * (2 * B + 1) <= 2 ^ 50 ->
  near B k sum T ->
  fgt (Math_abs (fsub sum (dec T))) FLOAT_EPSILON = false.
Proof.
  intros Hk HT HB Hcount [_ Hpos].
  destruct (Hpos ltac:(lia)) as [Hcs Hes].
  assert (HE : (IZR k * (/ IZR (2 ^ 53) * (2 * IZR B + 1)) <= / 8)%R).
  { apply IZR_le in Hcount. apply IZR_le in Hk.
    assert (HBr : (0 <= IZR B)%R) by (apply (IZR_le 0); lia).
    rewrite mult_IZR, plus_IZR, mult_IZR in Hcount.
    assert (H53 : (IZR (2 ^ 53) = 8 * IZR (2 ^ 50))%R)
      by (rewrite <- mult_IZR; reflexivity).
    assert (H50 : (0 < IZR (2 ^ 50))%R) by (apply (IZR_lt 0); lia).
    replace (IZR k * (/ IZR (2 ^ 53) * (2 * IZR B + 1)))%R
      with (IZR k * (2 * IZR B + 1) / IZR (2 ^ 53))%R by (field; lra).
    apply (Rmult_le_reg_r (IZR (2 ^ 53))); [lra|].
    unfold Rdiv. rewrite Rmult_assoc, Rinv_l by lra. lra. }
  assert (Hes' : (Rabs (val sum * 100 - IZR T) <= / 8)%R) by lra.
  clear Hes HE.
  assert (HU : (0 < / IZR (2 ^ 53) <= / 2)%R).
  { split; [apply Rinv_0_lt_compat, (IZR_lt 0); lia|].
    apply Rinv_le_contravar; [lra|apply (IZR_le 2); lia]. }
  assert (H48 : (/ IZR (2 ^ 53) * IZR (2 ^ 48) = / 32)%R).
  { change (2 ^ 53) with (2 ^ 48 * 32). rewrite mult_IZR.
    assert (0 < IZR (2 ^ 48))%R by (apply (IZR_lt 0); lia).
    rewrite Rinv_mult. field. lra. }
  destruct (dec_near T ltac:(lia) ltac:(lia)) as [HcT HeT].
  assert (HeT' : (Rabs (val (dec T) * 100 - IZR T) <= / 32)%R).
  { pose proof (Rabs_IZR_le T (2 ^ 48) ltac:(lia)). nra. }
  clear HeT.
  destruct (dec_near 1 ltac:(lia) ltac:(lia)) as [Hc1 He1].
  rewrite (Rabs_pos_eq 1), Rmult_1_r in He1 by lra.
  destruct (dec_sign 1) as (m1 & e1 & E1); [lia..|].
  change (1 <? 0) with false in E1.
  destruct (canonical_finite _ Hcs) as (sa & ma & ea & Ea).
  destruct (canonical_finite _ HcT) as (sb & mb & eb & Eb).
  rewrite fsub_fadd_opp.
  pose proof (fadd_spec sa ma ea (negb sb) mb eb) as [Hz Hnz].
  pose proof (fadd_grain sa ma ea (negb sb) mb eb) as Hgrain.
  cbv zeta in Hz, Hnz, Hgrain.
  assert (Eopp : SFopp (dec T) = S754_finite (negb sb) mb eb)
    by (rewrite Eb; reflexivity).
  rewrite <- Ea, <- Eopp in Hz, Hnz, Hgrain. rewrite val_opp in Hz, Hnz, Hgrain.
  set (X := val sum) in *. set (Y := val (dec T)) in *.
  apply Rabs_interval in Hes', HeT'.
  assert (HTr : (1 <= IZR T <= IZR (2 ^ 48))%R)
    by (split; [apply (IZR_le 1)|apply IZR_le]; lia).
  assert (Hd : (- (5 / 32) <= (X + - Y) * 100 <= 5 / 32)%R) by lra.
  unfold FLOAT_EPSILON, fgt. rewrite E1.
  change (flt (S754_finite false m1 e1)
            (Math_abs (fadd sum (SFopp (dec T)))) = false).
  destruct (Req_dec (X + - Y) 0) as [E0|Hne].
  { rewrite (Hz E0). reflexivity. }
  destruct Hnz as [Hcr Her]; [assumption| |].
  { split.
    - eapply Rle_trans; [|apply Hgrain; assumption].
      apply pow2_le.
      assert (Hcm : Z.pos (digits2_pos ma) = prec) by (rewrite Ea in Hcs; exact Hcs).
      assert (Hcb : Z.pos (digits2_pos mb) = prec) by (rewrite Eb in HcT; exact HcT).
      assert (Hxa : (pow2 (-7) <= IZR (Z.pos ma) * pow2 ea)%R).
      { assert (Hv : (X = sgn sa * (IZR (Z.pos ma) * pow2 ea))%R)
          by (unfold X; rewrite Ea, val_finite; reflexivity).
        pose proof (mag_pos ma ea).
        change (pow2 (-7)) with (pow2 (- (7))).
        rewrite pow2_opp, pow2_IZR by lia. change (IZR (2 ^ 7)) with 128%R.
        destruct sa; cbn [sgn] in Hv; lra. }
      assert (Hxb : (pow2 (-7) <= IZR (Z.pos mb) * pow2 eb)%R).
      { assert (Hv : (Y = sgn sb * (IZR (Z.pos mb) * pow2 eb))%R)
          by (unfold Y; rewrite Eb, val_finite; reflexivity).
        pose proof (mag_pos mb eb).
        change (pow2 (-7)) with (pow2 (- (7))).
        rewrite pow2_opp, pow2_IZR by lia. change (IZR (2 ^ 7)) with 128%R.
        destruct sb; cbn [sgn] in Hv; lra. }
      apply canonical_exponent in Hxa, Hxb; try assumption. lia.
    - assert (1 <= pow2 1000)%R by (rewrite <- pow2_0; apply pow2_le; lia).
      apply Rabs_def1; lra. }
  destruct (canonical_finite _ Hcr) as (sr & mr & er & Er).
  rewrite Er in Hcr, Her |- *. cbn [canonical] in Hcr.
  change (Math_abs (S754_finite sr mr er)) with (S754_finite false mr er).
  destruct (flt (S754_finite false m1 e1) (S754_finite false mr er)) eqn:F;
    [|reflexivity].
  exfalso. apply (flt_positive m1 mr e1 er) in F;
    [|now rewrite E1 in Hc1|assumption].
  rewrite unit_roundoff, val_finite in Her.
  assert (Hv1 : (val (dec 1) = IZR (Z.pos m1) * pow2 e1)%R).
  { rewrite E1, val_finite. cbn [sgn]. ring. }
  rewrite Hv1 in He1. apply Rabs_interval in He1.
  set (V1 := (IZR (Z.pos m1) * pow2 e1)%R) in *.
  set (R := (IZR (Z.pos mr) * pow2 er)%R) in *.
  set (U := (/ IZR (2 ^ 53))%R) in *.
  assert (HR : (R * 100 <= 15 / 64)%R).
  { assert (Hav : (Rabs (X + - Y) * 100 <= 5 / 32)%R).
    { rewrite <- (Rabs_pos_eq 100), <- Rabs_mult by lra. apply Rabs_le. lra. }
    pose proof (Rabs_triang (sgn sr * R - (X + - Y)) (X + - Y)) as Htri.
    replace (sgn sr * R - (X + - Y) + (X + - Y))%R with (sgn sr * R)%R
      in Htri by ring.
    assert (0 < R)%R by apply mag_pos.
    rewrite Rabs_sgn, (Rabs_pos_eq R) in Htri by lra.
    pose proof (Rabs_pos (X + - Y)). nra. }
  lra.
Qed.

(** ** The drawer on amounts with two decimals *)

Lemma entered_dec (c : Z) :
  0 <= c <= 2 ^ 50 -> Math_max zero (or0 (dec c)) = dec c.
Proof.
  intros Hc. destruct (Z.eq_dec c 0) as [->|Hc0]; [reflexivity|].
  destruct (dec_sign c) as (m & e & E); [lia..|].
  replace (c <? 0) with false in E by (symmetry; apply Z.ltb_ge; lia).
  now rewrite E.
Qed.

Lemma flt_dec_zero (c : Z) : 0 <= c <= 2 ^ 50 -> flt (dec c) zero = false.
Proof.
  intros Hc. destruct (Z.eq_dec c 0) as [->|Hc0]; [reflexivity|].
  destruct (dec_sign c) as (m & e & E); [lia..|].
  replace (c <? 0) with false in E by (symmetry; apply Z.ltb_ge; lia).
  now rewrite E.
Qed.

Lemma sum_amounts_fold (ss : list Split) :
  forall acc,
  fold_left (fun a s => fadd a (split_amount s)) ss acc
  = fold_left fadd (map split_amount ss) acc.
Proof. induction ss as [|s ss IH]; intros acc; [reflexivity|apply IH]. Qed.

Lemma customSplitsParsed_valid (others : list User)
  (entered : string -> number) (numAmount : number) (me : option string) :
  let r := customSplitsParsed others entered numAmount me in
  cs_valid r =
  fgt numAmount zero
  && fle (SFopp (dec 1)) (round2 (fsub numAmount (cs_sumOthers r)))
  && fgt (cs_sumOthers r) zero.
Proof.
  unfold customSplitsParsed. rewrite others_fold. reflexivity.
Qed.

(** X27.  A custom split typed with two decimals is exact: for an amount of
    [T] cents and partners' amounts of [c] cents each, none negative and
    [S <= T] in total, with [T <= 2^48] and [(n + 1) (2 T + 1) <= 2^50] for
    [n] partners, the drawer gives every partner the amount typed and the
    user the rest of [T - S] cents; the split is flagged valid exactly when
    [S > 0]; its cents add up to [T]; and [validateExpenseInput] accepts
    it. *)
Theorem drawer_two_decimal_split (others : list User) (c : string -> Z) (T : Z)
  (me : string) :
  me <> "" ->
  Forall (fun m => 0 <= c (user_id m)) others ->
  let S := sumZ (map (fun m => c (user_id m)) others) in
  0 < T -> S <= T -> T <= budget ->
  (Z.of_nat (length others) + 1) * (2 * T + 1) <= 2 ^ 50 ->
  let r := customSplitsParsed others (fun id => dec (c id)) (dec T)
             (Some me) in
  cs_splits r =
  (map (fun m => {| userId := user_id m;
                    split_amount := dec (c (user_id m)) |}) others
   ++ [{| userId := me; split_amount := dec (T - S) |}])%list /\
  cs_valid r = (0 <? S) /\
  splits_cents (cs_splits r) = T /\
  validateExpenseInput (dec T) custom (cs_splits r) = ok.
Proof.
  intros Hme Hc S HT HS HTb Hn r. unfold budget in HTb.
  set (n := Z.of_nat (length others)) in *.
  assert (Hn0 : 0 <= n) by (unfold n; lia).
  (* the partners *)
  assert (Hsum : 0 <= S /\ Forall (fun m => 0 <= c (user_id m) <= T) others).
  { subst S. clear -Hc HS.
    induction Hc as [|m ms Hm Hms IH]; [split; [cbn; lia|constructor]|].
    cbn [map sumZ] in *.
    assert (H0 : 0 <= sumZ (map (fun m => c (user_id m)) ms)).
    { clear -Hms. induction Hms as [|x xs Hx _ IHx]; cbn [map sumZ]; lia. }
    destruct IH as [_ IH]; [lia|]. split; [lia|].
    constructor; [lia|assumption]. }
  destruct Hsum as [HS0 Hcs].
  set (ss := map (fun m => {| userId := user_id m;
                              split_amount := dec (c (user_id m)) |}) others).
  assert (Ess : map (entered_split (fun id => dec (c id))) others = ss).
  { subst ss. apply map_ext_in. intros m Hin. unfold entered_split. f_equal.
    rewrite List.Forall_forall in Hcs. specialize (Hcs m Hin).
    apply entered_dec. lia. }
  assert (Exs : map split_amount ss
                = map round2 (map (fun m => dec (c (user_id m))) others)).
  { subst ss. rewrite !List.map_map. apply map_ext_in. intros m Hin.
    cbn [split_amount]. rewrite List.Forall_forall in Hcs.
    specialize (Hcs m Hin). symmetry. apply round2_dec. lia. }
  assert (Ecs : map cents0 (map (fun m => dec (c (user_id m))) others)
                = map (fun m => c (user_id m)) others).
  { rewrite List.map_map. apply map_ext_in. intros m Hin.
    rewrite List.Forall_forall in Hcs. specialize (Hcs m Hin).
    apply cents0_dec. lia. }
  assert (Hxs : Forall (fun x => exists c', cents x = Some c' /\ 0 <= c')
                  (map (fun m => dec (c (user_id m))) others)).
  { apply List.Forall_forall. intros x Hx.
    apply in_map_iff in Hx as (m & <- & Hin).
    rewrite List.Forall_forall in Hcs. specialize (Hcs m Hin).
    exists (c (user_id m)). split; [apply round2_dec|]; lia. }
  (* the sum of the partners *)
  destruct (customSplitsParsed_splits others (fun id => dec (c id)) (dec T)
              (Some me)) as [Esum Esplits].
  fold r in Esum, Esplits. rewrite Ess in Esum, Esplits.
  assert (Hnear : near T n (cs_sumOthers r) S).
  { rewrite Esum. unfold sum_amounts. rewrite sum_amounts_fold, Exs.
    pose proof (near_total T _ HTb Hxs 0 zero 0 ltac:(lia) ltac:(lia)) as H.
    rewrite Ecs, length_map, !Z.add_0_l in H. fold S n in H.
    apply H; [assumption|nia|]. split; [reflexivity|lia]. }
  destruct (rest_exact T n (cs_sumOthers r) T S) as [Hrest Hok];
    [lia|lia|lia|lia|nia|assumption|].
  unfold own_split in Esplits. apply String.eqb_neq in Hme.
  rewrite Hme, Hrest in Esplits.
  split; [exact Esplits|]. split; [|split].
  - (* the flag *)
    pose proof (customSplitsParsed_valid others (fun id => dec (c id)) (dec T)
                  (Some me)) as Hv.
    cbv zeta in Hv. fold r in Hv. rewrite Hv, Hok, fgt_dec_zero by lia.
    replace (0 <? T) with true by (symmetry; apply Z.ltb_lt; lia).
    cbn [andb]. destruct Hnear as [Hz Hp].
    destruct (Z.ltb_spec 0 S) as [Hpos|Hzero].
    + destruct (Hp Hpos) as [Hcan Herr].
      destruct (canonical_finite _ Hcan) as (s & m & e & E).
      rewrite E in *. rewrite val_finite in Herr.
      pose proof (near_budget T n ltac:(lia) Hn0 ltac:(nia)) as [_ Hq].
      assert (1 <= IZR S)%R by (apply (IZR_le 1); lia).
      apply Rabs_interval in Herr. pose proof (mag_pos m e).
      destruct s; cbn [sgn] in Herr; [exfalso; lra|reflexivity].
    + rewrite Hz by lia. reflexivity.
  - (* every cent of the amount *)
    rewrite Esplits. unfold splits_cents.
    rewrite List.map_app, sumZ_app. cbn [map sumZ split_amount].
    rewrite cents0_dec by lia.
    replace (map (fun s => cents0 (split_amount s)) ss)
      with (map (fun m => c (user_id m)) others).
    + fold S. lia.
    + subst ss. rewrite List.map_map. symmetry. apply map_ext_in.
      intros m Hin. cbn [split_amount]. rewrite List.Forall_forall in Hcs.
      specialize (Hcs m Hin). apply cents0_dec. lia.
  - (* the validator *)
    rewrite validateExpenseInput_head.
    2:{ destruct (dec_sign T) as (m & e & ->); [lia..|]. reflexivity. }
    2:{ change (flt zero (dec T)) with (fgt (dec T) zero).
        rewrite fgt_dec_zero by lia. apply Z.ltb_lt. lia. }
    assert (Hneg : existsb (fun s => flt (split_amount s) zero) (cs_splits r)
                   = false).
    { rewrite Esplits, existsb_app. apply orb_false_iff. split.
      - subst ss. clear -Hcs HTb. induction Hcs as [|m ms Hm _ IH]; [reflexivity|].
        cbn [map existsb split_amount]. rewrite flt_dec_zero by lia. exact IH.
      - cbn [existsb split_amount]. now rewrite flt_dec_zero by lia. }
    assert (Htot : fgt (Math_abs (fsub (sum_amounts (cs_splits r)) (dec T)))
                     FLOAT_EPSILON = false).
    { apply (total_accepted T (n + 1)); [lia|lia|lia|nia|].
      rewrite Esplits. unfold sum_amounts. rewrite fold_left_app.
      cbn [fold_left split_amount].
      fold (sum_amounts ss). rewrite <- Esum.
      destruct (round2_dec (T - S)) as [Hr Hcents]; [lia|].
      rewrite <- Hr. replace T with (S + (T - S)) at 3 by lia.
      apply near_step; try assumption; lia || nia. }
    unfold validateSplitTotals. rewrite Htot, Hneg. reflexivity.
Qed.

Lemma drawer_two_decimal_split_witness :
  let others := [user "U2"; user "U3"] in
  let c := fun id => if String.eqb id "U2" then 4000 else 2550 in
  let r := customSplitsParsed others (fun id => dec (c id)) (of_Z 100)
             (Some "U1") in
  cs_splits r =
  [share "U2" (of_Z 40); share "U3" (dec 2550); share "U1" (dec 3450)] /\
  cs_valid r = true /\
  splits_cents (cs_splits r) = 10000 /\
  validateExpenseInput (of_Z 100) custom (cs_splits r) = ok.
Proof.
  intros others c.
  apply (drawer_two_decimal_split others c 10000 "U1").
  - discriminate.
  - repeat constructor; vm_compute; discriminate.
  - reflexivity.
  - vm_compute. discriminate.
  - vm_compute. discriminate.
  - vm_compute. discriminate.
Defined.

(** * The tolerance on amounts with two decimals *)






